(** * Lockout bingo generator: the constraint-satisfaction search of
    [index.mjs], embedded shallowly and checked against its description.

    Numbers.  Every number the search handles is an integer: tiers are array
    indices of the catalog, the bounds of the intervals are integer
    literals, and the counters are incremented by one.  The search is
    modelled on [Z] (values) and [nat] (indices and counters) with exact
    arithmetic, which is what doubles compute as long as no value leaves
    the range of magnitude 2^53.  Module [Double] has the rounding beyond
    that range and the [Interval] methods as they run on objects; the
    statements about the interval arithmetic itself are made there.

    Effects.  The search mutates one [GeneratorContext]; the model passes it
    explicitly.  [Math.random] and [console.log] live in a [World] that is
    passed along with it, together with a record of the calls entered,
    which the statements about "every call" refer to.  Exceptions are the
    [Threw] outcome; the recursion is bounded by a budget that is proved
    never to run out. *)

From Stdlib Require Import ZArith Lia List.
From stdpp Require Import base numbers option list strings gmap sets.

Open Scope string_scope.
Open Scope list_scope.
Open Scope Z_scope.

(** ** Objectives (class [Objective]) *)

Record Objective := mkObjective {
  tier : Z;
  name : string;
  types : list string
}.

Global Instance Objective_eq_dec : EqDecision Objective.
Proof. solve_decision. Defined.

(** [this.types_set = new Set(types)]; [types_set.has t]. *)
Definition types_set_has (obj : Objective) (t : string) : bool :=
  bool_decide (t ∈ types obj).

(** [includes_types]: this objective contains all given types. *)
Definition includes_types (obj : Objective) (tys : list string) : bool :=
  forallb (fun t => types_set_has obj t) tys.

(** [excludes_types]: this objective contains none of the given types. *)
Definition excludes_types (obj : Objective) (tys : list string) : bool :=
  forallb (fun t => negb (types_set_has obj t)) tys.

(** ** The catalog *)

Record RawObjective := mkRaw {
  raw_name : string;
  raw_types : list string
}.

(** [data.flatMap((tier_pool, tier) => tier_pool.map(obj => new Objective(tier, ...)))],
    with the index counted from [start]. *)
Fixpoint pool_from (start : nat) (data : list (list RawObjective)) : list Objective :=
  match data with
  | [] => []
  | tier_pool :: rest =>
      map (fun obj => mkObjective (Z.of_nat start) (raw_name obj) (raw_types obj)) tier_pool
      ++ pool_from (S start) rest
  end.

Definition pool_of (data : list (list RawObjective)) : list Objective :=
  pool_from 0 data.

(** The catalog shipped with the program ([objectives/example.js]). *)
Definition data : list (list RawObjective) :=
  [ [];
    [ mkRaw "A" ["a"]; mkRaw "B" ["a"; "b"]; mkRaw "C" ["c"] ];
    [ mkRaw "D" ["c"; "d"]; mkRaw "E" ["d"; "e"]; mkRaw "F" ["d"] ];
    [ mkRaw "G" ["e"]; mkRaw "H" ["e"; "f"]; mkRaw "I" ["g"]; mkRaw "J" ["j"] ];
    [ mkRaw "K" ["k"]; mkRaw "L" ["l"]; mkRaw "M" ["m"]; mkRaw "N" ["n"] ];
    [ mkRaw "O" ["o"]; mkRaw "P" ["p"]; mkRaw "Q" ["q"]; mkRaw "R" ["r"] ];
    [ mkRaw "S" ["s"]; mkRaw "T" ["t"]; mkRaw "U" ["u"]; mkRaw "V" ["v"] ];
    [ mkRaw "W" ["w"]; mkRaw "X" ["x"]; mkRaw "Y" ["y"]; mkRaw "Z" ["z"] ] ].

Definition example_pool : list Objective := pool_of data.

(** ** Intervals (class [Interval]) *)

Record Interval := mkInterval {
  min : Z;
  max : Z
}.

Global Instance Interval_eq_dec : EqDecision Interval.
Proof. solve_decision. Defined.

Module Interval.

Definition clone (this : Interval) : Interval :=
  mkInterval (min this) (max this).

Definition contains (this : Interval) (value : Z) : bool :=
  (min this <=? value) && (value <=? max this).

(** The arithmetic methods update the receiver and return it; the model
    returns the receiver's new value, for an argument other than the
    receiver and in exact arithmetic.  [Double.add], [Double.sub] and the
    like have the receiver as its own argument and the rounding of
    doubles; [add_exact] and [sub_exact] relate the two. *)
Definition addValue (this : Interval) (x : Z) : Interval :=
  mkInterval (min this + x) (max this + x).

Definition add (this other : Interval) : Interval :=
  mkInterval (min this + min other) (max this + max other).

Definition subValue (this : Interval) (x : Z) : Interval :=
  mkInterval (min this - x) (max this - x).

Definition sub (this other : Interval) : Interval :=
  mkInterval (min this - max other) (max this - min other).


Definition intersection (a b : Interval) : Interval :=
  mkInterval (Z.max (min a) (min b)) (Z.min (max a) (max b)).

Definition MIN_SAFE_INTEGER : Z := - (2 ^ 53 - 1).
Definition MAX_SAFE_INTEGER : Z := 2 ^ 53 - 1.

Definition safeIntegerRange : Interval :=
  mkInterval MIN_SAFE_INTEGER MAX_SAFE_INTEGER.

Definition valueOf (value : Z) : Interval :=
  mkInterval value value.


End Interval.

(** ** The candidate filter ([narrow_bingo_pool]) *)

Inductive TypeExclusivity := strict | partial | none.

Global Instance TypeExclusivity_eq_dec : EqDecision TypeExclusivity.
Proof. solve_decision. Defined.

(** [exclude_types.forEach(types => exclude_set.add(...types))]: [Set.add]
    reads one argument, so each call adds the first element of [types]
    ([undefined], here [None], when [types] is empty). *)
Definition strict_exclude_set (exclude_types : list (list string))
  : gset (option string) :=
  fold_left (fun s tys => s ∪ {[ head tys ]}) exclude_types ∅.

(** ** Boards

    A cell of [board] holds [null] or an [Objective].  Reading an index
    outside an array yields [undefined], which is the third case. *)

Inductive Cell := CNull | CObj (objective : Objective) | CUndefined.

Global Instance Cell_eq_dec : EqDecision Cell.
Proof. solve_decision. Defined.

Abbreviation Board := (list (list Cell)).

(** [board[r][c]] as an expression: [None] is the [TypeError] raised when
    [board[r]] is [undefined]. *)
Definition board_get (board : Board) (r c : nat) : option Cell :=
  match board !! r with
  | None => None
  | Some line => Some (default CUndefined (line !! c))
  end.

(** [array[c] = v]: an index past the end extends the array, leaving
    holes that read as [undefined]. *)
Definition array_set (line : list Cell) (c : nat) (v : Cell) : list Cell :=
  if decide (c < length line)%nat then <[c := v]> line
  else line ++ replicate (c - length line) CUndefined ++ [v].

(** [board[r][c] = v]: [None] is the [TypeError] raised when [board[r]] is
    [undefined]. *)
Definition board_set (board : Board) (r c : nat) (v : Cell) : option Board :=
  match board !! r with
  | None => None
  | Some line => Some (<[r := array_set line c v]> board)
  end.

(** ** The search state ([GeneratorContext]) *)

Record GeneratorContext := mkContext {
  board : Board;
  size : nat;
  objective_difficulty : Interval;
  bingo_difficulty : Interval;
  type_exclusivity : TypeExclusivity;
  objective_names : gset string;
  depth : nat;
  depth_record : nat;
  backtracks : nat
}.

Global Instance GeneratorContext_eq_dec : EqDecision GeneratorContext.
Proof. solve_decision. Defined.

Definition with_board (c : GeneratorContext) (b : Board) : GeneratorContext :=
  mkContext b (size c) (objective_difficulty c) (bingo_difficulty c)
    (type_exclusivity c) (objective_names c) (depth c) (depth_record c) (backtracks c).

Definition with_objective_names (c : GeneratorContext) (s : gset string) : GeneratorContext :=
  mkContext (board c) (size c) (objective_difficulty c) (bingo_difficulty c)
    (type_exclusivity c) s (depth c) (depth_record c) (backtracks c).

Definition with_depth (c : GeneratorContext) (d : nat) : GeneratorContext :=
  mkContext (board c) (size c) (objective_difficulty c) (bingo_difficulty c)
    (type_exclusivity c) (objective_names c) d (depth_record c) (backtracks c).

Definition with_depth_record (c : GeneratorContext) (d : nat) : GeneratorContext :=
  mkContext (board c) (size c) (objective_difficulty c) (bingo_difficulty c)
    (type_exclusivity c) (objective_names c) (depth c) d (backtracks c).

Definition with_backtracks (c : GeneratorContext) (n : nat) : GeneratorContext :=
  mkContext (board c) (size c) (objective_difficulty c) (bingo_difficulty c)
    (type_exclusivity c) (objective_names c) (depth c) (depth_record c) n.

(** ** The world outside the context

    [random] is the stream of values [Math.floor(Math.random() * (i + 1))]
    still to come (0 once the list is exhausted), [console] the lines
    logged so far, the latest first.  [invocations] is specification-only:
    the context at the entry of every call of [generate_board_helper], the
    latest first. *)

Inductive LogLine :=
| LogCell (depth total : nat)
| LogTooMuchBacktracking.

Record World := mkWorld {
  random : list nat;
  console : list LogLine;
  invocations : list GeneratorContext
}.

Definition next_random (w : World) : nat * World :=
  match random w with
  | [] => (0%nat, w)
  | r :: rest => (r, mkWorld rest (console w) (invocations w))
  end.

Definition console_log (w : World) (line : LogLine) : World :=
  mkWorld (random w) (line :: console w) (invocations w).

Definition enter (w : World) (c : GeneratorContext) : World :=
  mkWorld (random w) (console w) (c :: invocations w).

(** What a call does: return, throw, or (in the model only) exhaust the
    recursion budget. *)
Inductive outcome (A : Type) :=
| Returned (a : A)
| Threw
| OutOfFuel.
Arguments Returned {A} a.
Arguments Threw {A}.
Arguments OutOfFuel {A}.

(** ** The constraint calculator ([count_bingo_constraints]) *)

Record Constraints := mkConstraints {
  tier_interval : Interval;
  exclude_types : list (list string)
}.

(** The body the four loops share, past the [continue] test: the line's
    interval loses the cell's contribution, and the types of an occupied
    cell are pushed on [bingo_types].  [cell.tier] on [undefined] throws. *)
Definition scan_cell (objective_difficulty : Interval) (cell : Cell)
    (acc : Interval * list (list string)) : option (Interval * list (list string)) :=
  match cell with
  | CNull => Some (Interval.sub acc.1 objective_difficulty, acc.2)
  | CObj o => Some (Interval.sub acc.1 (Interval.valueOf (tier o)), acc.2 ++ [types o])
  | CUndefined => None
  end.

(** [for (let i = 0; i < size; i++) { if (i === skip) continue; cell = board[..][..]; ... }]
    over the remaining [indices]; [coord i] is the cell the loop reads. *)
Fixpoint scan_line (board : Board) (objective_difficulty : Interval)
    (coord : nat → nat * nat) (skip : nat) (indices : list nat)
    (acc : Interval * list (list string)) : option (Interval * list (list string)) :=
  match indices with
  | [] => Some acc
  | i :: rest =>
      if decide (i = skip) then scan_line board objective_difficulty coord skip rest acc
      else
        match board_get board (coord i).1 (coord i).2 with
        | None => None
        | Some cell =>
            match scan_cell objective_difficulty cell acc with
            | None => None
            | Some acc' => scan_line board objective_difficulty coord skip rest acc'
            end
        end
  end.

(** [bingo_tier_intervals.filter(v => v !== null)] *)
Definition non_null (l : list (option Interval)) : list Interval :=
  omap id l.

Definition count_bingo_constraints (context : GeneratorContext) (row col : nat)
  : option Constraints :=
  let board := board context in
  let size := size context in
  let objective_difficulty := objective_difficulty context in
  let bingo_difficulty := bingo_difficulty context in
  let idx := seq 0 size in
  match scan_line board objective_difficulty (fun i => (row, i)) col idx
          (Interval.clone bingo_difficulty, []) with
  | None => None
  | Some (i0, types0) =>
  match scan_line board objective_difficulty (fun i => (i, col)) row idx
          (Interval.clone bingo_difficulty, types0) with
  | None => None
  | Some (i1, types1) =>
  match (if decide (row = col)
         then match scan_line board objective_difficulty (fun i => (i, i)) row idx
                      (Interval.clone bingo_difficulty, types1) with
              | None => None
              | Some (i2, types2) => Some (Some i2, types2)
              end
         else Some (None, types1)) with
  | None => None
  | Some (i2, types2) =>
  match (if decide (Z.of_nat row + Z.of_nat col = Z.of_nat size - 1)
         then match scan_line board objective_difficulty
                      (fun i => (i, (size - 1 - i)%nat)) row idx
                      (Interval.clone bingo_difficulty, types2) with
              | None => None
              | Some (i3, types3) => Some (Some i3, types3)
              end
         else Some (None, types2)) with
  | None => None
  | Some (i3, bingo_types) =>
      let bingo_tier_interval :=
        fold_left Interval.intersection (non_null [Some i0; Some i1; i2; i3])
          objective_difficulty in
      Some (mkConstraints bingo_tier_interval bingo_types)
  end end end end.

(** ** Shuffling ([shuffle_array]) *)

(** [temp = array[i]; array[i] = array[j]; array[j] = temp], for indices
    inside the array (the only ones [shuffle_array] produces). *)
Definition swap (array : list Objective) (i j : nat) : list Objective :=
  match array !! i, array !! j with
  | Some x, Some y => <[j := x]> (<[i := y]> array)
  | _, _ => array
  end.

(** The iterations [i = n - 1, ..., 0] of the loop. *)
Fixpoint shuffle_loop (n : nat) (array : list Objective) (w : World)
  : list Objective * World :=
  match n with
  | O => (array, w)
  | S i =>
      let '(r, w) := next_random w in
      let j := (r mod (i + 1))%nat in
      shuffle_loop i (swap array i j) w
  end.

Definition shuffle_array (array : list Objective) (w : World) : list Objective * World :=
  shuffle_loop (length array) array w.

(** ** The backtracking engine ([generate_board_helper]) *)

Definition BACKTRACK_LIMIT : nat := 100.

(** How the [for (const objective of pool)] loop ends: by [return true],
    by [break], or by running out of candidates. *)
Inductive LoopExit := ExitReturnTrue | ExitBreak | ExitDone.

Section Catalog.

(** [bingo_pool], the flattened catalog. *)
Variable bingo_pool : list Objective.

(** The filter of the ["strict"] case, with [exclude_set] in scope. *)
Definition strict_filter (exclude_set : gset (option string))
    (tier_interval : Interval) (exclude_types : list (list string))
    (exclude_names : gset string) : list Objective :=
  List.filter (fun obj =>
    Interval.contains tier_interval (tier obj) &&
    negb (bool_decide (name obj ∈ exclude_names)) &&
    forallb (fun v => excludes_types obj v) exclude_types) bingo_pool.

Definition narrow_bingo_pool (type_exclusivity : TypeExclusivity)
    (tier_interval : Interval) (exclude_types : list (list string))
    (exclude_names : gset string) : list Objective :=
  match type_exclusivity with
  | none =>
      List.filter (fun obj =>
        Interval.contains tier_interval (tier obj) &&
        negb (bool_decide (name obj ∈ exclude_names))) bingo_pool
  | partial =>
      List.filter (fun obj =>
        Interval.contains tier_interval (tier obj) &&
        negb (bool_decide (name obj ∈ exclude_names)) &&
        forallb (fun v => negb (includes_types obj v)) exclude_types) bingo_pool
  | strict =>
      let exclude_set := strict_exclude_set exclude_types in
      strict_filter exclude_set tier_interval exclude_types exclude_names
  end.

(** The loop over the shuffled pool; [recur] is the recursive call. *)
Fixpoint try_candidates
    (recur : GeneratorContext → World → outcome (bool * GeneratorContext * World))
    (row col : nat) (pool : list Objective)
    (context : GeneratorContext) (w : World)
  : outcome (LoopExit * GeneratorContext * World) :=
  match pool with
  | [] => Returned (ExitDone, context, w)
  | objective :: rest =>
      match board_set (board context) row col (CObj objective) with
      | None => Threw
      | Some b =>
          let context := with_board context b in
          let context :=
            with_objective_names context ({[ name objective ]} ∪ objective_names context) in
          match recur context w with
          | Threw => Threw
          | OutOfFuel => OutOfFuel
          | Returned (true, context, w) => Returned (ExitReturnTrue, context, w)
          | Returned (false, context, w) =>
              let context := with_backtracks context (S (backtracks context)) in
              let context :=
                with_objective_names context (objective_names context ∖ {[ name objective ]}) in
              if decide (5 < depth context)%nat then
                if decide (BACKTRACK_LIMIT ≤ backtracks context)%nat then
                  let w :=
                    if decide (backtracks context = BACKTRACK_LIMIT)
                    then console_log w LogTooMuchBacktracking else w in
                  Returned (ExitBreak, context, w)
                else try_candidates recur row col rest context w
              else try_candidates recur row col rest (with_backtracks context 0) w
          end
      end
  end.

(** Past the loop: [return true] was taken inside it, or the cell is
    given up ([context.depth--; board[row][col] = null; return false]).
    [depth] is positive there (see [try_candidates_depth]), so the
    subtraction on [nat] is the decrement. *)
Definition leave_cell (row col : nat)
    (r : outcome (LoopExit * GeneratorContext * World))
  : outcome (bool * GeneratorContext * World) :=
  match r with
  | Threw => Threw
  | OutOfFuel => OutOfFuel
  | Returned (ExitReturnTrue, context, w) => Returned (true, context, w)
  | Returned (_, context, w) =>
      let context := with_depth context (depth context - 1) in
      match board_set (board context) row col CNull with
      | None => Threw
      | Some b => Returned (false, with_board context b, w)
      end
  end.

(** The body of [generate_board_helper] past the depth record; [recur]
    is the recursive call. *)
Definition helper_body
    (recur : GeneratorContext → World → outcome (bool * GeneratorContext * World))
    (context : GeneratorContext) (w : World)
  : outcome (bool * GeneratorContext * World) :=
  if decide (size context * size context ≤ depth context)%nat
  then Returned (true, context, w)
  else
    let row := (depth context / size context)%nat in
    let col := (depth context mod size context)%nat in
    match count_bingo_constraints context row col with
    | None => Threw
    | Some constraints =>
        let pool :=
          narrow_bingo_pool (type_exclusivity context) (tier_interval constraints)
            (exclude_types constraints) (objective_names context) in
        if decide (length pool = 0%nat) then Returned (false, context, w)
        else
          let '(pool, w) := shuffle_array pool w in
          let context := with_depth context (S (depth context)) in
          leave_cell row col (try_candidates recur row col pool context w)
    end.

Fixpoint generate_board_helper (fuel : nat) (context : GeneratorContext) (w : World)
  : outcome (bool * GeneratorContext * World) :=
  match fuel with
  | O => OutOfFuel
  | S fuel =>
      let w := enter w context in
      let '(context, w) :=
        if decide (depth_record context < depth context)%nat
        then (with_depth_record context (depth context),
              console_log w (LogCell (depth context) (size context * size context)))
        else (context, w) in
      helper_body (generate_board_helper fuel) context w
  end.

(** ** [generate_board] *)

(** [new Array(size).fill(0).map(_ => new Array(size).fill(null))] *)
Definition new_board (size : nat) : Board :=
  replicate size (replicate size CNull).

(** The value [generate_board] returns: the board or an [Error]. *)
Inductive BoardOrError :=
| IsBoard (board : Board)
| IsError (message : string).

Definition initial_context (size : nat) (objective_difficulty : option Interval)
    (bingo_difficulty : Interval) (type_exclusivity : TypeExclusivity)
  : GeneratorContext :=
  mkContext (new_board size) size
    (default Interval.safeIntegerRange objective_difficulty)
    bingo_difficulty type_exclusivity ∅ 0 0 0.

(** [generate_board] with the recursion budget as a parameter. *)
Definition generate_board_fuel (fuel : nat) (size : nat)
    (objective_difficulty : option Interval) (bingo_difficulty : Interval)
    (type_exclusivity : TypeExclusivity) (w : World)
  : outcome (BoardOrError * World) :=
  let context :=
    initial_context size objective_difficulty bingo_difficulty type_exclusivity in
  match generate_board_helper fuel context w with
  | Threw => Threw
  | OutOfFuel => OutOfFuel
  | Returned (result, context, w) =>
      if negb result
      then Returned
             (IsError "Board not found. A board may be possible but simply not found by the generator.",
              w)
      else Returned (IsBoard (board context), w)
  end.

(** The recursion descends one level per cell and once more to see the
    full board. *)
Definition generate_board (size : nat)
    (objective_difficulty : option Interval) (bingo_difficulty : Interval)
    (type_exclusivity : TypeExclusivity) (w : World)
  : outcome (BoardOrError * World) :=
  generate_board_fuel (S (size * size)) size objective_difficulty bingo_difficulty
    type_exclusivity w.

End Catalog.

(** ** Vocabulary of the statements *)

(** A world with the given random draws and nothing logged. *)
Definition world0 (rs : list nat) : World := mkWorld rs [] [].

(** The cell at a coordinate, [undefined] outside the board. *)
Definition cell_at (b : Board) (rc : nat * nat) : Cell :=
  default CUndefined (board_get b rc.1 rc.2).

Definition tier_at (b : Board) (rc : nat * nat) : Z :=
  match cell_at b rc with
  | CObj o => tier o
  | _ => 0
  end.

(** A [n] x [n] grid whose cells are [null] or objectives. *)
Definition grid (n : nat) (b : Board) : Prop :=
  length b = n ∧
  Forall (fun line => length line = n ∧ Forall (fun c => c ≠ CUndefined) line) b.

(** Lines are given by the coordinate of their [i]-th cell. *)
Definition row_line (r : nat) : nat → nat * nat := fun i => (r, i).
Definition col_line (c : nat) : nat → nat * nat := fun i => (i, c).
Definition diag_line : nat → nat * nat := fun i => (i, i).
Definition anti_line (n : nat) : nat → nat * nat := fun i => (i, (n - 1 - i)%nat).

Definition line_cells (n : nat) (line : nat → nat * nat) : list (nat * nat) :=
  map line (seq 0 n).

Definition sumZ (l : list Z) : Z := foldr Z.add 0 l.

(** The sum of the tiers along a line. *)
Definition line_sum (b : Board) (n : nat) (line : nat → nat * nat) : Z :=
  sumZ (map (tier_at b) (line_cells n line)).

(** The names of the non-null cells of a board. *)
Definition cell_names (c : Cell) : list string :=
  match c with
  | CObj o => [name o]
  | _ => []
  end.

Definition names_on (b : Board) : gset string :=
  list_to_set (flat_map (flat_map cell_names) b).

(** *** The constraint calculator as the description words it *)

(** What a cell other than the target takes from its line's budget. *)
Definition contribution (objective_difficulty : Interval) (c : Cell) : Interval :=
  match c with
  | CObj o => Interval.valueOf (tier o)
  | _ => objective_difficulty
  end.

(** The cells of a line other than the target. *)
Definition others (n : nat) (line : nat → nat * nat) (target : nat * nat)
  : list (nat * nat) :=
  List.filter (fun rc => negb (bool_decide (rc = target))) (line_cells n line).

(** [bingo_difficulty] minus the contribution of every other cell. *)
Definition remaining_interval (b : Board) (n : nat)
    (objective_difficulty bingo_difficulty : Interval)
    (target : nat * nat) (line : nat → nat * nat) : Interval :=
  fold_left (fun itv rc => Interval.sub itv (contribution objective_difficulty (cell_at b rc)))
    (others n line target) bingo_difficulty.

(** The lines through a cell. *)
Definition lines_through (n row col : nat) : list (nat → nat * nat) :=
  [row_line row; col_line col]
  ++ (if decide (row = col) then [diag_line] else [])
  ++ (if decide (Z.of_nat row + Z.of_nat col = Z.of_nat n - 1) then [anti_line n] else []).

Definition admissible_interval (b : Board) (n : nat)
    (objective_difficulty bingo_difficulty : Interval) (row col : nat) : Interval :=
  fold_left Interval.intersection
    (map (remaining_interval b n objective_difficulty bingo_difficulty (row, col))
       (lines_through n row col))
    objective_difficulty.

(** Two cells lie on a common line. *)
Definition shares_line (n : nat) (target rc : nat * nat) : bool :=
  bool_decide (rc.1 = target.1)
  || bool_decide (rc.2 = target.2)
  || (bool_decide (target.1 = target.2) && bool_decide (rc.1 = rc.2))
  || (bool_decide (Z.of_nat target.1 + Z.of_nat target.2 = Z.of_nat n - 1)
      && bool_decide (Z.of_nat rc.1 + Z.of_nat rc.2 = Z.of_nat n - 1)).

(** All cells of the grid, row by row. *)
Definition grid_cells (n : nat) : list (nat * nat) :=
  flat_map (fun r => map (fun c => (r, c)) (seq 0 n)) (seq 0 n).

Definition cell_types (c : Cell) : list (list string) :=
  match c with
  | CObj o => [types o]
  | _ => []
  end.

(** One tag list per occupied cell, other than the target, on a line
    through the target. *)
Definition forbidden_tag_sets (b : Board) (n row col : nat) : list (list string) :=
  flat_map (fun rc => cell_types (cell_at b rc))
    (List.filter (fun rc => negb (bool_decide (rc = (row, col))) && shares_line n (row, col) rc)
       (grid_cells n)).

(** The types the four loops push, line by line. *)
Definition pushed_types (b : Board) (n row col : nat) : list (list string) :=
  flat_map (fun line => flat_map (fun rc => cell_types (cell_at b rc)) (others n line (row, col)))
    (lines_through n row col).

(** The cells the four loops visit. *)
Definition visited_cells (n row col : nat) : list (nat * nat) :=
  flat_map (fun line => others n line (row, col)) (lines_through n row col).

(** *** The candidate filter as the description words it *)

Definition superset_of (obj : Objective) (T : list string) : Prop :=
  ∀ t, t ∈ T → t ∈ types obj.

Definition shares_a_tag (obj : Objective) (T : list string) : Prop :=
  ∃ t, t ∈ T ∧ t ∈ types obj.

Definition satisfies_policy (policy : TypeExclusivity)
    (forbidden : list (list string)) (obj : Objective) : Prop :=
  match policy with
  | none => True
  | partial => ∀ T, T ∈ forbidden → ¬ superset_of obj T
  | strict => ∀ T, T ∈ forbidden → ¬ shares_a_tag obj T
  end.

(** *** The invariant of the search

    The board is a grid filled with objectives up to [depth] in row-major
    order and [null] from there on; the names in use are those on the
    board, no two cells carry the same name, every tier is admissible, and
    every full line sums inside [bingo_difficulty]. *)

Definition all_lines (n : nat) : list (nat → nat * nat) :=
  map row_line (seq 0 n) ++ map col_line (seq 0 n) ++ [diag_line; anti_line n].

Definition full_line (b : Board) (n : nat) (line : nat → nat * nat) : Prop :=
  ∀ rc, rc ∈ line_cells n line → ∃ o, cell_at b rc = CObj o.

Record search_inv (b : Board) (n : nat) (od bd : Interval)
    (names : gset string) (d : nat) : Prop := mkInv {
  inv_grid : grid n b;
  inv_depth : (d ≤ n * n)%nat;
  inv_filled : ∀ r c, (r < n)%nat → (c < n)%nat → (r * n + c < d)%nat →
               ∃ o, cell_at b (r, c) = CObj o;
  inv_null : ∀ r c, (r < n)%nat → (c < n)%nat → (d ≤ r * n + c)%nat →
             cell_at b (r, c) = CNull;
  inv_names : names = names_on b;
  inv_distinct : ∀ rc1 rc2 o1 o2, cell_at b rc1 = CObj o1 → cell_at b rc2 = CObj o2 →
                 name o1 = name o2 → rc1 = rc2;
  inv_tiers : ∀ rc o, cell_at b rc = CObj o → Interval.contains od (tier o) = true;
  inv_lines : ∀ line, (0 < n)%nat → line ∈ all_lines n → full_line b n line →
              Interval.contains bd (line_sum b n line) = true
}.

Definition context_inv (c : GeneratorContext) : Prop :=
  search_inv (board c) (size c) (objective_difficulty c) (bingo_difficulty c)
    (objective_names c) (depth c).

(** What holds at the entry of every call: the invariant, and a backtrack
    count below the limit. *)
Definition entry_ok (c : GeneratorContext) : Prop :=
  context_inv c ∧ (backtracks c < BACKTRACK_LIMIT)%nat.

(** The parameters of a search, which no call changes. *)
Definition same_parameters (c c' : GeneratorContext) : Prop :=
  size c' = size c ∧ objective_difficulty c' = objective_difficulty c ∧
  bingo_difficulty c' = bingo_difficulty c ∧ type_exclusivity c' = type_exclusivity c.

(** The state inside the candidate loop of the call entered with [base]
    at cell ([row], [col]): one level deeper, the same names in use, and
    the board of [base] but for the cell under trial. *)
Definition loop_state (base : GeneratorContext) (row col : nat) (c : GeneratorContext) : Prop :=
  same_parameters base c ∧ depth c = S (depth base) ∧
  objective_names c = objective_names base ∧
  ∃ v, board_set (board base) row col v = Some (board c).

(** What a call entered with [c] achieves, [before] being the calls
    entered so far: it returns; the calls it made all started from states
    satisfying the invariant, below the backtrack limit; on success the
    board is full and valid, on failure the state is back. *)
Definition helper_post (c : GeneratorContext) (before : list GeneratorContext)
    (res : outcome (bool * GeneratorContext * World)) : Prop :=
  ∃ r c' w', res = Returned (r, c', w') ∧ same_parameters c c' ∧
    (∃ new, invocations w' = new ++ before ∧ Forall entry_ok new) ∧
    if r : bool
    then context_inv c' ∧ depth c' = (size c * size c)%nat
    else board c' = board c ∧ depth c' = depth c ∧ objective_names c' = objective_names c.

(** *** Sample inputs, used to run the statements *)

(** A 3 x 3 board with five cells placed. *)
Definition sample_board : Board :=
  [ [CObj (mkObjective 1 "A" ["a"]); CObj (mkObjective 3 "I" ["g"]);
     CObj (mkObjective 2 "F" ["d"])];
    [CObj (mkObjective 3 "H" ["e"; "f"]); CObj (mkObjective 2 "D" ["c"; "d"]); CNull];
    [CNull; CNull; CNull] ].

Definition sample_context : GeneratorContext :=
  mkContext sample_board 3 (mkInterval 1 3) (mkInterval 5 7) none
    {[ "A"; "I"; "F"; "H"; "D" ]} 5 5 0.

(** A run on 2 x 2 that finds a board, and one that cannot. *)
Definition sample_world : World := world0 [1; 2; 3]%nat.

Definition loose_sums : Interval := mkInterval 2 20.

Definition unreachable_sums : Interval := mkInterval 100 200.

(** The loop of the sixth cell of a 3 x 3 board, one dead end short of the
    limit. *)
Definition sample_loop_context : GeneratorContext :=
  mkContext (new_board 3) 3 (mkInterval 1 3) unreachable_sums none ∅ 6 6 99.

Definition objective_A : Objective := mkObjective 1 "A" ["a"].

Definition objective_B : Objective := mkObjective 1 "B" ["a"; "b"].

(** Nine items over three tiers with disjoint one-letter tags. *)
Definition nine_items : list (list RawObjective) :=
  [ [];
    [ mkRaw "A" ["a"]; mkRaw "B" ["b"]; mkRaw "C" ["c"] ];
    [ mkRaw "D" ["d"]; mkRaw "E" ["e"]; mkRaw "F" ["f"] ];
    [ mkRaw "G" ["g"]; mkRaw "H" ["h"]; mkRaw "I" ["i"] ] ].

(** Whether a run found a board, and what it logged (latest first). *)
Definition run_console (r : outcome (BoardOrError * World)) : option (bool * list LogLine) :=
  match r with
  | Returned (IsBoard _, w) => Some (true, console w)
  | Returned (IsError _, w) => Some (false, console w)
  | _ => None
  end.

(** The names on a returned board, [None] for an [Error]. *)
Definition board_names (r : outcome (BoardOrError * World)) : option (list (list string)) :=
  match r with
  | Returned (IsBoard b, _) => Some (map (map (fun c => String.concat "" (cell_names c))) b)
  | _ => None
  end.

(** ** More of the program *)

(** [Interval.randomInt]: the draw is [Math.floor(Math.random() * (max + 1 - min))]. *)
Definition randomInt (this : Interval) (orElse : Z) (w : World) : Z * World :=
  if max this <? min this then (orElse, w)
  else
    let '(r, w) := next_random w in
    (Z.of_nat r mod (max this + 1 - min this), w).

(** [bingo_pool.reduce((acc, obj) => Math.min(acc, obj.tier), Number.MAX_SAFE_INTEGER)] *)
Definition MIN_TIER (bingo_pool : list Objective) : Z :=
  fold_left (fun acc obj => Z.min acc (tier obj)) bingo_pool Interval.MAX_SAFE_INTEGER.

(** [bingo_pool.reduce((acc, obj) => Math.max(acc, obj.tier), -1)] *)
Definition MAX_TIER (bingo_pool : list Objective) : Z :=
  fold_left (fun acc obj => Z.max acc (tier obj)) bingo_pool (-1).


(** A completion of [sample_board]. *)
Definition sample_completion : Board :=
  [ [CObj (mkObjective 1 "A" ["a"]); CObj (mkObjective 3 "I" ["g"]);
     CObj (mkObjective 2 "F" ["d"])];
    [CObj (mkObjective 3 "H" ["e"; "f"]); CObj (mkObjective 2 "D" ["c"; "d"]);
     CObj (mkObjective 1 "B" ["a"; "b"])];
    [CObj (mkObjective 1 "C" ["c"]); CObj (mkObjective 2 "E" ["d"; "e"]);
     CObj (mkObjective 3 "G" ["e"])] ].


(** Every objective on the board is a catalog item. *)
Definition from_catalog (bingo_pool : list Objective) (c : GeneratorContext) : Prop :=
  ∀ rc o, cell_at (board c) rc = CObj o → o ∈ bingo_pool.

(** The row-major position of a cell. *)
Definition position (n : nat) (rc : nat * nat) : nat := (rc.1 * n + rc.2)%nat.

(** Every objective satisfies the policy against the tag list of every
    objective placed before it on a common line. *)
Definition tags_respected (c : GeneratorContext) : Prop :=
  ∀ p q op oq,
    cell_at (board c) p = CObj op → cell_at (board c) q = CObj oq →
    (position (size c) p < position (size c) q)%nat →
    shares_line (size c) q p = true →
    satisfies_policy (type_exclusivity c) [types op] oq.

(** The objective in a cell (a blank one where there is none). *)
Definition objective_at (b : Board) (rc : nat * nat) : Objective :=
  match cell_at b rc with
  | CObj o => o
  | _ => mkObjective 0 EmptyString []
  end.


(** ** Writing the board ([save_board_json]) *)

(** The characters the text is built from. *)
Definition newline : string := String (Ascii.ascii_of_nat 10) EmptyString.
Definition quote : string := String (Ascii.ascii_of_nat 34) EmptyString.

(** [cell.name]: a [TypeError] on [null] and [undefined]. *)
Definition cell_name (cell : Cell) : option string :=
  match cell with
  | CObj o => Some (name o)
  | _ => None
  end.

(** The template [     { "name": "${cell.name}" }]. *)
Definition json_record (s : string) : string :=
  String.concat EmptyString
    ["     { "; quote; "name"; quote; ": "; quote; s; quote; " }"].

(** [save_board_json] up to the write; the result is the text handed to
    [fs.writeFileSync("out/bingo.json", txt)] (see [save_board_json_file]).  [board[0].length] throws on
    the empty board, [expect] throws on a board that is not square, and
    [cell.name] throws on [null] and on [undefined] (a cell past the end
    of a short row). *)
Definition save_board_json (board : Board) : outcome string :=
  match board !! 0%nat with
  | None => Threw
  | Some board0 =>
      if decide (length board = length board0) then
        match mapM (fun row_idx =>
                 mapM (fun col_idx => board_get board col_idx row_idx)
                   (seq 0 (length board0)))
                (seq 0 (length board)) with
        | None => Threw
        | Some transposed =>
            match mapM cell_name (concat transposed) with
            | None => Threw
            | Some names =>
                Returned
                  (String.concat EmptyString
                     ["["; newline;
                      String.concat (String.append "," newline) (map json_record names);
                      newline; "]"; newline])
            end
        end
      else Threw
  end.

(** The names of a board column by column. *)
Definition column_major_names (b : Board) (n : nat) : list string :=
  flat_map (fun c => map (fun r => name (objective_at b (r, c))) (seq 0 n)) (seq 0 n).


(** ** The progress log *)

(** The lines [Cell d / total]. *)
Definition is_progress (line : LogLine) : bool :=
  match line with
  | LogCell _ _ => true
  | LogTooMuchBacktracking => false
  end.

(** The lines [Cell k / n*n], ..., [Cell 1 / n*n] (the console is kept
    latest first). *)
Definition progress_lines (n k : nat) : list LogLine :=
  map (fun d => LogCell d (n * n)) (rev (seq 1 k)).

(** Since the console read [base], the progress lines written count from
    1 to the depth record. *)
Definition logged (base : list LogLine) (c : GeneratorContext) (w : World) : Prop :=
  ∃ new, console w = new ++ base ∧
         List.filter is_progress new = progress_lines (size c) (depth_record c).

Record log_inv (base : list LogLine) (c : GeneratorContext) (w : World) : Prop := {
  log_depth : (depth c ≤ size c * size c)%nat;
  log_next : (depth c ≤ S (depth_record c))%nat;
  log_record : (depth_record c ≤ size c * size c)%nat;
  log_lines : logged base c w
}.

Definition log_post (base : list LogLine) (c : GeneratorContext) (r : bool)
    (c' : GeneratorContext) (w' : World) : Prop :=
  size c' = size c ∧ (depth_record c ≤ depth_record c')%nat ∧
  (depth_record c' ≤ size c * size c)%nat ∧ logged base c' w' ∧
  (r = true → depth_record c' = (size c * size c)%nat).

(** ** Numbers as the program holds them

    A JavaScript number is a double.  Every integer of magnitude up to
    [2 ^ 53] is a double, and sums and differences in that range are
    exact.  A larger result is rounded to the nearest double: a multiple
    of a power of two by a factor of 53 bits, a tie going to the even
    factor.  (A result of magnitude [2 ^ 1024] or more is an infinity in
    a double; here it stays a large integer, which compares the same way
    with every value the statements below are about.) *)

Module Double.

(** The multiple of [u] nearest to [x], a tie going to the even factor. *)
Definition nearest_multiple (x u : Z) : Z :=
  let q := x / u in
  let r := x mod u in
  if 2 * r <? u then q * u
  else if u <? 2 * r then (q + 1) * u
  else if Z.even q then q * u else (q + 1) * u.

(** The double nearest to an integer [x >= 0]. *)
Definition nearest (x : Z) : Z :=
  if x <=? 2 ^ 53 then x else nearest_multiple x (2 ^ (Z.log2 x - 52)).

(** The double nearest to an integer. *)
Definition fl (z : Z) : Z :=
  if z <? 0 then - nearest (- z) else nearest z.

(** [x + y] and [x - y] on numbers. *)
Definition plus (x y : Z) : Z := fl (x + y).

Definition minus (x y : Z) : Z := fl (x - y).

(** The integers all of whose neighbours are doubles. *)
Definition exact (z : Z) : Prop := Z.abs z ≤ 2 ^ 53.

Definition exact_interval (itv : Interval) : Prop := exact (min itv) ∧ exact (max itv).

Global Instance exact_dec (z : Z) : Decision (exact z).
Proof. unfold exact. apply _. Defined.

Global Instance exact_interval_dec (itv : Interval) : Decision (exact_interval itv).
Proof. unfold exact_interval. apply _. Defined.

(** *** The [Interval] methods on objects

    [add] and [sub] update the receiver field by field and read the
    argument in between, so it matters whether the argument is the
    receiver itself. *)

Inductive Argument :=
| Receiver
| Another (other : Interval).

(** The argument's fields, given the receiver's present ones. *)
Definition read (this : Interval) (other : Argument) : Interval :=
  match other with
  | Receiver => this
  | Another other => other
  end.

(** [this.min += x; this.max += x; return this] *)
Definition addValue (this : Interval) (x : Z) : Interval :=
  mkInterval (plus (min this) x) (plus (max this) x).

(** [this.min += other.min; this.max += other.max; return this] *)
Definition add (this : Interval) (other : Argument) : Interval :=
  let this := mkInterval (plus (min this) (min (read this other))) (max this) in
  mkInterval (min this) (plus (max this) (max (read this other))).

(** [this.min -= x; this.max -= x; return this] *)
Definition subValue (this : Interval) (x : Z) : Interval :=
  mkInterval (minus (min this) x) (minus (max this) x).

(** [this.min -= other.max; this.max -= other.min; return this] *)
Definition sub (this : Interval) (other : Argument) : Interval :=
  let this := mkInterval (minus (min this) (max (read this other))) (max this) in
  mkInterval (min this) (minus (max this) (min (read this other))).

(** *** [count_bingo_constraints] on doubles

    The receiver of every [sub] is a clone of [bingo_difficulty], its
    argument is [objective_difficulty] or a fresh [Interval.valueOf]: never
    the receiver. *)

Definition scan_cell (objective_difficulty : Interval) (cell : Cell)
    (acc : Interval * list (list string)) : option (Interval * list (list string)) :=
  match cell with
  | CNull => Some (sub acc.1 (Another objective_difficulty), acc.2)
  | CObj o => Some (sub acc.1 (Another (Interval.valueOf (tier o))), acc.2 ++ [types o])
  | CUndefined => None
  end.

Fixpoint scan_line (board : Board) (objective_difficulty : Interval)
    (coord : nat → nat * nat) (skip : nat) (indices : list nat)
    (acc : Interval * list (list string)) : option (Interval * list (list string)) :=
  match indices with
  | [] => Some acc
  | i :: rest =>
      if decide (i = skip) then scan_line board objective_difficulty coord skip rest acc
      else
        match board_get board (coord i).1 (coord i).2 with
        | None => None
        | Some cell =>
            match scan_cell objective_difficulty cell acc with
            | None => None
            | Some acc' => scan_line board objective_difficulty coord skip rest acc'
            end
        end
  end.

Definition count_bingo_constraints (context : GeneratorContext) (row col : nat)
  : option Constraints :=
  let board := board context in
  let size := size context in
  let objective_difficulty := objective_difficulty context in
  let bingo_difficulty := bingo_difficulty context in
  let idx := seq 0 size in
  match scan_line board objective_difficulty (fun i => (row, i)) col idx
          (Interval.clone bingo_difficulty, []) with
  | None => None
  | Some (i0, types0) =>
  match scan_line board objective_difficulty (fun i => (i, col)) row idx
          (Interval.clone bingo_difficulty, types0) with
  | None => None
  | Some (i1, types1) =>
  match (if decide (row = col)
         then match scan_line board objective_difficulty (fun i => (i, i)) row idx
                      (Interval.clone bingo_difficulty, types1) with
              | None => None
              | Some (i2, types2) => Some (Some i2, types2)
              end
         else Some (None, types1)) with
  | None => None
  | Some (i2, types2) =>
  match (if decide (Z.of_nat row + Z.of_nat col = Z.of_nat size - 1)
         then match scan_line board objective_difficulty
                      (fun i => (i, (size - 1 - i)%nat)) row idx
                      (Interval.clone bingo_difficulty, types2) with
              | None => None
              | Some (i3, types3) => Some (Some i3, types3)
              end
         else Some (None, types2)) with
  | None => None
  | Some (i3, bingo_types) =>
      let bingo_tier_interval :=
        fold_left Interval.intersection (non_null [Some i0; Some i1; i2; i3])
          objective_difficulty in
      Some (mkConstraints bingo_tier_interval bingo_types)
  end end end end.

(** What is left of [bingo_difficulty] along a line, and the interval
    for the cell, with every difference a double. *)
Definition remaining_interval (b : Board) (n : nat)
    (objective_difficulty bingo_difficulty : Interval)
    (target : nat * nat) (line : nat → nat * nat) : Interval :=
  fold_left (fun itv rc => sub itv (Another (contribution objective_difficulty (cell_at b rc))))
    (others n line target) bingo_difficulty.

Definition admissible_interval (b : Board) (n : nat)
    (objective_difficulty bingo_difficulty : Interval) (row col : nat) : Interval :=
  fold_left Interval.intersection
    (map (remaining_interval b n objective_difficulty bingo_difficulty (row, col))
       (lines_through n row col))
    objective_difficulty.

End Double.

(** The intervals obtained on the way when the contributions are taken
    from [acc] one after the other, in exact arithmetic. *)
Fixpoint running_differences (contributions : list Interval) (acc : Interval)
  : list Interval :=
  match contributions with
  | [] => []
  | c :: rest => Interval.sub acc c :: running_differences rest (Interval.sub acc c)
  end.

(** No difference computed for the cell leaves the range in which
    doubles are exact. *)
Definition differences_exact (b : Board) (n : nat)
    (objective_difficulty bingo_difficulty : Interval) (row col : nat) : Prop :=
  Forall (fun line =>
            Forall Double.exact_interval
              (running_differences
                 (map (fun rc => contribution objective_difficulty (cell_at b rc))
                    (others n line (row, col)))
                 bingo_difficulty))
    (lines_through n row col).



(** [save_board_json] to its end: the text, then
    [fs.writeFileSync("out/bingo.json", txt)].  The write is Node's; it is
    a parameter here, with the state of the disk it works on. *)
Section Writing.

Variable Disk : Type.
Variable writeFileSync : string → string → Disk → outcome Disk.

Definition save_board_json_file (board : Board) (disk : Disk) : outcome Disk :=
  match save_board_json board with
  | Returned txt => writeFileSync "out/bingo.json" txt disk
  | Threw => Threw
  | OutOfFuel => OutOfFuel
  end.

End Writing.

(** A disk as the list of its directories and the list of its files with
    their contents, and a write that fails when the directory of the path
    is missing. *)
Definition sample_write (path txt : string) (disk : list string * list (string * string))
  : outcome (list string * list (string * string)) :=
  if bool_decide ("out" ∈ disk.1) then Returned (disk.1, (path, txt) :: disk.2) else Threw.

(** * Interval arithmetic *)

Lemma contains_spec (itv : Interval) (v : Z) :
  Interval.contains itv v = true ↔ min itv ≤ v ≤ max itv.
Proof. unfold Interval.contains. rewrite andb_true_iff, !Z.leb_le. tauto. Qed.

Lemma contains_intersection (a b : Interval) (v : Z) :
  Interval.contains (Interval.intersection a b) v = true ↔
  Interval.contains a v = true ∧ Interval.contains b v = true.
Proof. rewrite !contains_spec. unfold Interval.intersection; simpl. lia. Qed.

(** * Boards: reading and writing *)

Lemma grid_row (n : nat) (b : Board) (r : nat) :
  grid n b → (r < n)%nat →
  ∃ line, b !! r = Some line ∧ length line = n ∧ Forall (fun c => c ≠ CUndefined) line.
Proof.
  intros [Hlen Hall] Hr.
  destruct (lookup_lt_is_Some_2 b r) as [line Hline]; [lia|].
  exists line. split; [done|].
  rewrite Forall_forall in Hall. apply Hall. eapply list_elem_of_lookup_2; eauto.
Qed.

Lemma board_set_in_grid (n : nat) (b : Board) (r c : nat) (v : Cell) :
  grid n b → (r < n)%nat → (c < n)%nat →
  ∃ line, b !! r = Some line ∧ length line = n ∧
          board_set b r c v = Some (<[r := <[c := v]> line]> b).
Proof.
  intros Hg Hr Hc. destruct (grid_row n b r Hg Hr) as (line & Hl & Hlen & _).
  exists line. split; [done|]. split; [done|].
  unfold board_set, array_set. rewrite Hl.
  destruct (decide (c < length line)%nat); [done | lia].
Qed.

Lemma board_set_grid (n : nat) (b b' : Board) (r c : nat) (v : Cell) :
  grid n b → (r < n)%nat → (c < n)%nat → v ≠ CUndefined →
  board_set b r c v = Some b' → grid n b'.
Proof.
  intros Hg Hr Hc Hv Hset.
  destruct (board_set_in_grid n b r c v Hg Hr Hc) as (line & Hl & Hlen & Heq).
  rewrite Heq in Hset. injection Hset as <-.
  destruct (grid_row n b r Hg Hr) as (line' & Hl' & _ & Hdef).
  assert (line' = line) as -> by congruence.
  destruct Hg as [Hb Hall]. split.
  - by rewrite length_insert.
  - apply Forall_insert; [done|]. split.
    + by rewrite length_insert.
    + apply Forall_insert; done.
Qed.

Lemma cell_at_set (n : nat) (b b' : Board) (r c : nat) (v : Cell) (rc : nat * nat) :
  grid n b → (r < n)%nat → (c < n)%nat →
  board_set b r c v = Some b' →
  cell_at b' rc = if decide (rc = (r, c)) then v else cell_at b rc.
Proof.
  intros Hg Hr Hc Hset.
  destruct (board_set_in_grid n b r c v Hg Hr Hc) as (line & Hl & Hlen & Heq).
  rewrite Heq in Hset. injection Hset as <-.
  destruct rc as [r' c']. unfold cell_at, board_get; simpl.
  destruct Hg as [Hb _].
  destruct (decide (r' = r)) as [->|Hne].
  - rewrite list_lookup_insert_eq by lia. rewrite Hl. simpl.
    destruct (decide (c' = c)) as [->|Hnc].
    + rewrite list_lookup_insert_eq by lia. simpl.
      destruct (decide ((r, c) = (r, c))); [done | congruence].
    + rewrite list_lookup_insert_ne by done.
      destruct (decide ((r, c') = (r, c))); [congruence | done].
  - rewrite list_lookup_insert_ne by done.
    destruct (decide ((r', c') = (r, c))); [congruence | done].
Qed.

Lemma board_set_twice (n : nat) (b b1 : Board) (r c : nat) (v v' : Cell) :
  grid n b → (r < n)%nat → (c < n)%nat →
  board_set b r c v = Some b1 →
  board_set b1 r c v' = board_set b r c v'.
Proof.
  intros Hg Hr Hc Hset.
  destruct (board_set_in_grid n b r c v Hg Hr Hc) as (line & Hl & Hlen & Heq).
  destruct (board_set_in_grid n b r c v' Hg Hr Hc) as (line' & Hl' & _ & Heq').
  assert (line' = line) as -> by congruence.
  rewrite Heq in Hset. injection Hset as <-. rewrite Heq'.
  destruct Hg as [Hb _].
  unfold board_set, array_set.
  rewrite list_lookup_insert_eq by lia.
  rewrite length_insert.
  destruct (decide (c < length line)%nat); [|lia].
  by rewrite list_insert_insert_eq, list_insert_insert_eq.
Qed.

Lemma board_set_same (n : nat) (b : Board) (r c : nat) :
  grid n b → (r < n)%nat → (c < n)%nat →
  board_set b r c (cell_at b (r, c)) = Some b.
Proof.
  intros Hg Hr Hc.
  destruct (board_set_in_grid n b r c (cell_at b (r, c)) Hg Hr Hc) as (line & Hl & Hlen & Heq).
  rewrite Heq. f_equal.
  unfold cell_at, board_get; simpl. rewrite Hl; simpl.
  destruct (lookup_lt_is_Some_2 line c) as [x Hx]; [lia|].
  rewrite Hx; simpl.
  rewrite (list_insert_id line c x Hx). by apply list_insert_id.
Qed.

Lemma cell_at_defined (n : nat) (b : Board) (r c : nat) :
  grid n b → (r < n)%nat → (c < n)%nat →
  board_get b r c = Some (cell_at b (r, c)) ∧ cell_at b (r, c) ≠ CUndefined.
Proof.
  intros Hg Hr Hc. destruct (grid_row n b r Hg Hr) as (line & Hl & Hlen & Hdef).
  unfold cell_at, board_get; simpl. rewrite Hl; simpl. split; [done|].
  destruct (lookup_lt_is_Some_2 line c) as [x Hx]; [lia|]. rewrite Hx; simpl.
  rewrite Forall_forall in Hdef. apply Hdef. eapply list_elem_of_lookup_2; eauto.
Qed.

(** * The constraint calculator *)

Lemma clone_id (itv : Interval) : Interval.clone itv = itv.
Proof. by destruct itv. Qed.

(** One loop of [count_bingo_constraints], on a grid: the interval loses
    the contribution of every visited cell, and the types of the occupied
    ones are appended. *)
Lemma scan_line_grid (n : nat) (b : Board) (od : Interval)
    (coord : nat → nat * nat) (skip : nat) (indices : list nat)
    (acc : Interval * list (list string)) :
  grid n b →
  (∀ i, i ∈ indices → ((coord i).1 < n)%nat ∧ ((coord i).2 < n)%nat) →
  let cells := map coord (List.filter (fun i => negb (bool_decide (i = skip))) indices) in
  scan_line b od coord skip indices acc =
  Some (fold_left (fun itv rc => Interval.sub itv (contribution od (cell_at b rc))) cells acc.1,
        acc.2 ++ flat_map (fun rc => cell_types (cell_at b rc)) cells).
Proof.
  intros Hg. revert acc. induction indices as [|i rest IH]; intros acc Hin; simpl.
  - rewrite app_nil_r. by destruct acc.
  - assert (Hrest : ∀ j, j ∈ rest → ((coord j).1 < n)%nat ∧ ((coord j).2 < n)%nat).
    { intros j Hj. apply Hin. by right. }
    destruct (decide (i = skip)) as [->|Hne].
    + rewrite bool_decide_eq_true_2 by done. simpl. by apply IH.
    + rewrite bool_decide_eq_false_2 by done. simpl.
      destruct (Hin i) as [Hr Hc]; [by left|].
      destruct (cell_at_defined n b _ _ Hg Hr Hc) as [Hget Hdef].
      rewrite Hget. replace ((coord i).1, (coord i).2) with (coord i) in * by by destruct (coord i).
      destruct (cell_at b (coord i)) as [|o|] eqn:Hcell; simpl; [| |done].
      * rewrite IH by done. simpl. done.
      * rewrite IH by done. simpl. by rewrite <- app_assoc.
Qed.

Lemma others_alt (n : nat) (line : nat → nat * nat) (target : nat * nat) (skip : nat) :
  (∀ i, (i < n)%nat → line i = target ↔ i = skip) →
  map line (List.filter (fun i => negb (bool_decide (i = skip))) (seq 0 n)) =
  others n line target.
Proof.
  intros Hskip. unfold others, line_cells.
  rewrite List.filter_map_swap. f_equal.
  apply List.filter_ext_in. intros i Hi. apply in_seq in Hi.
  f_equal. apply bool_decide_ext. symmetry. apply Hskip. lia.
Qed.

Lemma others_row (n row col : nat) :
  map (fun i => (row, i)) (List.filter (fun i => negb (bool_decide (i = col))) (seq 0 n)) =
  others n (row_line row) (row, col).
Proof. apply (others_alt n (row_line row)). intros i _. unfold row_line. naive_solver. Qed.

Lemma others_col (n row col : nat) :
  map (fun i => (i, col)) (List.filter (fun i => negb (bool_decide (i = row))) (seq 0 n)) =
  others n (col_line col) (row, col).
Proof. apply (others_alt n (col_line col)). intros i _. unfold col_line. naive_solver. Qed.

Lemma others_diag (n row : nat) :
  map (fun i => (i, i)) (List.filter (fun i => negb (bool_decide (i = row))) (seq 0 n)) =
  others n diag_line (row, row).
Proof. apply (others_alt n diag_line). intros i _. unfold diag_line. naive_solver. Qed.

Lemma others_anti (n row col : nat) :
  Z.of_nat row + Z.of_nat col = Z.of_nat n - 1 →
  map (fun i => (i, (n - 1 - i)%nat)) (List.filter (fun i => negb (bool_decide (i = row))) (seq 0 n)) =
  others n (anti_line n) (row, col).
Proof.
  intros Hsum. apply (others_alt n (anti_line n)). intros i Hi. unfold anti_line.
  split; [naive_solver|]. intros ->. f_equal. lia.
Qed.

Lemma count_bingo_constraints_grid (context : GeneratorContext) (row col : nat) :
  let n := size context in
  grid n (board context) → (row < n)%nat → (col < n)%nat →
  count_bingo_constraints context row col =
  Some (mkConstraints
          (admissible_interval (board context) n (objective_difficulty context)
             (bingo_difficulty context) row col)
          (pushed_types (board context) n row col)).
Proof.
  intros n Hg Hr Hc. unfold count_bingo_constraints. fold n.
  rewrite clone_id.
  rewrite (scan_line_grid n) by (done || (intros i Hi; apply elem_of_seq in Hi; simpl; lia)).
  simpl. rewrite others_row.
  rewrite (scan_line_grid n) by (done || (intros i Hi; apply elem_of_seq in Hi; simpl; lia)).
  simpl. rewrite others_col.
  unfold admissible_interval, pushed_types, lines_through, remaining_interval.
  destruct (decide (row = col)) as [->|Hd].
  - rewrite (scan_line_grid n) by (done || (intros i Hi; apply elem_of_seq in Hi; simpl; lia)).
    simpl. rewrite others_diag.
    destruct (decide (Z.of_nat col + Z.of_nat col = Z.of_nat n - 1)) as [Ha|Ha].
    + rewrite (scan_line_grid n) by (done || (intros i Hi; apply elem_of_seq in Hi; simpl; lia)).
      simpl. rewrite (others_anti n col col) by done.
      simpl. by rewrite !app_nil_r, <- !app_assoc.
    + simpl. by rewrite !app_nil_r, <- ?app_assoc.
  - destruct (decide (Z.of_nat row + Z.of_nat col = Z.of_nat n - 1)) as [Ha|Ha].
    + rewrite (scan_line_grid n) by (done || (intros i Hi; apply elem_of_seq in Hi; simpl; lia)).
      simpl. rewrite (others_anti n row col) by done.
      simpl. by rewrite !app_nil_r, <- ?app_assoc.
    + simpl. by rewrite !app_nil_r, <- ?app_assoc.
Qed.

(** ** The cells that share a line with the target *)

Lemma elem_of_List_filter {A : Type} (f : A → bool) (l : list A) (x : A) :
  x ∈ List.filter f l ↔ x ∈ l ∧ f x = true.
Proof. rewrite !list_elem_of_In. apply List.filter_In. Qed.

Lemma NoDup_List_filter {A : Type} (f : A → bool) (l : list A) :
  NoDup l → NoDup (List.filter f l).
Proof. rewrite !NoDup_ListNoDup. apply List.NoDup_filter. Qed.

Lemma elem_of_flat_map {A B : Type} (f : A → list B) (l : list A) (y : B) :
  y ∈ flat_map f l ↔ ∃ x, x ∈ l ∧ y ∈ f x.
Proof.
  rewrite list_elem_of_In, in_flat_map.
  split; intros (x & Hx & Hy); exists x; by rewrite ?list_elem_of_In in *.
Qed.

Lemma flat_map_flat_map {A B C : Type} (f : B → list C) (g : A → list B) (l : list A) :
  flat_map f (flat_map g l) = flat_map (fun x => flat_map f (g x)) l.
Proof.
  induction l as [|x l IH]; simpl; [done|]. by rewrite flat_map_app, IH.
Qed.

Lemma elem_of_line_cells (n : nat) (line : nat → nat * nat) (rc : nat * nat) :
  rc ∈ line_cells n line ↔ ∃ i, (i < n)%nat ∧ rc = line i.
Proof.
  unfold line_cells. change (map line (seq 0 n)) with (line <$> seq 0 n).
  rewrite list_elem_of_fmap. split.
  - intros (i & -> & Hi). apply elem_of_seq in Hi. exists i. split; [lia | done].
  - intros (i & Hi & ->). exists i. split; [done|]. apply elem_of_seq. lia.
Qed.

Lemma elem_of_others (n : nat) (line : nat → nat * nat) (target rc : nat * nat) :
  rc ∈ others n line target ↔ rc ≠ target ∧ ∃ i, (i < n)%nat ∧ rc = line i.
Proof.
  unfold others. rewrite elem_of_List_filter, elem_of_line_cells.
  rewrite negb_true_iff, bool_decide_eq_false. tauto.
Qed.

Lemma NoDup_line_cells (n : nat) (line : nat → nat * nat) :
  (∀ i j, line i = line j → i = j) → NoDup (line_cells n line).
Proof.
  intros Hinj. unfold line_cells. change (map line (seq 0 n)) with (line <$> seq 0 n).
  apply NoDup_fmap_2_strong; [|apply NoDup_seq]. intros i j _ _. apply Hinj.
Qed.

Lemma line_inj (n : nat) (line : nat → nat * nat) :
  line ∈ all_lines n → ∀ i j, line i = line j → i = j.
Proof.
  unfold all_lines. rewrite !elem_of_app.
  change (map row_line (seq 0 n)) with (row_line <$> seq 0 n).
  change (map col_line (seq 0 n)) with (col_line <$> seq 0 n).
  rewrite !list_elem_of_fmap, !elem_of_cons, elem_of_nil.
  intros [(r & -> & _)|[(c & -> & _)|[->|[->|[]]]]] i j;
    unfold row_line, col_line, diag_line, anti_line; congruence.
Qed.

Lemma lines_through_all (n row col : nat) (line : nat → nat * nat) :
  (row < n)%nat → (col < n)%nat →
  line ∈ lines_through n row col → line ∈ all_lines n.
Proof.
  intros Hr Hc. unfold lines_through, all_lines.
  change (map row_line (seq 0 n)) with (row_line <$> seq 0 n).
  change (map col_line (seq 0 n)) with (col_line <$> seq 0 n).
  rewrite !elem_of_app, !list_elem_of_fmap, !elem_of_cons.
  intros [[->|[->|H]]|[H|H]].
  - left. exists row. split; [done|]. apply elem_of_seq. lia.
  - right; left. exists col. split; [done|]. apply elem_of_seq. lia.
  - by apply elem_of_nil in H.
  - destruct (decide (row = col)); [|by apply elem_of_nil in H].
    apply list_elem_of_singleton in H as ->. right; right. by left.
  - destruct (decide (Z.of_nat row + Z.of_nat col = Z.of_nat n - 1)); [|by apply elem_of_nil in H].
    apply list_elem_of_singleton in H as ->. right; right. right. by left.
Qed.

Lemma elem_of_grid_cells (n : nat) (rc : nat * nat) :
  rc ∈ grid_cells n ↔ (rc.1 < n)%nat ∧ (rc.2 < n)%nat.
Proof.
  unfold grid_cells. rewrite elem_of_flat_map. split.
  - intros (r & Hr & Hrc). apply elem_of_seq in Hr.
    change (rc ∈ (fun c => (r, c)) <$> seq 0 n) in Hrc.
    apply list_elem_of_fmap in Hrc as (c & -> & Hc). apply elem_of_seq in Hc. simpl. lia.
  - intros [Hr Hc]. exists rc.1. split; [apply elem_of_seq; lia|].
    change (rc ∈ (fun c => (rc.1, c)) <$> seq 0 n).
    apply list_elem_of_fmap. exists rc.2. split; [by destruct rc|]. apply elem_of_seq. lia.
Qed.

Lemma NoDup_product (rows cols : list nat) :
  NoDup rows → NoDup cols →
  NoDup (flat_map (fun r => map (fun c => (r, c)) cols) rows).
Proof.
  intros Hrows Hcols. induction Hrows as [|r rows Hr Hnd IH]; simpl; [constructor|].
  apply NoDup_app. split; [|split; [|done]].
  - change (NoDup ((fun c => (r, c)) <$> cols)).
    apply NoDup_fmap_2_strong; [|done]. intros x y _ _. congruence.
  - intros rc Hrc. change (rc ∈ (fun c => (r, c)) <$> cols) in Hrc.
    apply list_elem_of_fmap in Hrc as (c & -> & _).
    rewrite elem_of_flat_map. intros (r' & Hr' & Hin).
    change ((r, c) ∈ (fun c => (r', c)) <$> cols) in Hin.
    apply list_elem_of_fmap in Hin as (c' & Heq & _).
    injection Heq as -> ->. done.
Qed.

Lemma NoDup_grid_cells (n : nat) : NoDup (grid_cells n).
Proof. apply NoDup_product; apply NoDup_seq. Qed.

Lemma NoDup_others (n : nat) (line : nat → nat * nat) (target : nat * nat) :
  line ∈ all_lines n → NoDup (others n line target).
Proof.
  intros Hl. apply NoDup_List_filter, NoDup_line_cells. by apply (line_inj n).
Qed.

Lemma elem_of_visited_cells (n row col : nat) (rc : nat * nat) :
  (row < n)%nat → (col < n)%nat →
  rc ∈ visited_cells n row col ↔
  ((rc.1 < n)%nat ∧ (rc.2 < n)%nat) ∧ rc ≠ (row, col) ∧ shares_line n (row, col) rc = true.
Proof.
  intros Hr Hc. unfold visited_cells, shares_line. rewrite elem_of_flat_map.
  rewrite !orb_true_iff, !andb_true_iff, !bool_decide_eq_true. simpl.
  destruct rc as [r c]; simpl. split.
  - intros (line & Hline & Hin). apply elem_of_others in Hin as (Hne & i & Hi & Heq).
    split; [|split; [done|]];
    unfold lines_through in Hline; rewrite !elem_of_app, !elem_of_cons in Hline;
    destruct Hline as [[->|[->|H]]|[H|H]];
    try (by apply elem_of_nil in H);
    try (destruct (decide (row = col)); [|by apply elem_of_nil in H];
         apply list_elem_of_singleton in H as ->);
    try (destruct (decide (Z.of_nat row + Z.of_nat col = Z.of_nat n - 1));
         [|by apply elem_of_nil in H];
         apply list_elem_of_singleton in H as ->);
    unfold row_line, col_line, diag_line, anti_line in Heq; injection Heq as -> ->;
    first [lia | tauto | (right; split; [done | lia])].
  - intros ((Hr' & Hc') & Hne & Hsh).
    destruct Hsh as [[[->| ->]|[Hd ->]]|[Ha Ha']].
    + exists (row_line row). split; [unfold lines_through; set_solver|].
      apply elem_of_others. split; [done|]. by exists c.
    + exists (col_line col). split; [unfold lines_through; set_solver|].
      apply elem_of_others. split; [done|]. by exists r.
    + exists diag_line. split.
      * unfold lines_through. rewrite decide_True by done. set_solver.
      * apply elem_of_others. split; [done|]. by exists c.
    + exists (anti_line n). split.
      * unfold lines_through. rewrite (decide_True _ _ Ha). set_solver.
      * apply elem_of_others. split; [done|]. exists r. split; [done|].
        unfold anti_line. f_equal. lia.
Qed.

Lemma NoDup_visited_cells (n row col : nat) :
  (row < n)%nat → (col < n)%nat → NoDup (visited_cells n row col).
Proof.
  intros Hr Hc. unfold visited_cells.
  assert (Hall : ∀ line, line ∈ lines_through n row col → line ∈ all_lines n).
  { intros line. by apply lines_through_all. }
  assert (Hsep : ∀ rc, rc ∈ others n (row_line row) (row, col) →
                 rc ∉ others n (col_line col) (row, col)).
  { intros rc. rewrite !elem_of_others. unfold row_line, col_line.
    intros (Hne & i & _ & ->) (_ & j & _ & Heq). congruence. }
  unfold lines_through in *.
  destruct (decide (row = col)) as [Hd|Hd];
    destruct (decide (Z.of_nat row + Z.of_nat col = Z.of_nat n - 1)) as [Ha|Ha];
    simpl in *; rewrite ?app_nil_r;
    repeat (apply NoDup_app; split; [|split]);
    try (apply NoDup_others, Hall; set_solver);
    intros rc; rewrite ?elem_of_app, !elem_of_others;
    unfold row_line, col_line, diag_line, anti_line;
    intros (Hne & i & Hi & ->); simpl;
    intros H; repeat destruct H as [H|H];
    destruct H as (_ & j & Hj & Heq); injection Heq as ? ?; subst;
    apply Hne; f_equal; lia.
Qed.

(** Claim C2's second half: the tag lists pushed are those of the occupied
    cells sharing a line with the target, each once. *)
Lemma pushed_types_forbidden (b : Board) (n row col : nat) :
  (row < n)%nat → (col < n)%nat →
  pushed_types b n row col ≡ₚ forbidden_tag_sets b n row col.
Proof.
  intros Hr Hc. unfold pushed_types, forbidden_tag_sets.
  rewrite <- (flat_map_flat_map (fun rc => cell_types (cell_at b rc))
                (fun line => others n line (row, col))).
  apply Permutation_flat_map. fold (visited_cells n row col).
  apply NoDup_Permutation.
  - by apply NoDup_visited_cells.
  - apply NoDup_List_filter, NoDup_grid_cells.
  - intros rc. rewrite elem_of_visited_cells by done.
    rewrite elem_of_List_filter, elem_of_grid_cells, andb_true_iff, negb_true_iff,
      bool_decide_eq_false. tauto.
Qed.

(** ** What the admissible interval guarantees *)

Lemma contains_fold_intersection (l : list Interval) (acc : Interval) (x : Z) :
  Interval.contains (fold_left Interval.intersection l acc) x = true ↔
  Interval.contains acc x = true ∧ ∀ itv, itv ∈ l → Interval.contains itv x = true.
Proof.
  revert acc. induction l as [|itv l IH]; intros acc; simpl.
  - split; [intros H; split; [done|] | tauto]. intros itv Hin. by apply elem_of_nil in Hin.
  - rewrite IH, contains_intersection. split.
    + intros [[Ha Hi] Hl]. split; [done|]. intros itv' Hin.
      apply elem_of_cons in Hin as [->|Hin]; auto.
    + intros [Ha Hl]. split; [split; [done|] |].
      * apply Hl. by left.
      * intros itv' Hin. apply Hl. by right.
Qed.

Lemma contains_admissible (b : Board) (n : nat) (od bd : Interval) (row col : nat) (x : Z) :
  Interval.contains (admissible_interval b n od bd row col) x = true ↔
  Interval.contains od x = true ∧
  ∀ line, line ∈ lines_through n row col →
          Interval.contains (remaining_interval b n od bd (row, col) line) x = true.
Proof.
  unfold admissible_interval. rewrite contains_fold_intersection.
  change (map ?f ?l) with (f <$> l).
  split; intros [Hod Hl]; (split; [done|]).
  - intros line Hline. apply Hl. apply list_elem_of_fmap. by exists line.
  - intros itv Hin. apply list_elem_of_fmap in Hin as (line & -> & Hline). by apply Hl.
Qed.

Lemma fold_sub_occupied (b : Board) (od : Interval) (cells : list (nat * nat)) (acc : Interval) :
  (∀ rc, rc ∈ cells → ∃ o, cell_at b rc = CObj o) →
  fold_left (fun itv rc => Interval.sub itv (contribution od (cell_at b rc))) cells acc =
  mkInterval (min acc - sumZ (map (tier_at b) cells)) (max acc - sumZ (map (tier_at b) cells)).
Proof.
  revert acc. induction cells as [|rc cells IH]; intros acc Hocc; simpl.
  - destruct acc; unfold sumZ; simpl. f_equal; lia.
  - destruct (Hocc rc) as [o Ho]; [by left|].
    assert (Ht : tier_at b rc = tier o) by (unfold tier_at; by rewrite Ho).
    rewrite IH by (intros rc' Hin; apply Hocc; by right).
    rewrite Ho. unfold sumZ; simpl. fold (sumZ (map (tier_at b) cells)).
    rewrite Ht. f_equal; lia.
Qed.

Lemma sumZ_split {A : Type} `{EqDecision A} (f f' : A → Z) (t : A) (l : list A) :
  NoDup l → t ∈ l → (∀ x, x ≠ t → f' x = f x) →
  sumZ (map f' l) =
  f' t + sumZ (map f (List.filter (fun x => negb (bool_decide (x = t))) l)).
Proof.
  intros Hnd Hin Hoff. induction Hnd as [|x l Hx Hnd IH]; [by apply elem_of_nil in Hin|].
  simpl. destruct (decide (x = t)) as [->|Hne].
  - rewrite bool_decide_eq_true_2 by done. simpl. f_equal.
    f_equal. clear IH Hin. induction l as [|y l IHl]; simpl; [done|].
    apply not_elem_of_cons in Hx as [Hy Hx]. inversion Hnd; subst.
    rewrite bool_decide_eq_false_2 by done. simpl. rewrite Hoff by done. f_equal. auto.
  - rewrite bool_decide_eq_false_2 by done. simpl.
    apply elem_of_cons in Hin as [->|Hin]; [done|].
    rewrite IH by done. rewrite Hoff by done. lia.
Qed.

Lemma sumZ_ext {A : Type} (f f' : A → Z) (l : list A) :
  (∀ x, x ∈ l → f' x = f x) → sumZ (map f' l) = sumZ (map f l).
Proof.
  induction l as [|x l IH]; intros H; simpl; [done|].
  rewrite H by (by left). rewrite IH; [done|]. intros y Hy. apply H. by right.
Qed.

(** ** The names on a board *)

Lemma elem_of_names_on (b : Board) (s : string) :
  s ∈ names_on b ↔ ∃ rc o, cell_at b rc = CObj o ∧ name o = s.
Proof.
  unfold names_on. rewrite elem_of_list_to_set, elem_of_flat_map. split.
  - intros (line & Hline & Hs). apply elem_of_flat_map in Hs as (c & Hc & Hs).
    apply list_elem_of_lookup in Hline as [r Hr]. apply list_elem_of_lookup in Hc as [i Hi].
    destruct c as [|o|]; simpl in Hs; try by apply elem_of_nil in Hs.
    apply list_elem_of_singleton in Hs as ->.
    exists (r, i), o. split; [|done]. unfold cell_at, board_get; simpl. by rewrite Hr, Hi.
  - intros ([r i] & o & Hcell & <-). unfold cell_at, board_get in Hcell; simpl in Hcell.
    destruct (b !! r) as [line|] eqn:Hr; [|done]. simpl in Hcell.
    destruct (line !! i) as [c|] eqn:Hi; [|done]. simpl in Hcell. subst c.
    exists line. split; [by eapply list_elem_of_lookup_2|].
    apply elem_of_flat_map. exists (CObj o). split; [by eapply list_elem_of_lookup_2|].
    simpl. by left.
Qed.

Lemma names_on_set (n : nat) (b b' : Board) (r c : nat) (o : Objective) :
  grid n b → (r < n)%nat → (c < n)%nat → cell_at b (r, c) = CNull →
  board_set b r c (CObj o) = Some b' →
  names_on b' = {[ name o ]} ∪ names_on b.
Proof.
  intros Hg Hr Hc Hnull Hset. apply set_eq. intros s.
  rewrite elem_of_union, elem_of_singleton, !elem_of_names_on. split.
  - intros (rc & o' & Hcell & <-).
    rewrite (cell_at_set n b b' r c (CObj o) rc Hg Hr Hc Hset) in Hcell.
    destruct (decide (rc = (r, c))); [left; congruence | right; eauto].
  - intros [->|(rc & o' & Hcell & <-)].
    + exists (r, c), o. split; [|done].
      rewrite (cell_at_set n b b' r c (CObj o) _ Hg Hr Hc Hset). by rewrite decide_True.
    + exists rc, o'. split; [|done].
      rewrite (cell_at_set n b b' r c (CObj o) rc Hg Hr Hc Hset).
      destruct (decide (rc = (r, c))) as [->|]; [congruence | done].
Qed.

Lemma add_delete_fresh (s : string) (names : gset string) :
  s ∉ names → ({[ s ]} ∪ names) ∖ {[ s ]} = names.
Proof.
  intros Hfresh. apply set_eq. intros x.
  rewrite elem_of_difference, elem_of_union, !elem_of_singleton. split.
  - intros [[->|Hx] Hne]; done.
  - intros Hx. split; [by right|]. by intros ->.
Qed.

(** ** Row-major positions *)

Lemma position_of_depth (n d : nat) :
  (d < n * n)%nat →
  (d / n < n)%nat ∧ (d mod n < n)%nat ∧ (d / n * n + d mod n = d)%nat.
Proof.
  intros Hd. assert (Hn : (n ≠ 0)%nat) by lia.
  pose proof (Nat.div_mod_eq d n). pose proof (Nat.mod_upper_bound d n Hn).
  split; [apply Nat.Div0.div_lt_upper_bound; lia|]. split; lia.
Qed.

Lemma position_unique (n r c r' c' : nat) :
  (c < n)%nat → (c' < n)%nat → (r * n + c = r' * n + c')%nat → r = r' ∧ c = c'.
Proof.
  intros Hc Hc' Heq.
  assert (r = r') as ->; [|lia].
  destruct (Nat.lt_trichotomy r r') as [Hlt|[->|Hlt]]; [|done|].
  - pose proof (Nat.mul_le_mono_r (S r) r' n Hlt). lia.
  - pose proof (Nat.mul_le_mono_r (S r') r n Hlt). lia.
Qed.

(** ** Placing a candidate keeps the invariant *)

Lemma through_target (n row col : nat) (line : nat → nat * nat) :
  (row < n)%nat → (col < n)%nat → line ∈ all_lines n →
  (row, col) ∈ line_cells n line → line ∈ lines_through n row col.
Proof.
  intros Hr Hc Hall Hin. apply elem_of_line_cells in Hin as (i & Hi & Heq).
  unfold all_lines in Hall. rewrite !elem_of_app in Hall.
  change (map row_line (seq 0 n)) with (row_line <$> seq 0 n) in Hall.
  change (map col_line (seq 0 n)) with (col_line <$> seq 0 n) in Hall.
  rewrite !list_elem_of_fmap, !elem_of_cons, elem_of_nil in Hall.
  unfold lines_through.
  destruct Hall as [(r & -> & _)|[(c & -> & _)|[->|[->|[]]]]];
    unfold row_line, col_line, diag_line, anti_line in Heq; injection Heq as -> ->.
  - set_solver.
  - set_solver.
  - rewrite decide_True by done. set_solver.
  - rewrite (decide_True (P := Z.of_nat i + Z.of_nat (n - 1 - i) = Z.of_nat n - 1)) by lia.
    destruct (decide (i = (n - 1 - i)%nat)); set_solver.
Qed.

Lemma tier_at_set (n : nat) (b b' : Board) (r c : nat) (v : Cell) (rc : nat * nat) :
  grid n b → (r < n)%nat → (c < n)%nat →
  board_set b r c v = Some b' → rc ≠ (r, c) → tier_at b' rc = tier_at b rc.
Proof.
  intros Hg Hr Hc Hset Hne. unfold tier_at.
  rewrite (cell_at_set n b b' r c v rc Hg Hr Hc Hset). by rewrite decide_False.
Qed.

Lemma place_line_sum (n : nat) (b b' : Board) (od bd : Interval) (row col : nat)
    (o : Objective) (line : nat → nat * nat) :
  grid n b → (row < n)%nat → (col < n)%nat →
  board_set b row col (CObj o) = Some b' →
  Interval.contains (admissible_interval b n od bd row col) (tier o) = true →
  line ∈ all_lines n → full_line b' n line →
  (row, col) ∈ line_cells n line →
  Interval.contains bd (line_sum b' n line) = true.
Proof.
  intros Hg Hr Hc Hset Hadm Hall Hfull Hin.
  apply contains_admissible in Hadm as [_ Hlines].
  specialize (Hlines line (through_target n row col line Hr Hc Hall Hin)).
  unfold remaining_interval in Hlines.
  rewrite fold_sub_occupied in Hlines.
  - apply contains_spec in Hlines. simpl in Hlines. apply contains_spec.
    unfold line_sum.
    rewrite (sumZ_split (tier_at b) (tier_at b') (row, col)).
    + fold (others n line (row, col)).
      assert (Ht : tier_at b' (row, col) = tier o).
      { unfold tier_at. rewrite (cell_at_set n b b' row col (CObj o) _ Hg Hr Hc Hset).
        by rewrite decide_True. }
      rewrite Ht. lia.
    + apply NoDup_line_cells. by apply (line_inj n).
    + done.
    + intros rc Hne. by apply (tier_at_set n b b' row col (CObj o)).
  - intros rc Hrc. apply elem_of_others in Hrc as [Hne Hrc].
    destruct (Hfull rc) as [o' Ho']; [by apply elem_of_line_cells|].
    rewrite (cell_at_set n b b' row col (CObj o) rc Hg Hr Hc Hset) in Ho'.
    rewrite decide_False in Ho' by done. eauto.
Qed.

Lemma place_inv (b b' : Board) (n : nat) (od bd : Interval) (names : gset string)
    (d : nat) (o : Objective) :
  search_inv b n od bd names d → (d < n * n)%nat →
  board_set b (d / n) (d mod n) (CObj o) = Some b' →
  Interval.contains (admissible_interval b n od bd (d / n) (d mod n)) (tier o) = true →
  name o ∉ names →
  search_inv b' n od bd ({[ name o ]} ∪ names) (S d).
Proof.
  intros [Hg Hd Hfilled Hnull Hnames Hdistinct Htiers Hlines] Hlt Hset Hadm Hfresh.
  destruct (position_of_depth n d Hlt) as (Hr & Hc & Hpos).
  set (row := (d / n)%nat) in *. set (col := (d mod n)%nat) in *.
  assert (Hcell : ∀ rc, cell_at b' rc = if decide (rc = (row, col)) then CObj o else cell_at b rc).
  { intros rc. by apply (cell_at_set n b b' row col). }
  assert (Htarget : cell_at b (row, col) = CNull) by (apply Hnull; lia).
  split.
  - apply (board_set_grid n b b' row col (CObj o)); done.
  - lia.
  - intros r c Hr' Hc' Hidx. rewrite Hcell.
    destruct (decide ((r, c) = (row, col))); [eauto|].
    apply Hfilled; [done..|].
    destruct (decide (r * n + c = d)%nat) as [Heq|]; [|lia].
    rewrite <- Hpos in Heq. apply position_unique in Heq as [-> ->]; done.
  - intros r c Hr' Hc' Hidx. rewrite Hcell.
    destruct (decide ((r, c) = (row, col))) as [Heq|]; [|apply Hnull; lia].
    injection Heq as -> ->. lia.
  - rewrite Hnames. symmetry. by apply (names_on_set n b b' row col).
  - intros rc1 rc2 o1 o2. rewrite !Hcell.
    assert (Hnew : ∀ rc o', cell_at b rc = CObj o' → name o' ≠ name o).
    { intros rc o' Ho' Heq. apply Hfresh. rewrite Hnames. apply elem_of_names_on.
      by exists rc, o'. }
    destruct (decide (rc1 = (row, col))) as [->|]; destruct (decide (rc2 = (row, col))) as [->|];
      [done| | |by apply Hdistinct].
    + intros [= <-] Ho2 Heq. by destruct (Hnew rc2 o2 Ho2).
    + intros Ho1 [= <-] Heq. by destruct (Hnew rc1 o1 Ho1).
  - intros rc o'. rewrite Hcell. destruct (decide (rc = (row, col))); [|by apply Htiers].
    intros [= <-]. apply contains_admissible in Hadm. tauto.
  - intros line Hpos' Hall Hfull.
    destruct (decide ((row, col) ∈ line_cells n line)) as [Hin|Hout].
    + by apply (place_line_sum n b b' od bd row col o).
    + assert (Hsame : ∀ rc, rc ∈ line_cells n line → rc ≠ (row, col)) by (intros rc ? ->; done).
      unfold line_sum. rewrite (sumZ_ext (tier_at b) (tier_at b')).
      * apply Hlines; [done..|]. intros rc Hrc. destruct (Hfull rc Hrc) as [o' Ho'].
        rewrite Hcell, decide_False in Ho' by auto. eauto.
      * intros rc Hrc. apply (tier_at_set n b b' row col (CObj o)); auto.
Qed.

(** * Shuffling *)

Lemma swap_Permutation (array : list Objective) (i j : nat) : swap array i j ≡ₚ array.
Proof.
  unfold swap. destruct (array !! i) as [x|] eqn:Hi; [|done].
  destruct (array !! j) as [y|] eqn:Hj; [|done].
  pose proof (lookup_lt_Some _ _ _ Hi) as Hli. pose proof (lookup_lt_Some _ _ _ Hj) as Hlj.
  apply Permutation_inj. split; [by rewrite !length_insert|].
  exists (fun k => if decide (k = i) then j else if decide (k = j) then i else k). split.
  - intros k1 k2. repeat case_decide; congruence.
  - intros k. destruct (decide (k = j)) as [->|Hkj].
    + rewrite list_lookup_insert_eq by (by rewrite length_insert).
      repeat case_decide; congruence.
    + rewrite list_lookup_insert_ne by done.
      destruct (decide (k = i)) as [->|Hki].
      * by rewrite list_lookup_insert_eq.
      * by rewrite list_lookup_insert_ne.
Qed.

Lemma next_random_world (w : World) :
  console (next_random w).2 = console w ∧ invocations (next_random w).2 = invocations w.
Proof. unfold next_random. by destruct (random w). Qed.

Lemma shuffle_loop_spec (n : nat) (array : list Objective) (w : World) :
  (shuffle_loop n array w).1 ≡ₚ array ∧
  console (shuffle_loop n array w).2 = console w ∧
  invocations (shuffle_loop n array w).2 = invocations w.
Proof.
  revert array w. induction n as [|i IH]; intros array w; simpl; [done|].
  destruct (next_random w) as [r w1] eqn:Hr.
  destruct (next_random_world w) as [Hc Hi]. rewrite Hr in Hc, Hi. simpl in Hc, Hi.
  destruct (IH (swap array i (r mod (i + 1))) w1) as (Hp & Hc' & Hi').
  rewrite Hp, Hc', Hi'. split; [apply swap_Permutation | done].
Qed.

Lemma shuffle_array_spec (array array' : list Objective) (w w' : World) :
  shuffle_array array w = (array', w') →
  array' ≡ₚ array ∧ console w' = console w ∧ invocations w' = invocations w.
Proof.
  unfold shuffle_array. intros Heq.
  pose proof (shuffle_loop_spec (length array) array w) as H. by rewrite Heq in H.
Qed.

(** * The candidate filter *)

Lemma includes_types_spec (obj : Objective) (T : list string) :
  includes_types obj T = true ↔ superset_of obj T.
Proof.
  unfold includes_types, superset_of, types_set_has. rewrite forallb_forall.
  split; intros H t Ht.
  - eapply bool_decide_eq_true_1. apply H. by apply list_elem_of_In.
  - apply bool_decide_eq_true_2. apply H. by apply list_elem_of_In.
Qed.

Lemma excludes_types_spec (obj : Objective) (T : list string) :
  excludes_types obj T = true ↔ ¬ shares_a_tag obj T.
Proof.
  unfold excludes_types, shares_a_tag, types_set_has. rewrite forallb_forall. split.
  - intros H (t & Ht & Hin). apply list_elem_of_In in Ht. specialize (H t Ht).
    apply negb_true_iff, bool_decide_eq_false in H. done.
  - intros H t Ht. apply negb_true_iff, bool_decide_eq_false. intros Hin.
    apply H. exists t. split; [by apply list_elem_of_In | done].
Qed.

Lemma policy_test_spec (policy : TypeExclusivity) (forbidden : list (list string))
    (obj : Objective) :
  match policy with
  | none => true
  | partial => forallb (fun v => negb (includes_types obj v)) forbidden
  | strict => forallb (fun v => excludes_types obj v) forbidden
  end = true ↔ satisfies_policy policy forbidden obj.
Proof.
  destruct policy; simpl; [| |tauto]; rewrite forallb_forall; split; intros H T HT.
  - apply excludes_types_spec, H. by apply list_elem_of_In.
  - apply excludes_types_spec, H. by apply list_elem_of_In.
  - rewrite <- includes_types_spec. apply list_elem_of_In, H in HT.
    apply negb_true_iff in HT. congruence.
  - apply list_elem_of_In, H in HT. rewrite <- includes_types_spec in HT.
    apply negb_true_iff. by destruct (includes_types obj T).
Qed.

Lemma elem_of_narrow_bingo_pool (pool : list Objective) (policy : TypeExclusivity)
    (itv : Interval) (forbidden : list (list string)) (used : gset string) (obj : Objective) :
  obj ∈ narrow_bingo_pool pool policy itv forbidden used ↔
  obj ∈ pool ∧ Interval.contains itv (tier obj) = true ∧ (name obj ∉ used) ∧
  satisfies_policy policy forbidden obj.
Proof.
  rewrite <- policy_test_spec.
  destruct policy; unfold narrow_bingo_pool, strict_filter;
    rewrite elem_of_List_filter, ?andb_true_iff, negb_true_iff, bool_decide_eq_false; tauto.
Qed.

(** * The backtracking engine *)

Section Engine.

Variable bingo_pool : list Objective.

Lemma same_parameters_refl (c : GeneratorContext) : same_parameters c c.
Proof. by repeat split. Qed.

Lemma same_parameters_trans (c1 c2 c3 : GeneratorContext) :
  same_parameters c1 c2 → same_parameters c2 c3 → same_parameters c1 c3.
Proof. unfold same_parameters. intros (-> & -> & -> & ->) (-> & -> & -> & ->). done. Qed.

(** The candidate loop, given that the recursive calls behave. *)
Lemma try_candidates_spec
    (recur : GeneratorContext → World → outcome (bool * GeneratorContext * World))
    (base : GeneratorContext) :
  let n := size base in
  let row := (depth base / n)%nat in
  let col := (depth base mod n)%nat in
  context_inv base → (depth base < n * n)%nat →
  (∀ c w, entry_ok c → same_parameters base c → depth c = S (depth base) →
          helper_post c (c :: invocations w) (recur c w)) →
  ∀ pool c w,
    (∀ o, o ∈ pool →
          Interval.contains
            (admissible_interval (board base) n (objective_difficulty base)
               (bingo_difficulty base) row col) (tier o) = true ∧
          name o ∉ objective_names base) →
    loop_state base row col c → (backtracks c < BACKTRACK_LIMIT)%nat →
    ∃ exit c' w',
      try_candidates recur row col pool c w = Returned (exit, c', w') ∧
      (∃ new, invocations w' = new ++ invocations w ∧ Forall entry_ok new) ∧
      match exit with
      | ExitReturnTrue =>
          same_parameters base c' ∧ context_inv c' ∧ depth c' = (n * n)%nat
      | _ => loop_state base row col c'
      end.
Proof.
  intros n row col Hinv Hlt Hrec.
  destruct (position_of_depth n (depth base) Hlt) as (Hr & Hc & Hpos).
  pose proof (inv_grid _ _ _ _ _ _ Hinv) as Hg. fold n in Hg.
  induction pool as [|o rest IH]; intros c w Hpool Hstate Hbt.
  - simpl. exists ExitDone, c, w. split; [done|]. split; [|done].
    exists []. by split.
  - destruct Hstate as (Hpar & Hdepth & Hnames & v & Hv).
    destruct (Hpool o) as [Hadm Hfresh]; [by left|].
    destruct (board_set_in_grid n (board base) row col (CObj o) Hg Hr Hc)
      as (line & _ & _ & Hset).
    simpl. rewrite (board_set_twice n (board base) (board c) row col v (CObj o) Hg Hr Hc Hv).
    rewrite Hset. set (b1 := <[row := <[col := CObj o]> line]> (board base)) in *.
    set (c1 := with_objective_names (with_board c b1) _).
    assert (Hpar1 : same_parameters base c1) by (by destruct Hpar as (? & ? & ? & ?)).
    assert (Hinv1 : context_inv c1).
    { unfold context_inv, c1; simpl. destruct Hpar as (-> & -> & -> & _).
      rewrite Hdepth, Hnames.
      apply (place_inv (board base)); [exact Hinv | exact Hlt | exact Hset | exact Hadm | exact Hfresh]. }
    assert (Hentry1 : entry_ok c1) by (by split).
    destruct (Hrec c1 w Hentry1 Hpar1 Hdepth) as (r & c2 & w2 & -> & Hpar2 & Htrace2 & Hres).
    destruct r.
    + exists ExitReturnTrue, c2, w2. split; [done|]. split.
      { destruct Htrace2 as (new2 & Hnew2 & Hall2). exists (new2 ++ [c1]). split.
        - by rewrite Hnew2, <- app_assoc.
        - apply Forall_app. split; [done|]. by constructor. }
      destruct Hres as [Hinv2 Hd2]. split; [by eapply same_parameters_trans|]. split; [done|].
      rewrite Hd2. destruct Hpar1 as (-> & _). done.
    + destruct Hres as (Hb2 & Hd2 & Hn2).
      set (c3 := with_objective_names (with_backtracks c2 (S (backtracks c2))) _).
      assert (Hstate3 : ∀ k, loop_state base row col (with_backtracks c3 k)).
      { intros k. split; [|split; [|split]].
        - unfold c3. destruct Hpar2 as (? & ? & ? & ?), Hpar1 as (? & ? & ? & ?).
          repeat split; simpl; congruence.
        - simpl. by rewrite Hd2.
        - simpl. rewrite Hn2. unfold c1; simpl. rewrite Hnames. by apply add_delete_fresh.
        - exists (CObj o). simpl. by rewrite Hb2. }
      assert (Hstate3' : loop_state base row col c3).
      { specialize (Hstate3 (backtracks c3)). by destruct c3. }
      assert (Hrest : ∀ o', o' ∈ rest →
                Interval.contains
                  (admissible_interval (board base) n (objective_difficulty base)
                     (bingo_difficulty base) row col) (tier o') = true ∧
                name o' ∉ objective_names base).
      { intros o' Ho'. apply Hpool. by right. }
      destruct Htrace2 as (new2' & Hnew2 & Hall2').
      set (new2 := new2' ++ [c1]).
      assert (Hall2 : Forall entry_ok new2).
      { apply Forall_app. split; [done|]. by constructor. }
      replace (new2' ++ c1 :: invocations w) with (new2 ++ invocations w) in Hnew2
        by (unfold new2; by rewrite <- app_assoc).
      assert (Hcont : ∀ c4, loop_state base row col c4 → (backtracks c4 < BACKTRACK_LIMIT)%nat →
                ∃ exit c' w',
                  try_candidates recur row col rest c4 w2 = Returned (exit, c', w') ∧
                  (∃ new, invocations w' = new ++ invocations w ∧ Forall entry_ok new) ∧
                  match exit with
                  | ExitReturnTrue =>
                      same_parameters base c' ∧ context_inv c' ∧ depth c' = (n * n)%nat
                  | _ => loop_state base row col c'
                  end).
      { intros c4 Hc4 Hbt4.
        destruct (IH c4 w2 Hrest Hc4 Hbt4) as (exit & c' & w' & Heq & Htr & Hex).
        exists exit, c', w'. split; [done|]. split; [|done].
        destruct Htr as (new & Hnew & Hall). exists (new ++ new2). split.
        - by rewrite Hnew, Hnew2, app_assoc.
        - by apply Forall_app. }
      destruct (decide (5 < depth c2)%nat).
      * destruct (decide (BACKTRACK_LIMIT ≤ S (backtracks c2))%nat);
          [|apply Hcont; [done | simpl; lia]].
        eexists ExitBreak, c3, _. split; [done|]. split; [|done].
        exists new2. split; [|done].
        by destruct (decide (S (backtracks c2) = BACKTRACK_LIMIT)).
      * apply Hcont; [done|]. simpl. unfold BACKTRACK_LIMIT. lia.
Qed.

Lemma helper_body_spec
    (recur : GeneratorContext → World → outcome (bool * GeneratorContext * World))
    (base : GeneratorContext) (w : World) :
  entry_ok base →
  ((depth base < size base * size base)%nat →
   ∀ c w, entry_ok c → same_parameters base c → depth c = S (depth base) →
          helper_post c (c :: invocations w) (recur c w)) →
  helper_post base (invocations w) (helper_body bingo_pool recur base w).
Proof.
  intros [Hinv Hbt] Hrec. unfold helper_body, helper_post.
  pose proof (inv_depth _ _ _ _ _ _ Hinv) as Hle.
  destruct (decide (size base * size base ≤ depth base)%nat) as [Hfull|Hcell].
  { exists true, base, w. split; [done|]. split; [apply same_parameters_refl|].
    split; [by exists [] |]. split; [done | lia]. }
  assert (Hlt : (depth base < size base * size base)%nat) by lia.
  destruct (position_of_depth _ _ Hlt) as (Hr & Hc & Hpos).
  pose proof (inv_grid _ _ _ _ _ _ Hinv) as Hg.
  rewrite (count_bingo_constraints_grid base _ _ Hg Hr Hc). simpl.
  set (row := (depth base / size base)%nat) in *.
  set (col := (depth base mod size base)%nat) in *.
  set (pool := narrow_bingo_pool _ _ _ _ _).
  destruct (decide (length pool = 0%nat)).
  { exists false, base, w. split; [done|]. split; [apply same_parameters_refl|].
    split; [by exists [] | done]. }
  destruct (shuffle_array pool w) as [pool' w1] eqn:Hsh.
  apply shuffle_array_spec in Hsh as (Hperm & _ & Hw1).
  assert (Hnull : cell_at (board base) (row, col) = CNull).
  { apply (inv_null _ _ _ _ _ _ Hinv); [done..|]. unfold row, col. lia. }
  assert (Hsame : board_set (board base) row col CNull = Some (board base)).
  { rewrite <- Hnull. by apply (board_set_same (size base)). }
  destruct (try_candidates_spec recur base Hinv Hlt (Hrec Hlt) pool'
              (with_depth base (S (depth base))) w1)
    as (exit & c' & w' & Heq & (new & Hnew & Hall) & Hexit).
  - intros o Ho. rewrite Hperm in Ho. apply elem_of_narrow_bingo_pool in Ho. tauto.
  - split; [by repeat split|]. split; [done|]. split; [done|].
    by exists CNull.
  - exact Hbt.
  - change (try_candidates recur row col pool' (with_depth base (S (depth base))) w1
            = Returned (exit, c', w')) in Heq.
    rewrite Heq. rewrite Hw1 in Hnew.
    destruct exit; simpl.
    + destruct Hexit as (Hpar & Hinv' & Hd). exists true, c', w'. eauto 10.
    + destruct Hexit as (Hpar & Hd & Hn & v & Hv).
      rewrite (board_set_twice _ _ _ _ _ _ CNull Hg Hr Hc Hv).
      rewrite Hsame.
      eexists false, _, w'. split; [done|]. split; [done|]. split; [by exists new|].
      simpl. split; [done|]. split; [lia | done].
    + destruct Hexit as (Hpar & Hd & Hn & v & Hv).
      rewrite (board_set_twice _ _ _ _ _ _ CNull Hg Hr Hc Hv).
      rewrite Hsame.
      eexists false, _, w'. split; [done|]. split; [done|]. split; [by exists new|].
      simpl. split; [done|]. split; [lia | done].
Qed.

(** The engine started in a state satisfying the invariant, with a
    budget that covers the cells left. *)
Lemma generate_board_helper_spec (fuel : nat) (c : GeneratorContext) (w : World) :
  entry_ok c → (size c * size c - depth c < fuel)%nat →
  helper_post c (c :: invocations w) (generate_board_helper bingo_pool fuel c w).
Proof.
  revert c w. induction fuel as [|fuel IH]; intros c w Hinv Hfuel; [lia|].
  simpl.
  assert (Hbody : ∀ k w0, invocations w0 = c :: invocations w →
            helper_post c (c :: invocations w)
              (helper_body bingo_pool (generate_board_helper bingo_pool fuel)
                 (with_depth_record c k) w0)).
  { intros k w0 Hw0.
    destruct (helper_body_spec (generate_board_helper bingo_pool fuel)
                (with_depth_record c k) w0) as (r & c' & w' & Heq & Hpar & Htr & Hres).
    - exact Hinv.
    - intros Hlt c1 w1 Hinv1 Hpar1 Hd1. apply IH; [done|].
      destruct Hpar1 as (-> & _). simpl in *. lia.
    - exists r, c', w'. split; [done|]. split; [done|]. split; [|done].
      by rewrite <- Hw0. }
  destruct (decide (depth_record c < depth c)%nat).
  - by apply Hbody.
  - specialize (Hbody (depth_record c) (enter w c) eq_refl). by destruct c.
Qed.

(** ** A larger budget changes nothing *)

Lemma try_candidates_mono
    (recur recur' : GeneratorContext → World → outcome (bool * GeneratorContext * World))
    (row col : nat) :
  (∀ c w x, recur c w = Returned x → recur' c w = Returned x) →
  ∀ pool c w x,
    try_candidates recur row col pool c w = Returned x →
    try_candidates recur' row col pool c w = Returned x.
Proof.
  intros Hmono. induction pool as [|o rest IH]; intros c w x; simpl; [done|].
  destruct (board_set (board c) row col (CObj o)) as [b|]; [|done].
  destruct (recur _ w) as [[[r c2] w2]| |] eqn:Hrec; [|done..].
  rewrite (Hmono _ _ _ Hrec). destruct r; [done|].
  repeat case_decide; auto.
Qed.

Lemma helper_body_mono
    (recur recur' : GeneratorContext → World → outcome (bool * GeneratorContext * World)) :
  (∀ c w x, recur c w = Returned x → recur' c w = Returned x) →
  ∀ c w x,
    helper_body bingo_pool recur c w = Returned x →
    helper_body bingo_pool recur' c w = Returned x.
Proof.
  intros Hmono c w x. unfold helper_body.
  case_decide; [done|].
  destruct (count_bingo_constraints c _ _) as [cs|]; [|done].
  case_decide; [done|].
  destruct (shuffle_array _ w) as [pool w1].
  destruct (try_candidates recur _ _ pool _ w1) as [y| |] eqn:Hloop; [|done..].
  by rewrite (try_candidates_mono recur recur' _ _ Hmono _ _ _ _ Hloop).
Qed.

Lemma generate_board_helper_mono (fuel fuel' : nat) (c : GeneratorContext) (w : World)
    (x : bool * GeneratorContext * World) :
  (fuel ≤ fuel')%nat →
  generate_board_helper bingo_pool fuel c w = Returned x →
  generate_board_helper bingo_pool fuel' c w = Returned x.
Proof.
  revert fuel' c w x. induction fuel as [|fuel IH]; intros fuel' c w x Hle; [done|].
  destruct fuel' as [|fuel']; [lia|]. simpl.
  case_decide; apply helper_body_mono; intros c1 w1 x1; apply IH; lia.
Qed.

(** ** The state [generate_board] starts from *)

Lemma cell_at_new_board (n : nat) (rc : nat * nat) :
  cell_at (new_board n) rc =
  if decide ((rc.1 < n)%nat ∧ (rc.2 < n)%nat) then CNull else CUndefined.
Proof.
  unfold cell_at, board_get, new_board.
  destruct (decide (rc.1 < n)%nat) as [Hr|Hr].
  - rewrite lookup_replicate_2 by done. simpl.
    destruct (decide (rc.2 < n)%nat) as [Hc|Hc].
    + rewrite lookup_replicate_2 by done. simpl. by rewrite decide_True.
    + rewrite lookup_ge_None_2 by (rewrite length_replicate; lia). simpl.
      rewrite decide_False; [done | tauto].
  - rewrite lookup_ge_None_2 by (rewrite length_replicate; lia). simpl.
    rewrite decide_False; [done | tauto].
Qed.

Lemma grid_new_board (n : nat) : grid n (new_board n).
Proof.
  unfold grid, new_board. split; [by rewrite length_replicate|].
  apply Forall_replicate. split; [by rewrite length_replicate|].
  by apply Forall_replicate.
Qed.

Lemma initial_context_inv (size : nat) (od : option Interval) (bd : Interval)
    (te : TypeExclusivity) :
  context_inv (initial_context size od bd te).
Proof.
  assert (Hempty : ∀ rc o, cell_at (new_board size) rc ≠ CObj o).
  { intros rc o. rewrite cell_at_new_board. by case_decide. }
  unfold context_inv, initial_context; simpl. split.
  - apply grid_new_board.
  - lia.
  - intros r c _ _ Hlt. lia.
  - intros r c Hr Hc _. rewrite cell_at_new_board. simpl. rewrite decide_True; done.
  - apply set_eq. intros s. rewrite elem_of_names_on. split.
    + intros Hs. by apply not_elem_of_empty in Hs.
    + intros (rc & o & Hcell & _). by destruct (Hempty rc o).
  - intros rc1 rc2 o1 o2 Hcell. by destruct (Hempty rc1 o1).
  - intros rc o Hcell. by destruct (Hempty rc o).
  - intros line Hpos Hall Hfull. destruct (Hfull (line 0%nat)) as [o Ho].
    + apply elem_of_line_cells. by exists 0%nat.
    + by destruct (Hempty (line 0%nat) o).
Qed.

(** [generate_board], seen through the engine's specification. *)
Lemma generate_board_fuel_spec (fuel size : nat) (od : option Interval) (bd : Interval)
    (te : TypeExclusivity) (w : World) :
  (size * size < fuel)%nat →
  helper_post (initial_context size od bd te)
    (initial_context size od bd te :: invocations w)
    (generate_board_helper bingo_pool fuel (initial_context size od bd te) w).
Proof.
  intros Hfuel. apply generate_board_helper_spec.
  - split; [apply initial_context_inv|]. simpl. unfold BACKTRACK_LIMIT. lia.
  - simpl. lia.
Qed.

(** ** What a failing call leaves behind, whatever the state it started from *)

Lemma try_candidates_depth
    (recur : GeneratorContext → World → outcome (bool * GeneratorContext * World))
    (row col : nat) :
  (∀ c w c' w', recur c w = Returned (false, c', w') → depth c' = depth c) →
  ∀ pool c w exit c' w',
    try_candidates recur row col pool c w = Returned (exit, c', w') →
    exit ≠ ExitReturnTrue →
    depth c' = depth c ∧ ((depth c ≤ 5)%nat → exit = ExitDone).
Proof.
  intros Hrec. induction pool as [|o rest IH]; intros c w exit c' w'; simpl.
  - intros [= <- <- <-]. done.
  - destruct (board_set (board c) row col (CObj o)) as [b|]; [|done].
    destruct (recur _ w) as [[[r c2] w2]| |] eqn:Hcall; [|done..].
    destruct r; [by intros [= <- <- <-]|].
    apply Hrec in Hcall. simpl in Hcall.
    destruct (decide (5 < depth c2)%nat).
    + destruct (decide (BACKTRACK_LIMIT ≤ S (backtracks c2))%nat).
      * intros [= <- <- <-] _. simpl. split; [done | lia].
      * intros Hloop Hexit. destruct (IH _ _ _ _ _ Hloop Hexit) as [Hd Hdone].
        simpl in *. split; [congruence | lia].
    + intros Hloop Hexit. destruct (IH _ _ _ _ _ Hloop Hexit) as [Hd Hdone].
      simpl in *. split; [congruence|]. intros _. apply Hdone. lia.
Qed.

Lemma generate_board_helper_depth (fuel : nat) (c : GeneratorContext) (w : World)
    (c' : GeneratorContext) (w' : World) :
  generate_board_helper bingo_pool fuel c w = Returned (false, c', w') →
  depth c' = depth c.
Proof.
  revert c w c' w'. induction fuel as [|fuel IH]; intros c w c' w'; [done|]. simpl.
  assert (Hbody : ∀ k w0,
            helper_body bingo_pool (generate_board_helper bingo_pool fuel)
              (with_depth_record c k) w0 = Returned (false, c', w') →
            depth c' = depth c).
  { intros k w0. unfold helper_body. simpl.
    case_decide; [done|].
    destruct (count_bingo_constraints _ _ _) as [cs|]; [|done].
    case_decide; [by intros [= <- <-]|].
    destruct (shuffle_array _ w0) as [pool w1].
    destruct (try_candidates _ _ _ pool _ w1) as [[[exit c2] w2]| |] eqn:Hloop; [|done..].
    assert (Hexit : exit ≠ ExitReturnTrue → depth c2 = S (depth c)).
    { intros Hexit. by destruct (try_candidates_depth _ _ _ IH _ _ _ _ _ _ Hloop Hexit). }
    destruct exit; simpl; [done| |];
      (destruct (board_set (board c2) _ _ CNull); [|done]);
      intros [= <- <-]; simpl; rewrite Hexit by done; lia. }
  case_decide; [apply Hbody|].
  intros Hrun. apply (Hbody (depth_record c) (enter w c)). by destruct c.
Qed.

End Engine.

(** * Doubles *)

Lemma nearest_multiple_bounds (x u : Z) :
  0 < u → x / u * u ≤ Double.nearest_multiple x u ≤ (x / u + 1) * u.
Proof.
  intros Hu. unfold Double.nearest_multiple.
  repeat match goal with |- context [if ?b then _ else _] => destruct b end; nia.
Qed.

Lemma nearest_multiple_mono (x y u : Z) :
  0 < u → x ≤ y → Double.nearest_multiple x u ≤ Double.nearest_multiple y u.
Proof.
  intros Hu Hxy.
  pose proof (Z.div_le_mono x y u Hu Hxy) as Hq.
  destruct (decide (x / u = y / u)) as [Heq|Hne].
  - pose proof (Z.div_mod x u ltac:(lia)) as Hx.
    pose proof (Z.div_mod y u ltac:(lia)) as Hy.
    assert (Hr : x mod u ≤ y mod u) by (rewrite Heq in Hx; nia).
    unfold Double.nearest_multiple. rewrite Heq.
    destruct (2 * (x mod u) <? u) eqn:H1, (2 * (y mod u) <? u) eqn:H2,
             (u <? 2 * (x mod u)) eqn:H3, (u <? 2 * (y mod u)) eqn:H4,
             (Z.even (y / u)); lia.
  - pose proof (nearest_multiple_bounds x u Hu) as Hbx.
    pose proof (nearest_multiple_bounds y u Hu) as Hby.
    nia.
Qed.

Lemma nearest_binade (x : Z) :
  2 ^ 53 < x →
  2 ^ Z.log2 x ≤ Double.nearest x ≤ 2 ^ (Z.log2 x + 1) ∧ 53 ≤ Z.log2 x.
Proof.
  intros Hx. unfold Double.nearest. rewrite (proj2 (Z.leb_gt _ _)) by done.
  assert (Hpos : 0 < x) by lia.
  destruct (Z.log2_spec x Hpos) as [Hlo Hhi].
  assert (He : 53 ≤ Z.log2 x).
  { pose proof (Z.log2_le_mono (2 ^ 53) x ltac:(lia)) as H.
    by rewrite Z.log2_pow2 in H by lia. }
  set (e := Z.log2 x) in *. set (u := 2 ^ (e - 52)).
  assert (Hu : 0 < u) by (apply Z.pow_pos_nonneg; lia).
  assert (H52 : 2 ^ e = 2 ^ 52 * u).
  { unfold u. rewrite <- Z.pow_add_r by lia. f_equal. lia. }
  assert (H53 : 2 ^ (e + 1) = 2 ^ 53 * u).
  { unfold u. rewrite <- Z.pow_add_r by lia. f_equal. lia. }
  replace (Z.succ e) with (e + 1) in Hhi by lia.
  assert (Hq1 : 2 ^ 52 ≤ x / u) by (apply Z.div_le_lower_bound; lia).
  assert (Hq2 : x / u < 2 ^ 53) by (apply Z.div_lt_upper_bound; lia).
  pose proof (nearest_multiple_bounds x u Hu) as Hb.
  split; [|done]. rewrite H52, H53. nia.
Qed.

Lemma nearest_nonneg (x : Z) : 0 ≤ x → 0 ≤ Double.nearest x.
Proof.
  intros Hx. destruct (decide (x ≤ 2 ^ 53)) as [Hs|Hs].
  - unfold Double.nearest. by rewrite (proj2 (Z.leb_le _ _)).
  - destruct (nearest_binade x) as [[Hlo _] _]; [lia|].
    pose proof (Z.pow_pos_nonneg 2 (Z.log2 x) ltac:(lia) (Z.log2_nonneg x)). lia.
Qed.

Lemma nearest_mono (x y : Z) : 0 ≤ x → x ≤ y → Double.nearest x ≤ Double.nearest y.
Proof.
  intros Hx Hxy.
  destruct (decide (y ≤ 2 ^ 53)) as [Hy|Hy].
  { unfold Double.nearest. by rewrite !(proj2 (Z.leb_le _ _)) by lia. }
  destruct (nearest_binade y) as [[Hylo _] Hey]; [lia|].
  destruct (decide (x ≤ 2 ^ 53)) as [Hs|Hs].
  { unfold Double.nearest at 1. rewrite (proj2 (Z.leb_le _ _)) by done.
    pose proof (Z.pow_le_mono_r 2 53 (Z.log2 y) ltac:(lia) Hey). lia. }
  destruct (nearest_binade x) as [[_ Hxhi] Hex]; [lia|].
  pose proof (Z.log2_le_mono x y Hxy) as Hlog.
  destruct (decide (Z.log2 x = Z.log2 y)) as [Heq|Hne].
  - unfold Double.nearest. rewrite !(proj2 (Z.leb_gt _ _)) by lia. rewrite Heq.
    apply nearest_multiple_mono; [|done]. apply Z.pow_pos_nonneg; lia.
  - pose proof (Z.pow_le_mono_r 2 (Z.log2 x + 1) (Z.log2 y) ltac:(lia) ltac:(lia)). lia.
Qed.

(** Rounding keeps the order. *)
Lemma fl_mono (x y : Z) : x ≤ y → Double.fl x ≤ Double.fl y.
Proof.
  intros Hxy. unfold Double.fl.
  destruct (x <? 0) eqn:Hx, (y <? 0) eqn:Hy;
    rewrite ?Z.ltb_lt, ?Z.ltb_ge in *.
  - pose proof (nearest_mono (- y) (- x)). lia.
  - pose proof (nearest_nonneg (- x)). pose proof (nearest_nonneg y). lia.
  - lia.
  - by apply nearest_mono.
Qed.

(** Up to [2 ^ 53] in magnitude nothing is rounded. *)
Lemma fl_exact (z : Z) : Double.exact z → Double.fl z = z.
Proof.
  unfold Double.exact, Double.fl, Double.nearest. intros Hz.
  destruct (z <? 0) eqn:Hneg; rewrite ?Z.ltb_lt, ?Z.ltb_ge in *.
  - rewrite (proj2 (Z.leb_le _ _)) by lia. lia.
  - by rewrite (proj2 (Z.leb_le _ _)) by lia.
Qed.


Lemma sub_exact (this other : Interval) :
  Double.exact_interval (Interval.sub this other) →
  Double.sub this (Double.Another other) = Interval.sub this other.
Proof.
  intros [H1 H2]. unfold Double.sub, Double.minus, Interval.sub in *; simpl in *.
  by rewrite !fl_exact.
Qed.

(** ** The constraint calculator on doubles *)

Lemma double_scan_line_grid (n : nat) (b : Board) (od : Interval)
    (coord : nat → nat * nat) (skip : nat) (indices : list nat)
    (acc : Interval * list (list string)) :
  grid n b →
  (∀ i, i ∈ indices → ((coord i).1 < n)%nat ∧ ((coord i).2 < n)%nat) →
  let cells := map coord (List.filter (fun i => negb (bool_decide (i = skip))) indices) in
  Double.scan_line b od coord skip indices acc =
  Some (fold_left
          (fun itv rc => Double.sub itv (Double.Another (contribution od (cell_at b rc))))
          cells acc.1,
        acc.2 ++ flat_map (fun rc => cell_types (cell_at b rc)) cells).
Proof.
  intros Hg. revert acc. induction indices as [|i rest IH]; intros acc Hin; simpl.
  - rewrite app_nil_r. by destruct acc.
  - assert (Hrest : ∀ j, j ∈ rest → ((coord j).1 < n)%nat ∧ ((coord j).2 < n)%nat).
    { intros j Hj. apply Hin. by right. }
    destruct (decide (i = skip)) as [->|Hne].
    + rewrite bool_decide_eq_true_2 by done. simpl. by apply IH.
    + rewrite bool_decide_eq_false_2 by done. simpl.
      destruct (Hin i) as [Hr Hc]; [by left|].
      destruct (cell_at_defined n b _ _ Hg Hr Hc) as [Hget Hdef].
      rewrite Hget. replace ((coord i).1, (coord i).2) with (coord i) in * by by destruct (coord i).
      destruct (cell_at b (coord i)) as [|o|] eqn:Hcell; simpl; [| |done].
      * rewrite IH by done. simpl. done.
      * rewrite IH by done. simpl. by rewrite <- app_assoc.
Qed.

Lemma double_count_bingo_constraints_grid (context : GeneratorContext) (row col : nat) :
  let n := size context in
  grid n (board context) → (row < n)%nat → (col < n)%nat →
  Double.count_bingo_constraints context row col =
  Some (mkConstraints
          (Double.admissible_interval (board context) n (objective_difficulty context)
             (bingo_difficulty context) row col)
          (pushed_types (board context) n row col)).
Proof.
  intros n Hg Hr Hc. unfold Double.count_bingo_constraints. fold n.
  rewrite clone_id.
  rewrite (double_scan_line_grid n) by (done || (intros i Hi; apply elem_of_seq in Hi; simpl; lia)).
  simpl. rewrite others_row.
  rewrite (double_scan_line_grid n) by (done || (intros i Hi; apply elem_of_seq in Hi; simpl; lia)).
  simpl. rewrite others_col.
  unfold Double.admissible_interval, pushed_types, lines_through, Double.remaining_interval.
  destruct (decide (row = col)) as [->|Hd].
  - rewrite (double_scan_line_grid n) by (done || (intros i Hi; apply elem_of_seq in Hi; simpl; lia)).
    simpl. rewrite others_diag.
    destruct (decide (Z.of_nat col + Z.of_nat col = Z.of_nat n - 1)) as [Ha|Ha].
    + rewrite (double_scan_line_grid n) by (done || (intros i Hi; apply elem_of_seq in Hi; simpl; lia)).
      simpl. rewrite (others_anti n col col) by done.
      simpl. by rewrite !app_nil_r, <- !app_assoc.
    + simpl. by rewrite !app_nil_r, <- ?app_assoc.
  - destruct (decide (Z.of_nat row + Z.of_nat col = Z.of_nat n - 1)) as [Ha|Ha].
    + rewrite (double_scan_line_grid n) by (done || (intros i Hi; apply elem_of_seq in Hi; simpl; lia)).
      simpl. rewrite (others_anti n row col) by done.
      simpl. by rewrite !app_nil_r, <- ?app_assoc.
    + simpl. by rewrite !app_nil_r, <- ?app_assoc.
Qed.

(** Where no difference leaves the exact range, the doubles are the
    integers. *)
Lemma fold_sub_exact (od : Interval) (b : Board) (cells : list (nat * nat)) (acc : Interval) :
  Forall Double.exact_interval
    (running_differences (map (fun rc => contribution od (cell_at b rc)) cells) acc) →
  fold_left (fun itv rc => Double.sub itv (Double.Another (contribution od (cell_at b rc))))
    cells acc =
  fold_left (fun itv rc => Interval.sub itv (contribution od (cell_at b rc))) cells acc.
Proof.
  revert acc. induction cells as [|rc cells IH]; intros acc Hall; simpl; [done|].
  simpl in Hall. apply Forall_cons in Hall as [Hhead Hrest].
  rewrite sub_exact by done. by apply IH.
Qed.

Lemma admissible_interval_exact (b : Board) (n : nat) (od bd : Interval) (row col : nat) :
  differences_exact b n od bd row col →
  Double.admissible_interval b n od bd row col = admissible_interval b n od bd row col.
Proof.
  unfold differences_exact, Double.admissible_interval, admissible_interval.
  intros Hall. f_equal. apply List.map_ext_in. intros line Hline.
  apply list_elem_of_In in Hline. rewrite Forall_forall in Hall.
  unfold Double.remaining_interval, remaining_interval. apply fold_sub_exact. by apply Hall.
Qed.

Lemma count_bingo_constraints_exact (context : GeneratorContext) (row col : nat) :
  grid (size context) (board context) →
  (row < size context)%nat → (col < size context)%nat →
  differences_exact (board context) (size context)
    (objective_difficulty context) (bingo_difficulty context) row col →
  Double.count_bingo_constraints context row col = count_bingo_constraints context row col.
Proof.
  intros Hg Hr Hc Hexact.
  rewrite double_count_bingo_constraints_grid, count_bingo_constraints_grid by done.
  by rewrite admissible_interval_exact.
Qed.

(** A value of the remaining budget survives the rounding of the bounds,
    when it and the tiers still to come are sums of tiers up to [2 ^ 53]. *)
Lemma double_fold_sub_sound (b b' : Board) (od : Interval) (cells : list (nat * nat))
    (acc : Interval) (s : Z) :
  (∀ rc, rc ∈ cells →
         0 ≤ tier_at b' rc ∧
         Interval.contains (contribution od (cell_at b rc)) (tier_at b' rc) = true) →
  0 ≤ s → s + sumZ (map (tier_at b') cells) ≤ 2 ^ 53 →
  Interval.contains acc (s + sumZ (map (tier_at b') cells)) = true →
  Interval.contains
    (fold_left (fun itv rc => Double.sub itv (Double.Another (contribution od (cell_at b rc))))
       cells acc) s
  = true.
Proof.
  revert acc. induction cells as [|rc cells IH]; intros acc Hcells Hs Hmax Hacc; simpl.
  - unfold sumZ in Hacc; simpl in Hacc. by rewrite Z.add_0_r in Hacc.
  - assert (Hrest : ∀ rc', rc' ∈ cells →
              0 ≤ tier_at b' rc' ∧
              Interval.contains (contribution od (cell_at b rc')) (tier_at b' rc') = true).
    { intros rc' Hrc'. apply Hcells. by right. }
    assert (Hnn : 0 ≤ sumZ (map (tier_at b') cells)).
    { clear -Hrest. induction cells as [|x l IHl]; unfold sumZ; simpl; [lia|].
      fold (sumZ (map (tier_at b') l)).
      destruct (Hrest x) as [Hx _]; [by left|].
      assert (0 ≤ sumZ (map (tier_at b') l)); [|lia].
      apply IHl. intros rc' Hrc'. apply Hrest. by right. }
    unfold sumZ in Hacc, Hmax; simpl in Hacc, Hmax.
    fold (sumZ (map (tier_at b') cells)) in Hacc, Hmax.
    destruct (Hcells rc) as [Ht Hin]; [by left|].
    apply IH; [done | done | lia |].
    apply contains_spec in Hacc, Hin. apply contains_spec.
    set (s1 := s + sumZ (map (tier_at b') cells)) in *.
    assert (Hexact : Double.fl s1 = s1) by (apply fl_exact; unfold Double.exact; lia).
    unfold Double.sub, Double.minus; simpl. split.
    + rewrite <- Hexact. apply fl_mono. lia.
    + rewrite <- Hexact at 1. apply fl_mono. lia.
Qed.

(** * The claims *)




(** Claim C3.  [narrow_bingo_pool] keeps, in catalog order, exactly the
    items whose tier lies in the interval, whose name is not in use, and
    which satisfy the policy: nothing under [none]; under [partial] the
    item's tags are a superset of no forbidden tag set; under [strict] the
    item shares no tag with any forbidden tag set.  The set [exclude_set]
    built in the strict case does not influence the result. *)
Theorem narrow_bingo_pool_exact (pool : list Objective) (policy : TypeExclusivity)
    (itv : Interval) (forbidden : list (list string)) (used : gset string) :
  (∃ keep : Objective → bool,
     narrow_bingo_pool pool policy itv forbidden used = List.filter keep pool ∧
     ∀ obj, keep obj = true ↔
            Interval.contains itv (tier obj) = true ∧ (name obj ∉ used) ∧
            satisfies_policy policy forbidden obj) ∧
  (∀ exclude_set,
     strict_filter pool exclude_set itv forbidden used =
     narrow_bingo_pool pool strict itv forbidden used).
Proof.
  split; [|done].
  exists (fun obj =>
            Interval.contains itv (tier obj) &&
            negb (bool_decide (name obj ∈ used)) &&
            match policy with
            | none => true
            | partial => forallb (fun v => negb (includes_types obj v)) forbidden
            | strict => forallb (fun v => excludes_types obj v) forbidden
            end).
  split.
  - destruct policy; unfold narrow_bingo_pool, strict_filter; [done..|].
    apply List.filter_ext. intros obj. by rewrite andb_true_r.
  - intros obj. rewrite <- policy_test_spec.
    rewrite !andb_true_iff, negb_true_iff, bool_decide_eq_false. tauto.
Qed.




Section Claims.

Variable bingo_pool : list Objective.

(** What [generate_board] returns, in terms of the engine's outcome. *)
Lemma generate_board_outcome (size : nat) (od : option Interval) (bd : Interval)
    (te : TypeExclusivity) (w : World) :
  ∃ r c' w',
    generate_board_helper bingo_pool (S (size * size)) (initial_context size od bd te) w
      = Returned (r, c', w') ∧
    generate_board bingo_pool size od bd te w =
      Returned (if r then IsBoard (board c')
                else IsError "Board not found. A board may be possible but simply not found by the generator.",
                w') ∧
    same_parameters (initial_context size od bd te) c' ∧
    (∃ new, invocations w' = (new ++ [initial_context size od bd te]) ++ invocations w ∧
            Forall entry_ok (new ++ [initial_context size od bd te])) ∧
    (r = true → context_inv c' ∧ depth c' = (size * size)%nat).
Proof.
  destruct (generate_board_fuel_spec bingo_pool (S (size * size)) size od bd te w)
    as (r & c' & w' & Heq & Hpar & (new & Hnew & Hall) & Hres); [lia|].
  exists r, c', w'. split; [done|]. unfold generate_board, generate_board_fuel.
  rewrite Heq. split; [by destruct r|]. split; [done|]. split.
  - exists new. split; [by rewrite <- app_assoc|].
    apply Forall_app. split; [done|]. constructor; [|done].
    split; [apply initial_context_inv|]. simpl. unfold BACKTRACK_LIMIT. lia.
  - intros ->. exact Hres.
Qed.

(** Claim C1.  On every board [generate_board] returns (for a positive
    size), the tiers of every row, of every column and of both diagonals
    sum to a value inside [bingo_difficulty], and every cell holds an
    objective whose tier lies in the per-cell interval in force: the given
    [objective_difficulty], or the safe-integer interval for [null]. *)
Theorem generated_board_valid (size : nat) (od : option Interval) (bd : Interval)
    (te : TypeExclusivity) (w : World) (b : Board) (w' : World) :
  (0 < size)%nat →
  generate_board bingo_pool size od bd te w = Returned (IsBoard b, w') →
  (∀ r, (r < size)%nat → Interval.contains bd (line_sum b size (row_line r)) = true) ∧
  (∀ c, (c < size)%nat → Interval.contains bd (line_sum b size (col_line c)) = true) ∧
  Interval.contains bd (line_sum b size diag_line) = true ∧
  Interval.contains bd (line_sum b size (anti_line size)) = true ∧
  (∀ r c, (r < size)%nat → (c < size)%nat →
          ∃ o, cell_at b (r, c) = CObj o ∧
               Interval.contains (default Interval.safeIntegerRange od) (tier o) = true).
Proof.
  intros Hpos Hrun.
  destruct (generate_board_outcome size od bd te w)
    as (r & c' & w1 & _ & Hgen & Hpar & _ & Hres).
  rewrite Hgen in Hrun. destruct r; [|done]. injection Hrun as <- <-.
  destruct Hres as [Hinv Hd]; [done|].
  destruct Hpar as (Hsize & Hod & Hbd & _). simpl in Hsize, Hod, Hbd.
  unfold context_inv in Hinv. rewrite Hsize, Hod, Hbd, Hd in Hinv.
  assert (Hcells : ∀ r c, (r < size)%nat → (c < size)%nat →
            ∃ o, cell_at (board c') (r, c) = CObj o).
  { intros r c Hr Hc. apply (inv_filled _ _ _ _ _ _ Hinv); [done..|].
    pose proof (Nat.mul_le_mono_r (S r) size size Hr). lia. }
  assert (Hline : ∀ line, line ∈ all_lines size →
            Interval.contains bd (line_sum (board c') size line) = true).
  { intros line Hall. apply (inv_lines _ _ _ _ _ _ Hinv); [done..|].
    intros rc Hrc. apply elem_of_line_cells in Hrc as (i & Hi & ->).
    unfold all_lines in Hall. rewrite !elem_of_app in Hall.
    change (map row_line (seq 0 size)) with (row_line <$> seq 0 size) in Hall.
    change (map col_line (seq 0 size)) with (col_line <$> seq 0 size) in Hall.
    rewrite !list_elem_of_fmap, !elem_of_cons, elem_of_nil in Hall.
    destruct Hall as [(r & -> & Hr)|[(c & -> & Hc)|[->|[->|[]]]]];
      rewrite ?elem_of_seq in *; apply Hcells; lia. }
  assert (Hin : ∀ (f : nat → nat → nat * nat) k, (k < size)%nat → f k ∈ f <$> seq 0 size).
  { intros f k Hk. apply list_elem_of_fmap. exists k. split; [done|]. apply elem_of_seq. lia. }
  repeat split.
  - intros r Hr. apply Hline. unfold all_lines. rewrite !elem_of_app. left. by apply Hin.
  - intros c Hc. apply Hline. unfold all_lines. rewrite !elem_of_app. right; left. by apply Hin.
  - apply Hline. unfold all_lines. set_solver.
  - apply Hline. unfold all_lines. set_solver.
  - intros r c Hr Hc. destruct (Hcells r c Hr Hc) as [o Ho]. exists o. split; [done|].
    by apply (inv_tiers _ _ _ _ _ _ Hinv (r, c)).
Qed.

(** Claim C4.  On every board [generate_board] returns, all cells hold
    objectives and no two different cells hold objectives of the same
    name. *)
Theorem generated_board_names_distinct (size : nat) (od : option Interval) (bd : Interval)
    (te : TypeExclusivity) (w : World) (b : Board) (w' : World) :
  generate_board bingo_pool size od bd te w = Returned (IsBoard b, w') →
  ∀ r1 c1 r2 c2, (r1 < size)%nat → (c1 < size)%nat → (r2 < size)%nat → (c2 < size)%nat →
    ∃ o1 o2, cell_at b (r1, c1) = CObj o1 ∧ cell_at b (r2, c2) = CObj o2 ∧
             ((r1, c1) ≠ (r2, c2) → name o1 ≠ name o2).
Proof.
  intros Hrun r1 c1 r2 c2 Hr1 Hc1 Hr2 Hc2.
  destruct (generate_board_outcome size od bd te w)
    as (r & c' & w1 & _ & Hgen & Hpar & _ & Hres).
  rewrite Hgen in Hrun. destruct r; [|done]. injection Hrun as <- <-.
  destruct Hres as [Hinv Hd]; [done|].
  destruct Hpar as (Hsize & _). simpl in Hsize.
  unfold context_inv in Hinv. rewrite Hsize, Hd in Hinv.
  assert (Hcells : ∀ r c, (r < size)%nat → (c < size)%nat →
            ∃ o, cell_at (board c') (r, c) = CObj o).
  { intros r c Hr Hc. apply (inv_filled _ _ _ _ _ _ Hinv); [done..|].
    pose proof (Nat.mul_le_mono_r (S r) size size Hr). lia. }
  destruct (Hcells r1 c1 Hr1 Hc1) as [o1 Ho1]. destruct (Hcells r2 c2 Hr2 Hc2) as [o2 Ho2].
  exists o1, o2. split; [done|]. split; [done|].
  intros Hne Heq. apply Hne. by apply (inv_distinct _ _ _ _ _ _ Hinv _ _ o1 o2).
Qed.

(** Claim C5.  [generate_board] returns, and at the entry of every call of
    [generate_board_helper] it made (the first one, on the empty board,
    included) [objective_names] is the set of the names of the non-null
    cells of the board. *)
Theorem names_track_board (size : nat) (od : option Interval) (bd : Interval)
    (te : TypeExclusivity) (w : World) :
  ∃ res w' new,
    generate_board bingo_pool size od bd te w = Returned (res, w') ∧
    invocations w' = new ++ invocations w ∧
    initial_context size od bd te ∈ new ∧
    ∀ c, c ∈ new → objective_names c = names_on (board c).
Proof.
  destruct (generate_board_outcome size od bd te w)
    as (r & c' & w' & _ & Hgen & _ & (new & Hnew & Hall) & _).
  eexists _, w', _. split; [exact Hgen|]. split; [exact Hnew|]. split.
  - apply elem_of_app. right. by left.
  - intros c Hc. rewrite Forall_forall in Hall.
    by apply (inv_names _ _ _ _ _ _ (proj1 (Hall c Hc))).
Qed.

(** A call that finds no candidate returns [false] at once. *)
Lemma dead_end_immediate (fuel : nat) (c : GeneratorContext) (w : World) (cs : Constraints) :
  (depth c < size c * size c)%nat →
  count_bingo_constraints c (depth c / size c) (depth c mod size c) = Some cs →
  narrow_bingo_pool bingo_pool (type_exclusivity c) (tier_interval cs) (exclude_types cs)
    (objective_names c) = [] →
  ∃ c' w', generate_board_helper bingo_pool (S fuel) c w = Returned (false, c', w') ∧
           board c' = board c ∧ depth c' = depth c ∧
           objective_names c' = objective_names c ∧
           backtracks c' = backtracks c ∧ random w' = random w.
Proof.
  intros Hlt Hcs Hpool. simpl.
  assert (Hbody : ∀ k w0,
            helper_body bingo_pool (generate_board_helper bingo_pool fuel)
              (with_depth_record c k) w0 = Returned (false, with_depth_record c k, w0)).
  { intros k w0. unfold helper_body. simpl.
    rewrite decide_False by lia.
    change (count_bingo_constraints (with_depth_record c k) (depth c / size c) (depth c mod size c))
      with (count_bingo_constraints c (depth c / size c) (depth c mod size c)).
    rewrite Hcs, Hpool. done. }
  case_decide.
  - eexists _, _. split; [apply Hbody | done].
  - exists c, (enter w c). split; [|done].
    specialize (Hbody (depth_record c) (enter w c)). destruct c. exact Hbody.
Qed.

Lemma failure_restores (fuel : nat) (c : GeneratorContext) (w : World)
    (c' : GeneratorContext) (w' : World) :
  entry_ok c →
  generate_board_helper bingo_pool fuel c w = Returned (false, c', w') →
  board c' = board c ∧ depth c' = depth c ∧ objective_names c' = objective_names c.
Proof.
  intros Hinv Hrun.
  apply (generate_board_helper_mono bingo_pool fuel (fuel + S (size c * size c))) in Hrun; [|lia].
  destruct (generate_board_helper_spec bingo_pool (fuel + S (size c * size c)) c w Hinv)
    as (r & c2 & w2 & Heq & _ & _ & Hres); [lia|].
  rewrite Hrun in Heq. injection Heq as <- <- <-. exact Hres.
Qed.

(** Claim C6.  For every call of [generate_board_helper] made in a run of
    [generate_board]: whenever the call (in whatever world) returns
    [false], the board, [depth] and [objective_names] are what they were
    at its entry; and if the candidate pool of its cell is empty it
    returns [false] with, in addition, [backtracks] untouched and no random
    draw taken. *)
Theorem failure_restores_state (size0 : nat) (od : option Interval) (bd : Interval)
    (te : TypeExclusivity) (w0 : World) (res : BoardOrError) (w1 : World)
    (c : GeneratorContext) :
  invocations w0 = [] →
  generate_board bingo_pool size0 od bd te w0 = Returned (res, w1) →
  c ∈ invocations w1 →
  (∀ fuel w c' w',
     generate_board_helper bingo_pool fuel c w = Returned (false, c', w') →
     board c' = board c ∧ depth c' = depth c ∧ objective_names c' = objective_names c) ∧
  (∀ fuel w cs,
     (depth c < size c * size c)%nat →
     count_bingo_constraints c (depth c / size c) (depth c mod size c) = Some cs →
     narrow_bingo_pool bingo_pool (type_exclusivity c) (tier_interval cs) (exclude_types cs)
       (objective_names c) = [] →
     ∃ c' w', generate_board_helper bingo_pool (S fuel) c w = Returned (false, c', w') ∧
              board c' = board c ∧ depth c' = depth c ∧
              objective_names c' = objective_names c ∧
              backtracks c' = backtracks c ∧ random w' = random w).
Proof.
  intros Hw0 Hrun Hc.
  destruct (generate_board_outcome size0 od bd te w0)
    as (r & c1 & w' & _ & Hgen & _ & (new & Hnew & Hall) & _).
  rewrite Hgen in Hrun. injection Hrun as _ <-.
  rewrite Hnew, Hw0, app_nil_r in Hc.
  rewrite Forall_forall in Hall. specialize (Hall c Hc). split.
  - intros fuel w c' w2. by apply failure_restores.
  - intros fuel w cs. apply dead_end_immediate.
Qed.

(** Claim C9.  For every size, pair of intervals and policy,
    [generate_board] returns a board or an [Error] value; it neither
    throws nor runs forever: the recursion budget is never exhausted, and
    any larger budget yields the same result. *)
Theorem generate_board_terminates (size : nat) (od : option Interval) (bd : Interval)
    (te : TypeExclusivity) (w : World) :
  ∃ res w',
    generate_board bingo_pool size od bd te w = Returned (res, w') ∧
    ((∃ b, res = IsBoard b) ∨ (∃ msg, res = IsError msg)) ∧
    ∀ fuel, (size * size < fuel)%nat →
            generate_board_fuel bingo_pool fuel size od bd te w = Returned (res, w').
Proof.
  destruct (generate_board_outcome size od bd te w)
    as (r & c' & w' & Hrun & Hgen & _).
  eexists _, w'. split; [exact Hgen|]. split.
  - destruct r; eauto.
  - intros fuel Hfuel. unfold generate_board_fuel.
    rewrite (generate_board_helper_mono bingo_pool (S (size * size)) fuel _ _ _ ltac:(lia) Hrun).
    by destruct r.
Qed.

(** Claim C7.  In the candidate loop, after a candidate whose recursive
    call failed: if [depth] exceeds 5 and [backtracks], once incremented,
    has reached 100, the loop is left by [break] without another recursive
    call and the call returns [false]; if [depth] is at most 5, the loop
    goes on with the remaining candidates and [backtracks] reset to 0.
    The loop of a cell with [depth <= 5], whose recursive calls are the
    engine's, never ends by [break].  And in a run of [generate_board] no
    call is entered (no candidate is tried) with [backtracks] at the
    limit. *)
Theorem backtrack_limit
    (recur : GeneratorContext → World → outcome (bool * GeneratorContext * World))
    (row col : nat) (o : Objective) (rest : list Objective)
    (context : GeneratorContext) (w : World) (b : Board)
    (c1 : GeneratorContext) (w1 : World) :
  board_set (board context) row col (CObj o) = Some b →
  recur (with_objective_names (with_board context b)
           ({[ name o ]} ∪ objective_names context)) w = Returned (false, c1, w1) →
  let c2 := with_objective_names (with_backtracks c1 (S (backtracks c1)))
              (objective_names c1 ∖ {[ name o ]}) in
  ((5 < depth c1)%nat → (BACKTRACK_LIMIT ≤ S (backtracks c1))%nat →
   ∃ w', try_candidates recur row col (o :: rest) context w = Returned (ExitBreak, c2, w') ∧
         invocations w' = invocations w1 ∧ random w' = random w1 ∧
         ∀ b', board_set (board c1) row col CNull = Some b' →
               leave_cell row col (try_candidates recur row col (o :: rest) context w) =
               Returned (false, with_board (with_depth c2 (depth c1 - 1)) b', w')) ∧
  ((depth c1 ≤ 5)%nat →
   try_candidates recur row col (o :: rest) context w =
   try_candidates recur row col rest (with_backtracks c2 0) w1) ∧
  (∀ fuel pool c w0 exit c' w',
     (depth c ≤ 5)%nat →
     try_candidates (generate_board_helper bingo_pool fuel) row col pool c w0 =
       Returned (exit, c', w') →
     exit ≠ ExitBreak) ∧
  (∀ size0 od bd te w0 res w',
     invocations w0 = [] →
     generate_board bingo_pool size0 od bd te w0 = Returned (res, w') →
     ∀ c, c ∈ invocations w' → (backtracks c < BACKTRACK_LIMIT)%nat).
Proof.
  intros Hset Hcall c2. split; [|split; [|split]].
  - intros Hdeep Hlimit. simpl. rewrite Hset, Hcall. simpl.
    rewrite decide_True by done. rewrite decide_True by done.
    eexists. split; [done|]. split; [by case_decide|]. split; [by case_decide|].
    intros b' Hb'. simpl. by rewrite Hb'.
  - intros Hshallow. simpl. rewrite Hset, Hcall. simpl.
    rewrite decide_False by lia. done.
  - intros fuel pool c w0 exit c' w' Hshallow Hloop ->.
    destruct (try_candidates_depth (generate_board_helper bingo_pool fuel) row col
                (generate_board_helper_depth bingo_pool fuel) _ _ _ _ _ _ Hloop) as [_ Hdone];
      [done|]. by specialize (Hdone Hshallow).
  - intros size0 od bd te w0 res w' Hw0 Hrun c Hc.
    destruct (generate_board_outcome size0 od bd te w0)
      as (r & c' & w2 & _ & Hgen & _ & (new & Hnew & Hall) & _).
    rewrite Hgen in Hrun. injection Hrun as _ <-.
    rewrite Hnew, Hw0, app_nil_r in Hc.
    rewrite Forall_forall in Hall. by destruct (Hall c Hc).
Qed.

End Claims.

(** Tiers are positions in the catalog. *)
Lemma pool_from_tier (start : nat) (data0 : list (list RawObjective)) (o : Objective) :
  o ∈ pool_from start data0 →
  Z.of_nat start ≤ tier o < Z.of_nat start + Z.of_nat (length data0).
Proof.
  revert start. induction data0 as [|tier_pool rest IH]; intros start; simpl.
  - intros Hin. by apply elem_of_nil in Hin.
  - rewrite elem_of_app. intros [Hin|Hin].
    + change (o ∈ (fun obj => mkObjective (Z.of_nat start) (raw_name obj) (raw_types obj))
                    <$> tier_pool) in Hin.
      apply list_elem_of_fmap in Hin as (raw & -> & _). simpl. lia.
    + apply IH in Hin. lia.
Qed.

(** Claim C10.  With the catalog built from a JavaScript array (at most
    2^32 - 1 tiers), [generate_board] given [null] for the per-cell range
    behaves as [generate_board] given the safe-integer interval, it returns
    (no exception), and the per-cell interval in force contains the tier of
    every catalog item. *)
Theorem null_objective_difficulty (data0 : list (list RawObjective)) (size : nat)
    (bd : Interval) (te : TypeExclusivity) (w : World) :
  (Z.of_nat (length data0) < 2 ^ 32) →
  generate_board (pool_of data0) size None bd te w =
  generate_board (pool_of data0) size (Some Interval.safeIntegerRange) bd te w ∧
  (∃ res w', generate_board (pool_of data0) size None bd te w = Returned (res, w')) ∧
  objective_difficulty (initial_context size None bd te) =
    mkInterval Interval.MIN_SAFE_INTEGER Interval.MAX_SAFE_INTEGER ∧
  ∀ o, o ∈ pool_of data0 →
       Interval.contains (objective_difficulty (initial_context size None bd te)) (tier o)
       = true.
Proof.
  intros Hlen. split; [done|]. split.
  - destruct (generate_board_outcome (pool_of data0) size None bd te w)
      as (r & c' & w' & _ & Hrun & _). eauto.
  - split; [done|]. intros o Ho. apply pool_from_tier in Ho. simpl.
    apply contains_spec. unfold Interval.safeIntegerRange; simpl.
    unfold Interval.MIN_SAFE_INTEGER, Interval.MAX_SAFE_INTEGER. lia.
Qed.

(** * The statements at sample inputs *)

Lemma generated_board_valid_witness :
  ∃ b w',
    generate_board example_pool 2 None loose_sums none sample_world = Returned (IsBoard b, w') ∧
    Interval.contains loose_sums (line_sum b 2 diag_line) = true.
Proof.
  eexists _, _. split.
  - vm_compute. reflexivity.
  - refine (proj1 (proj2 (proj2
      (generated_board_valid example_pool 2 None loose_sums none sample_world _ _ _ _)))).
    + lia.
    + vm_compute. reflexivity.
Defined.

Lemma generated_board_names_distinct_witness :
  ∃ b w' o1 o2,
    generate_board example_pool 2 None loose_sums none sample_world = Returned (IsBoard b, w') ∧
    cell_at b (0%nat, 0%nat) = CObj o1 ∧ cell_at b (1%nat, 1%nat) = CObj o2 ∧
    name o1 ≠ name o2.
Proof.
  assert (Hrun : ∃ b w', generate_board example_pool 2 None loose_sums none sample_world
                         = Returned (IsBoard b, w')).
  { eexists _, _. vm_compute. reflexivity. }
  destruct Hrun as (b & w' & Hrun).
  destruct (generated_board_names_distinct example_pool 2 None loose_sums none sample_world
              b w' Hrun 0%nat 0%nat 1%nat 1%nat) as (o1 & o2 & H1 & H2 & Hne); try lia.
  exists b, w', o1, o2. split; [exact Hrun|]. split; [exact H1|]. split; [exact H2|].
  apply Hne. discriminate.
Defined.

Lemma failure_restores_state_witness :
  let c := initial_context 2 None unreachable_sums none in
  ∃ c' w',
    generate_board_helper example_pool 5 c (world0 []) = Returned (false, c', w') ∧
    board c' = board c ∧ depth c' = depth c ∧ objective_names c' = objective_names c.
Proof.
  intros c.
  assert (Hrun : ∃ res w1,
            generate_board example_pool 2 None unreachable_sums none (world0 []) = Returned (res, w1) ∧
            c ∈ invocations w1).
  { eexists _, _. split; [vm_compute; reflexivity|].
    apply (bool_decide_unpack _). vm_compute. exact I. }
  destruct Hrun as (res & w1 & Hrun & Hc).
  assert (Hcall : ∃ c' w',
            generate_board_helper example_pool 5 c (world0 []) = Returned (false, c', w')).
  { eexists _, _. vm_compute. reflexivity. }
  destruct Hcall as (c' & w' & Hcall).
  exists c', w'. split; [exact Hcall|].
  exact (proj1 (failure_restores_state example_pool 2 None unreachable_sums none (world0 [])
                  res w1 c eq_refl Hrun Hc) 5%nat (world0 []) c' w' Hcall).
Defined.

Lemma backtrack_limit_witness :
  ∃ c' w',
    try_candidates (generate_board_helper example_pool 3) 1 2 [objective_A; objective_B]
      sample_loop_context (world0 []) = Returned (ExitBreak, c', w') ∧
    backtracks c' = 100%nat.
Proof.
  edestruct (backtrack_limit example_pool (generate_board_helper example_pool 3) 1 2
               objective_A [objective_B] sample_loop_context (world0 [])) as [Habort _].
  - vm_compute. reflexivity.
  - vm_compute. reflexivity.
  - destruct Habort as (w' & Hloop & _).
    + vm_compute. lia.
    + vm_compute. lia.
    + eexists _, w'. split; [exact Hloop | reflexivity].
Defined.

Lemma null_objective_difficulty_witness :
  generate_board example_pool 3 None loose_sums strict sample_world =
  generate_board example_pool 3 (Some Interval.safeIntegerRange) loose_sums strict sample_world ∧
  Interval.contains (objective_difficulty (initial_context 3 None loose_sums strict)) 7 = true.
Proof.
  destruct (null_objective_difficulty data 3 loose_sums strict sample_world) as (Hsame & _ & _ & Hall).
  - vm_compute. reflexivity.
  - split; [exact Hsame|]. apply (Hall (mkObjective 7 "W" ["w"])).
    apply list_elem_of_In. vm_compute. tauto.
Defined.

(** * Sample evaluations *)

Example narrow_none :
  map name (narrow_bingo_pool example_pool none (mkInterval 1 2) [["c"]] {[ "A" ]})
  = ["B"; "C"; "D"; "E"; "F"].
Proof. vm_compute. reflexivity. Qed.

Example narrow_partial :
  map name (narrow_bingo_pool example_pool partial (mkInterval 1 2) [["c"]] {[ "A" ]})
  = ["B"; "E"; "F"].
Proof. vm_compute. reflexivity. Qed.

Example narrow_partial_pair :
  map name (narrow_bingo_pool example_pool partial (mkInterval 1 2) [["c"; "d"]] {[ "A" ]})
  = ["B"; "C"; "E"; "F"].
Proof. vm_compute. reflexivity. Qed.

Example narrow_strict_pair :
  map name (narrow_bingo_pool example_pool strict (mkInterval 1 2) [["c"; "d"]] {[ "A" ]})
  = ["B"].
Proof. vm_compute. reflexivity. Qed.

Example constraints_last_cell :
  count_bingo_constraints sample_context 2 2 =
  Some (mkConstraints (mkInterval 2 3) [["d"]; ["a"]; ["c"; "d"]]).
Proof. vm_compute. reflexivity. Qed.

Example constraints_row_end :
  count_bingo_constraints sample_context 1 2 =
  Some (mkConstraints (mkInterval 1 2) [["e"; "f"]; ["c"; "d"]; ["d"]]).
Proof. vm_compute. reflexivity. Qed.

Example constraints_outside :
  count_bingo_constraints sample_context 3 0 = None.
Proof. vm_compute. reflexivity. Qed.

Example shuffle_three :
  (shuffle_array [objective_A; objective_B; mkObjective 1 "C" ["c"]] (world0 [4; 1]%nat)).1
  = [objective_A; mkObjective 1 "C" ["c"]; objective_B].
Proof. vm_compute. reflexivity. Qed.

(** The scenario of nine items, per-cell range [[1,3]], line sums in
    [[5,7]], strict tags: a board, with rows 5, 7 and 6. *)
Example nine_items_board :
  board_names (generate_board (pool_of nine_items) 3 (Some (mkInterval 1 3)) (mkInterval 5 7)
                 strict (world0 []))
  = Some [["B"; "C"; "H"]; ["G"; "D"; "E"]; ["A"; "I"; "F"]].
Proof. vm_compute. reflexivity. Qed.

(** The scenario of an unreachable line sum: a failure value, not an
    exception. *)
Example unreachable_sum_fails :
  ∃ msg w',
    generate_board (pool_of nine_items) 3 (Some (mkInterval 1 3)) unreachable_sums strict
      sample_world
    = Returned (IsError msg, w').
Proof. eexists _, _. vm_compute. reflexivity. Qed.

(** With [null] for the per-cell range the search goes two cells deep
    before the first row cannot reach the sum. *)
Example unreachable_sum_fails_null :
  run_console (generate_board example_pool 3 None unreachable_sums strict sample_world)
  = Some (false, [LogCell 2 9; LogCell 1 9]).
Proof. vm_compute. reflexivity. Qed.

(** * Further properties of the program *)

(** ** Intervals *)







(** X4.  A value lies in [intersection a b] exactly when it lies in both;
    [intersection] is commutative, associative and idempotent, and it
    returns its first argument when that one lies inside the second. *)
Theorem intersection_meet (a b c : Interval) :
  (∀ x, Interval.contains (Interval.intersection a b) x = true ↔
        Interval.contains a x = true ∧ Interval.contains b x = true) ∧
  Interval.intersection a b = Interval.intersection b a ∧
  Interval.intersection (Interval.intersection a b) c =
    Interval.intersection a (Interval.intersection b c) ∧
  Interval.intersection a a = a ∧
  (min b ≤ min a → max a ≤ max b → Interval.intersection a b = a).
Proof.
  split; [intros x; apply contains_intersection|].
  destruct a as [a1 a2], b as [b1 b2], c as [c1 c2].
  unfold Interval.intersection; simpl.
  repeat split; try (f_equal; lia).
  intros H1 H2. f_equal; lia.
Qed.

Lemma intersection_meet_witness :
  Interval.intersection (mkInterval 2 3) (mkInterval 1 5) = mkInterval 2 3.
Proof.
  apply (intersection_meet (mkInterval 2 3) (mkInterval 1 5) (mkInterval 0 0)); simpl; lia.
Defined.

(** X5.  [randomInt] returns [orElse], without a draw, on an empty
    interval; otherwise it takes one draw and returns a value between 0
    and [max - min]: the result is not shifted by [min], so it lies in the
    interval only if it happens to reach [min], and never when
    [max - min < min]. *)
Theorem randomInt_range (this : Interval) (orElse : Z) (w : World) :
  (max this < min this →
   randomInt this orElse w = (orElse, w)) ∧
  (min this ≤ max this →
   0 ≤ (randomInt this orElse w).1 ≤ max this - min this ∧
   (randomInt this orElse w).2 = (next_random w).2 ∧
   (max this - min this < min this →
    Interval.contains this (randomInt this orElse w).1 = false)).
Proof.
  unfold randomInt. split.
  - intros Hempty. by rewrite (proj2 (Z.ltb_lt _ _) Hempty).
  - intros Hne. rewrite (proj2 (Z.ltb_ge _ _) Hne).
    destruct (next_random w) as [r w1]. simpl.
    pose proof (Z.mod_pos_bound (Z.of_nat r) (max this + 1 - min this)) as Hmod.
    split; [lia|]. split; [done|].
    intros Hlow. unfold Interval.contains.
    apply andb_false_iff. left. apply Z.leb_gt. lia.
Qed.

Lemma randomInt_range_witness :
  0 ≤ (randomInt (mkInterval 10 14) 0 (world0 [7]%nat)).1 ≤ 14 - 10 ∧
  Interval.contains (mkInterval 10 14) (randomInt (mkInterval 10 14) 0 (world0 [7]%nat)).1
  = false.
Proof.
  destruct (randomInt_range (mkInterval 10 14) 0 (world0 [7]%nat)) as [_ H].
  destruct H as (Hr & _ & Hout); [simpl; lia|].
  split; [exact Hr|]. apply Hout. simpl. lia.
Defined.


(** ** Objectives and the candidate filter *)

(** X6.  An objective includes its own list of types, and every sub-list
    of it; it excludes its own types only when it has none; and it cannot
    both include and exclude a non-empty list. *)
Theorem own_types (obj : Objective) (T : list string) :
  includes_types obj (types obj) = true ∧
  ((∀ t, t ∈ T → t ∈ types obj) → includes_types obj T = true) ∧
  (excludes_types obj (types obj) = true ↔ types obj = []) ∧
  (T ≠ [] → includes_types obj T = true → excludes_types obj T = false).
Proof.
  split; [apply includes_types_spec; by intros t Ht|].
  split; [intros H; apply includes_types_spec; exact H|].
  split.
  - rewrite excludes_types_spec. unfold shares_a_tag. split.
    + intros Hnone. destruct (types obj) as [|t l] eqn:Hty; [done|].
      destruct Hnone. exists t. split; by left.
    + intros -> (t & Ht & _). by apply elem_of_nil in Ht.
  - intros Hne Hinc. apply includes_types_spec in Hinc.
    destruct (excludes_types obj T) eqn:Hexc; [|done].
    apply excludes_types_spec in Hexc. destruct Hexc.
    destruct T as [|t l]; [done|]. exists t. split; [by left|]. apply Hinc. by left.
Qed.

Lemma own_types_witness :
  includes_types objective_A ["a"] = true ∧ excludes_types objective_A ["a"] = false.
Proof.
  destruct (own_types objective_A ["a"]) as (_ & Hsub & _ & Hnot).
  assert (Hinc : includes_types objective_A ["a"] = true).
  { apply Hsub. intros t Ht. exact Ht. }
  split; [exact Hinc|]. apply Hnot; [discriminate | exact Hinc].
Defined.

(** X7.  The policies are nested: what [partial] keeps, [none] keeps; what
    [strict] keeps, [partial] keeps, provided no forbidden tag list is
    empty.  An empty forbidden tag list (an objective without types on a
    shared line) makes [partial] reject every candidate, while [strict]
    ignores it. *)
Theorem policies_nested (pool : list Objective) (itv : Interval)
    (forbidden : list (list string)) (used : gset string) :
  (∀ obj, obj ∈ narrow_bingo_pool pool partial itv forbidden used →
          obj ∈ narrow_bingo_pool pool none itv forbidden used) ∧
  ([] ∉ forbidden →
   ∀ obj, obj ∈ narrow_bingo_pool pool strict itv forbidden used →
          obj ∈ narrow_bingo_pool pool partial itv forbidden used) ∧
  ([] ∈ forbidden → narrow_bingo_pool pool partial itv forbidden used = []) ∧
  narrow_bingo_pool pool strict itv ([] :: forbidden) used =
    narrow_bingo_pool pool strict itv forbidden used.
Proof.
  split; [|split; [|split]].
  - intros obj. rewrite !elem_of_narrow_bingo_pool. simpl. tauto.
  - intros Hne obj. rewrite !elem_of_narrow_bingo_pool. simpl.
    intros (Hin & Hitv & Hused & Hstrict). repeat split; try done.
    intros T HT Hsup. apply (Hstrict T HT).
    destruct T as [|t l]; [done|]. exists t. split; [by left|]. apply Hsup. by left.
  - intros Hin. destruct (narrow_bingo_pool pool partial itv forbidden used) as [|obj l] eqn:Hn;
      [done|].
    assert (Hobj : obj ∈ narrow_bingo_pool pool partial itv forbidden used)
      by (rewrite Hn; by left).
    apply elem_of_narrow_bingo_pool in Hobj as (_ & _ & _ & Hpol). simpl in Hpol.
    destruct (Hpol [] Hin). intros t Ht. by apply elem_of_nil in Ht.
  - done.
Qed.

Lemma policies_nested_witness :
  narrow_bingo_pool example_pool partial (mkInterval 1 3) [["a"]; []] ∅ = [].
Proof.
  apply (policies_nested example_pool (mkInterval 1 3) [["a"]; []] ∅).
  right. left.
Defined.

(** ** The catalog *)

Lemma fold_min_le (l : list Objective) (acc : Z) :
  fold_left (fun acc obj => Z.min acc (tier obj)) l acc ≤ acc ∧
  (∀ o, o ∈ l → fold_left (fun acc obj => Z.min acc (tier obj)) l acc ≤ tier o) ∧
  (fold_left (fun acc obj => Z.min acc (tier obj)) l acc = acc ∨
   ∃ o, o ∈ l ∧ fold_left (fun acc obj => Z.min acc (tier obj)) l acc = tier o).
Proof.
  revert acc. induction l as [|x l IH]; intros acc; simpl.
  - split; [lia|]. split; [|by left]. intros o Ho. by apply elem_of_nil in Ho.
  - destruct (IH (Z.min acc (tier x))) as (Hle & Hall & Hatt). split; [lia|]. split.
    + intros o Ho. apply elem_of_cons in Ho as [->|Ho]; [lia | by apply Hall].
    + destruct Hatt as [Heq|(o & Ho & Heq)].
      * rewrite Heq. destruct (Z.min_spec acc (tier x)) as [[_ ->]|[_ ->]]; [by left|].
        right. exists x. split; [by left | done].
      * right. exists o. split; [by right | done].
Qed.

Lemma fold_max_ge (l : list Objective) (acc : Z) :
  acc ≤ fold_left (fun acc obj => Z.max acc (tier obj)) l acc ∧
  (∀ o, o ∈ l → tier o ≤ fold_left (fun acc obj => Z.max acc (tier obj)) l acc) ∧
  (fold_left (fun acc obj => Z.max acc (tier obj)) l acc = acc ∨
   ∃ o, o ∈ l ∧ fold_left (fun acc obj => Z.max acc (tier obj)) l acc = tier o).
Proof.
  revert acc. induction l as [|x l IH]; intros acc; simpl.
  - split; [lia|]. split; [|by left]. intros o Ho. by apply elem_of_nil in Ho.
  - destruct (IH (Z.max acc (tier x))) as (Hle & Hall & Hatt). split; [lia|]. split.
    + intros o Ho. apply elem_of_cons in Ho as [->|Ho]; [lia | by apply Hall].
    + destruct Hatt as [Heq|(o & Ho & Heq)].
      * rewrite Heq. destruct (Z.max_spec acc (tier x)) as [[_ ->]|[_ ->]]; [|by left].
        right. exists x. split; [by left | done].
      * right. exists o. split; [by right | done].
Qed.

(** X8.  [pool_of] lists the raw objectives group by group, in order, each
    with the index of its group as tier: an objective is in the pool
    exactly when its name and types stand in the group numbered by its
    tier. *)
Theorem pool_of_spec (data0 : list (list RawObjective)) :
  map name (pool_of data0) = map raw_name (concat data0) ∧
  map types (pool_of data0) = map raw_types (concat data0) ∧
  ∀ o, o ∈ pool_of data0 ↔
       ∃ t group, data0 !! t = Some group ∧ tier o = Z.of_nat t ∧
                  mkRaw (name o) (types o) ∈ group.
Proof.
  unfold pool_of.
  assert (Hgen : ∀ start,
            map name (pool_from start data0) = map raw_name (concat data0) ∧
            map types (pool_from start data0) = map raw_types (concat data0) ∧
            ∀ o, o ∈ pool_from start data0 ↔
                 ∃ t group, data0 !! t = Some group ∧ tier o = Z.of_nat (start + t) ∧
                            mkRaw (name o) (types o) ∈ group).
  { induction data0 as [|group rest IH]; intros start; simpl.
    - split; [done|]. split; [done|]. intros o. split.
      + intros Ho. by apply elem_of_nil in Ho.
      + intros (t & g & Hl & _). done.
    - destruct (IH (S start)) as (Hn & Hty & Hin).
      rewrite !map_app, !map_map, Hn, Hty. simpl. split; [done|]. split; [done|].
      intros o. rewrite elem_of_app, Hin. split.
      + intros [Ho|(t & g & Hl & Ht & Hraw)].
        * change (o ∈ (fun obj => mkObjective (Z.of_nat start) (raw_name obj) (raw_types obj))
                        <$> group) in Ho.
          apply list_elem_of_fmap in Ho as (raw & -> & Hraw).
          exists 0%nat, group. simpl. split; [done|]. split; [f_equal; lia|]. by destruct raw.
        * exists (S t), g. simpl. split; [done|]. split; [rewrite Ht; f_equal; lia | done].
      + intros (t & g & Hl & Ht & Hraw). destruct t as [|t]; simpl in Hl.
        * injection Hl as <-. left.
          change (o ∈ (fun obj => mkObjective (Z.of_nat start) (raw_name obj) (raw_types obj))
                        <$> group).
          apply list_elem_of_fmap. exists (mkRaw (name o) (types o)). split; [|done].
          destruct o as [ti na ty]. simpl in *. f_equal. rewrite Ht. f_equal. lia.
        * right. exists t, g. split; [done|]. split; [rewrite Ht; f_equal; lia | done]. }
  destruct (Hgen 0%nat) as (Hn & Hty & Hin). split; [done|]. split; [done|]. exact Hin.
Qed.

(** X9.  [MIN_TIER] and [MAX_TIER] bound the tier of every catalog item.
    For a non-empty catalog built from an array they are tiers of items
    (the least and the greatest); for an empty catalog they are the
    initial values [MAX_SAFE_INTEGER] and [-1], so [MAX_TIER < MIN_TIER]. *)
Theorem tier_bounds (data0 : list (list RawObjective)) :
  Z.of_nat (length data0) < 2 ^ 32 →
  (∀ o, o ∈ pool_of data0 → MIN_TIER (pool_of data0) ≤ tier o ≤ MAX_TIER (pool_of data0)) ∧
  (pool_of data0 ≠ [] →
   (∃ o, o ∈ pool_of data0 ∧ tier o = MIN_TIER (pool_of data0)) ∧
   (∃ o, o ∈ pool_of data0 ∧ tier o = MAX_TIER (pool_of data0))) ∧
  (pool_of data0 = [] →
   MIN_TIER (pool_of data0) = Interval.MAX_SAFE_INTEGER ∧ MAX_TIER (pool_of data0) = -1).
Proof.
  intros Hlen. unfold MIN_TIER, MAX_TIER.
  destruct (fold_min_le (pool_of data0) Interval.MAX_SAFE_INTEGER) as (_ & Hmin & Hminatt).
  destruct (fold_max_ge (pool_of data0) (-1)) as (_ & Hmax & Hmaxatt).
  split; [|split].
  - intros o Ho. split; [by apply Hmin | by apply Hmax].
  - intros Hne. destruct (pool_of data0) as [|x l] eqn:Hpool; [done|].
    assert (Hx : x ∈ pool_of data0) by (rewrite Hpool; by left).
    pose proof (pool_from_tier 0 data0 x Hx) as Htier.
    rewrite <- Hpool in *. clear Hpool.
    split.
    + destruct Hminatt as [Heq|(o & Ho & Heq)]; [|by exists o].
      specialize (Hmin x Hx). rewrite Heq in Hmin.
      unfold Interval.MAX_SAFE_INTEGER in Hmin. lia.
    + destruct Hmaxatt as [Heq|(o & Ho & Heq)]; [|by exists o].
      specialize (Hmax x Hx). rewrite Heq in Hmax. lia.
  - intros ->. done.
Qed.

Lemma tier_bounds_witness :
  MIN_TIER example_pool = 1 ∧ MAX_TIER example_pool = 7 ∧
  ∀ o, o ∈ example_pool → MIN_TIER example_pool ≤ tier o ≤ MAX_TIER example_pool.
Proof.
  destruct (tier_bounds data) as (Hall & _ & _); [vm_compute; reflexivity|].
  split; [reflexivity|]. split; [reflexivity|]. exact Hall.
Defined.

(** ** Shuffling *)

Lemma next_random_drop (w : World) : random (next_random w).2 = drop 1 (random w).
Proof. unfold next_random. by destruct (random w) eqn:Hw. Qed.

Lemma shuffle_loop_random (n : nat) (array : list Objective) (w : World) :
  random (shuffle_loop n array w).2 = drop n (random w).
Proof.
  revert array w. induction n as [|i IH]; intros array w; simpl; [by rewrite drop_0|].
  destruct (next_random w) as [r w1] eqn:Hr.
  pose proof (next_random_drop w) as Hd. rewrite Hr in Hd. simpl in Hd.
  by rewrite IH, Hd, drop_drop.
Qed.

(** X10.  [shuffle_array] returns a permutation of the array (the same
    items, each as often, the same length) whatever the random source
    yields, and takes one draw per element. *)
Theorem shuffle_array_permutes (array : list Objective) (w : World) :
  (shuffle_array array w).1 ≡ₚ array ∧
  length (shuffle_array array w).1 = length array ∧
  random (shuffle_array array w).2 = drop (length array) (random w) ∧
  console (shuffle_array array w).2 = console w.
Proof.
  unfold shuffle_array.
  destruct (shuffle_loop_spec (length array) array w) as (Hp & Hc & _).
  split; [done|]. split; [by rewrite Hp|]. split; [apply shuffle_loop_random | done].
Qed.


(** ** The constraint calculator *)

Lemma line_in_range (n : nat) (line : nat → nat * nat) (i : nat) :
  line ∈ all_lines n → (i < n)%nat → ((line i).1 < n)%nat ∧ ((line i).2 < n)%nat.
Proof.
  unfold all_lines. rewrite !elem_of_app.
  change (map row_line (seq 0 n)) with (row_line <$> seq 0 n).
  change (map col_line (seq 0 n)) with (col_line <$> seq 0 n).
  rewrite !list_elem_of_fmap, !elem_of_cons, elem_of_nil.
  intros [(r & -> & Hr)|[(c & -> & Hc)|[->|[->|[]]]]] Hi;
    rewrite ?elem_of_seq in *; unfold row_line, col_line, diag_line, anti_line; simpl; lia.
Qed.

(** X11.  The calculator never prunes a tier that a valid completion
    uses: if the board can be completed (every cell an objective with a
    tier from 0 on inside [objective_difficulty], the placed cells
    unchanged) so that every line through the target sums inside
    [bingo_difficulty] and to at most [2 ^ 53], then the tier the
    completion puts on the target lies in the interval returned, whatever
    rounding the bounds have gone through. *)
Theorem no_under_pruning (context : GeneratorContext) (row col : nat) (b' : Board) :
  let n := size context in
  grid n (board context) → (row < n)%nat → (col < n)%nat →
  (∀ r c, (r < n)%nat → (c < n)%nat →
     (∀ o, cell_at (board context) (r, c) = CObj o → cell_at b' (r, c) = CObj o) ∧
     ∃ o', cell_at b' (r, c) = CObj o' ∧ 0 ≤ tier o' ∧
           Interval.contains (objective_difficulty context) (tier o') = true) →
  (∀ line, line ∈ lines_through n row col →
           Interval.contains (bingo_difficulty context) (line_sum b' n line) = true ∧
           line_sum b' n line ≤ 2 ^ 53) →
  ∃ cs, Double.count_bingo_constraints context row col = Some cs ∧
        Interval.contains (tier_interval cs) (tier_at b' (row, col)) = true.
Proof.
  intros n Hg Hr Hc Hcompl Hsums.
  eexists. split; [by apply double_count_bingo_constraints_grid|]. simpl. fold n.
  assert (Htier : ∀ r c, (r < n)%nat → (c < n)%nat →
            0 ≤ tier_at b' (r, c) ∧
            Interval.contains (objective_difficulty context) (tier_at b' (r, c)) = true).
  { intros r c Hr' Hc'. destruct (Hcompl r c Hr' Hc') as [_ (o' & Ho' & Hpos & Hin)].
    unfold tier_at. by rewrite Ho'. }
  unfold Double.admissible_interval. apply contains_fold_intersection.
  split; [by apply Htier|].
  intros itv Hitv. change (map ?f ?l) with (f <$> l) in Hitv.
  apply list_elem_of_fmap in Hitv as (line & -> & Hline).
  unfold Double.remaining_interval.
  pose proof (lines_through_all n row col line Hr Hc Hline) as Hall.
  destruct (Hsums line Hline) as [Hsum Hmax]. unfold line_sum in Hsum, Hmax.
  rewrite (sumZ_split (tier_at b') (tier_at b') (row, col)) in Hsum, Hmax.
  - apply (double_fold_sub_sound (board context) b'); [|by apply Htier|done..].
    intros rc Hrc. apply elem_of_others in Hrc as (_ & i & Hi & ->).
    destruct (line_in_range n line i Hall Hi) as [Hr' Hc'].
    destruct (line i) as [r c] eqn:Hli. simpl in *.
    destruct (Hcompl r c Hr' Hc') as [Hkeep _].
    split; [by apply Htier|].
    destruct (cell_at (board context) (r, c)) as [|o|] eqn:Hcell; simpl;
      try (by apply Htier).
    unfold tier_at. rewrite (Hkeep o eq_refl).
    apply contains_spec. simpl. lia.
  - apply NoDup_line_cells. by apply (line_inj n).
  - unfold lines_through in Hline. rewrite !elem_of_app, !elem_of_cons in Hline.
    apply elem_of_line_cells.
    destruct Hline as [[->|[->|H]]|[H|H]].
    + by exists col.
    + by exists row.
    + by apply elem_of_nil in H.
    + destruct (decide (row = col)) as [->|]; [|by apply elem_of_nil in H].
      apply list_elem_of_singleton in H as ->. by exists col.
    + destruct (decide (Z.of_nat row + Z.of_nat col = Z.of_nat n - 1)) as [Ha|];
        [|by apply elem_of_nil in H].
      apply list_elem_of_singleton in H as ->. exists row. split; [done|].
      unfold anti_line. f_equal. lia.
  - done.
  - apply NoDup_line_cells. by apply (line_inj n).
  - unfold lines_through in Hline. rewrite !elem_of_app, !elem_of_cons in Hline.
    apply elem_of_line_cells.
    destruct Hline as [[->|[->|H]]|[H|H]].
    + by exists col.
    + by exists row.
    + by apply elem_of_nil in H.
    + destruct (decide (row = col)) as [->|]; [|by apply elem_of_nil in H].
      apply list_elem_of_singleton in H as ->. by exists col.
    + destruct (decide (Z.of_nat row + Z.of_nat col = Z.of_nat n - 1)) as [Ha|];
        [|by apply elem_of_nil in H].
      apply list_elem_of_singleton in H as ->. exists row. split; [done|].
      unfold anti_line. f_equal. lia.
  - done.
Qed.

Lemma scan_line_throws (b : Board) (od : Interval) (coord : nat → nat * nat)
    (skip : nat) (indices : list nat) (acc : Interval * list (list string)) (i : nat) :
  i ∈ indices → i ≠ skip → board_get b (coord i).1 (coord i).2 = None →
  scan_line b od coord skip indices acc = None.
Proof.
  revert acc. induction indices as [|j rest IH]; intros acc Hin Hne Hget.
  - by apply elem_of_nil in Hin.
  - simpl. destruct (decide (j = skip)) as [->|Hj].
    + apply IH; [|done..]. apply elem_of_cons in Hin as [->|Hin]; done.
    + destruct (decide (j = i)) as [->|Hji].
      * by rewrite Hget.
      * destruct (board_get b (coord j).1 (coord j).2) as [cell|]; [|done].
        destruct (scan_cell od cell acc) as [acc'|]; [|done].
        apply IH; [|done..]. apply elem_of_cons in Hin as [->|Hin]; done.
Qed.

(** X12.  Asked about a row the board does not have, on a board side of
    at least two, [count_bingo_constraints] throws (it reads a cell of
    that row); so does it when a cell of the target's row, other than the
    target, is [undefined]. *)
Theorem constraints_outside_board (context : GeneratorContext) (row col : nat) :
  (2 ≤ size context)%nat →
  (length (board context) ≤ row)%nat ∨
  (∃ i, (i < size context)%nat ∧ i ≠ col ∧
        board_get (board context) row i = Some CUndefined) →
  count_bingo_constraints context row col = None.
Proof.
  intros Hsize Hout. unfold count_bingo_constraints.
  destruct Hout as [Hout|(i & Hi & Hne & Hget)].
  - rewrite (scan_line_throws _ _ _ _ _ _ (if decide (col = 0%nat) then 1%nat else 0%nat)); [done| | |].
    + apply elem_of_seq. case_decide; lia.
    + case_decide; lia.
    + simpl. unfold board_get. by rewrite lookup_ge_None_2.
  - assert (Hscan : ∀ indices acc, i ∈ indices →
              scan_line (board context) (objective_difficulty context) (fun i => (row, i)) col
                indices acc = None).
    { induction indices as [|j rest IH]; intros acc Hin; [by apply elem_of_nil in Hin|].
      simpl. destruct (decide (j = col)) as [->|Hj].
      - apply IH. apply elem_of_cons in Hin as [->|Hin]; done.
      - destruct (decide (j = i)) as [->|Hji].
        + by rewrite Hget.
        + destruct (board_get (board context) row j) as [cell|]; [|done].
          destruct (scan_cell _ cell acc) as [acc'|]; [|done].
          apply IH. apply elem_of_cons in Hin as [->|Hin]; done. }
    rewrite Hscan; [done|]. apply elem_of_seq. lia.
Qed.

Lemma constraints_outside_board_witness :
  count_bingo_constraints sample_context 3 0 = None.
Proof.
  apply constraints_outside_board.
  - simpl. lia.
  - left. simpl. lia.
Defined.


Lemma no_under_pruning_witness :
  ∃ cs, Double.count_bingo_constraints sample_context 1 2 = Some cs ∧
        Interval.contains (tier_interval cs) 1 = true.
Proof.
  apply (no_under_pruning sample_context 1 2 sample_completion).
  - split; [reflexivity|]. repeat constructor; done.
  - simpl. lia.
  - simpl. lia.
  - intros r c Hr Hc. simpl in Hr, Hc.
    destruct r as [|[|[|r]]]; [| | |lia]; (destruct c as [|[|[|c]]]; [| | |lia]);
      (split; [intros o Ho; vm_compute in Ho; vm_compute; congruence
              | eexists; split; [vm_compute; reflexivity|];
                split; [vm_compute; discriminate | vm_compute; reflexivity]]).
  - intros line Hl. apply list_elem_of_In in Hl. vm_compute in Hl.
    destruct Hl as [<-|[<-|[]]]; (split; [vm_compute; reflexivity | vm_compute; discriminate]).
Defined.


(** ** The engine: properties kept by every placement *)

Lemma helper_result_post (bingo_pool : list Objective) (fuel : nat)
    (c : GeneratorContext) (w : World) (x : bool * GeneratorContext * World) :
  entry_ok c →
  generate_board_helper bingo_pool fuel c w = Returned x →
  helper_post c (c :: invocations w) (Returned x).
Proof.
  intros Hentry Hrun.
  apply (generate_board_helper_mono bingo_pool fuel (fuel + S (size c * size c))) in Hrun; [|lia].
  rewrite <- Hrun. apply generate_board_helper_spec; [done | lia].
Qed.

Section Kept.

Variable bingo_pool : list Objective.

(** A property of the board (given the size and the policy), which placing
    a candidate of the filtered pool keeps. *)
Variable P : GeneratorContext → Prop.

Hypothesis P_frame : ∀ c c',
  board c' = board c → size c' = size c → type_exclusivity c' = type_exclusivity c →
  P c → P c'.

Hypothesis P_place : ∀ c o b',
  context_inv c → P c → (depth c < size c * size c)%nat →
  o ∈ narrow_bingo_pool bingo_pool (type_exclusivity c)
        (admissible_interval (board c) (size c) (objective_difficulty c)
           (bingo_difficulty c) (depth c / size c) (depth c mod size c))
        (pushed_types (board c) (size c) (depth c / size c) (depth c mod size c))
        (objective_names c) →
  board_set (board c) (depth c / size c) (depth c mod size c) (CObj o) = Some b' →
  P (with_board c b').

Lemma try_candidates_keeps
    (recur : GeneratorContext → World → outcome (bool * GeneratorContext * World))
    (base : GeneratorContext) :
  let n := size base in
  let row := (depth base / n)%nat in
  let col := (depth base mod n)%nat in
  context_inv base → P base → (depth base < n * n)%nat →
  (∀ c w x, entry_ok c → recur c w = Returned x →
            helper_post c (c :: invocations w) (Returned x)) →
  (∀ c w c' w', entry_ok c → P c → recur c w = Returned (true, c', w') → P c') →
  ∀ pool c w c' w',
    (∀ o, o ∈ pool →
          o ∈ narrow_bingo_pool bingo_pool (type_exclusivity base)
                (admissible_interval (board base) n (objective_difficulty base)
                   (bingo_difficulty base) row col)
                (pushed_types (board base) n row col) (objective_names base)) →
    loop_state base row col c → (backtracks c < BACKTRACK_LIMIT)%nat →
    try_candidates recur row col pool c w = Returned (ExitReturnTrue, c', w') →
    P c'.
Proof.
  intros n row col Hinv HP Hlt Hpost Hkeep.
  destruct (position_of_depth n (depth base) Hlt) as (Hr & Hc & Hpos).
  pose proof (inv_grid _ _ _ _ _ _ Hinv) as Hg. fold n in Hg.
  induction pool as [|o rest IH]; intros c w c' w' Hpool Hstate Hbt; simpl; [done|].
  destruct Hstate as (Hpar & Hdepth & Hnames & v & Hv).
  pose proof (Hpool o ltac:(by left)) as Ho.
  pose proof Ho as Ho'. apply elem_of_narrow_bingo_pool in Ho' as (_ & Hadm & Hfresh & _).
  destruct (board_set_in_grid n (board base) row col (CObj o) Hg Hr Hc)
    as (line & _ & _ & Hset).
  rewrite (board_set_twice n (board base) (board c) row col v (CObj o) Hg Hr Hc Hv).
  rewrite Hset. set (b1 := <[row := <[col := CObj o]> line]> (board base)) in *.
  set (c1 := with_objective_names (with_board c b1) _).
  assert (Hpar1 : same_parameters base c1) by (by destruct Hpar as (? & ? & ? & ?)).
  assert (Hinv1 : context_inv c1).
  { unfold context_inv, c1; simpl. destruct Hpar as (-> & -> & -> & _).
    rewrite Hdepth, Hnames.
    apply (place_inv (board base)); [exact Hinv | exact Hlt | exact Hset | exact Hadm | exact Hfresh]. }
  assert (Hentry1 : entry_ok c1) by (by split).
  assert (HP1 : P c1).
  { apply (P_frame (with_board base b1)); [done| | |].
    - simpl. by destruct Hpar as (-> & _).
    - simpl. by destruct Hpar as (_ & _ & _ & ->).
    - by apply (P_place base o b1). }
  destruct (recur c1 w) as [[[r c2] w2]| |] eqn:Hcall; [|done..].
  destruct r.
  - intros [= <- <-]. by apply (Hkeep c1 w c2 w2).
  - destruct (Hpost c1 w _ Hentry1 Hcall) as (r0 & c2' & w2' & Heq & Hpar2 & _ & Hres).
    injection Heq as <- <- <-. destruct Hres as (Hb2 & Hd2 & Hn2).
    set (c3 := with_objective_names (with_backtracks c2 (S (backtracks c2))) _).
    assert (Hstate3 : ∀ k, loop_state base row col (with_backtracks c3 k)).
    { intros k. split; [|split; [|split]].
      - unfold c3. destruct Hpar2 as (? & ? & ? & ?), Hpar1 as (? & ? & ? & ?).
        repeat split; simpl; congruence.
      - simpl. by rewrite Hd2.
      - simpl. rewrite Hn2. unfold c1; simpl. rewrite Hnames. by apply add_delete_fresh.
      - exists (CObj o). simpl. by rewrite Hb2. }
    assert (Hstate3' : loop_state base row col c3).
    { specialize (Hstate3 (backtracks c3)). by destruct c3. }
    assert (Hrest : ∀ o', o' ∈ rest →
              o' ∈ narrow_bingo_pool bingo_pool (type_exclusivity base)
                     (admissible_interval (board base) n (objective_difficulty base)
                        (bingo_difficulty base) row col)
                     (pushed_types (board base) n row col) (objective_names base)).
    { intros o' Ho''. apply Hpool. by right. }
    destruct (decide (5 < depth c2)%nat).
    + destruct (decide (BACKTRACK_LIMIT ≤ S (backtracks c2))%nat); [done|].
      apply IH; [done..|]. simpl. lia.
    + apply IH; [done..|]. simpl. unfold BACKTRACK_LIMIT. lia.
Qed.

Lemma generate_board_helper_keeps (fuel : nat) (c : GeneratorContext) (w : World)
    (c' : GeneratorContext) (w' : World) :
  entry_ok c → P c →
  generate_board_helper bingo_pool fuel c w = Returned (true, c', w') → P c'.
Proof.
  revert c w c' w'. induction fuel as [|fuel IH]; intros c w c' w' Hentry HP; [done|].
  simpl.
  assert (Hbody : ∀ k w0,
            helper_body bingo_pool (generate_board_helper bingo_pool fuel)
              (with_depth_record c k) w0 = Returned (true, c', w') → P c').
  { intros k w0. unfold helper_body. simpl.
    destruct Hentry as [Hinv Hbt].
    case_decide as Hfull.
    { intros [= <- <-]. by apply (P_frame c). }
    assert (Hlt : (depth c < size c * size c)%nat) by lia.
    destruct (position_of_depth _ _ Hlt) as (Hr & Hc & Hpos).
    pose proof (inv_grid _ _ _ _ _ _ Hinv) as Hg.
    rewrite (count_bingo_constraints_grid (with_depth_record c k) _ _ Hg Hr Hc). simpl.
    case_decide; [done|].
    destruct (shuffle_array _ w0) as [pool w1] eqn:Hsh.
    apply shuffle_array_spec in Hsh as (Hperm & _ & _).
    destruct (try_candidates _ _ _ pool _ w1) as [[[exit c2] w2]| |] eqn:Hloop; [|done..].
    destruct exit; simpl.
    - intros [= <- <-].
      assert (HP0 : P (with_depth_record c k)) by (by apply (P_frame c)).
      assert (Hpost : ∀ c1 w3 x, entry_ok c1 →
                generate_board_helper bingo_pool fuel c1 w3 = Returned x →
                helper_post c1 (c1 :: invocations w3) (Returned x)).
      { intros c1 w3 x Hentry1 Hrun. by apply (helper_result_post bingo_pool fuel). }
      assert (Hkeep : ∀ c1 w3 c3 w4, entry_ok c1 → P c1 →
                generate_board_helper bingo_pool fuel c1 w3 = Returned (true, c3, w4) → P c3).
      { intros c1 w3 c3 w4 Hentry1 HP1 Hrun. by apply (IH c1 w3 c3 w4). }
      pose proof (try_candidates_keeps (generate_board_helper bingo_pool fuel)
                    (with_depth_record c k) Hinv HP0 Hlt Hpost Hkeep pool
                    (with_depth (with_depth_record c k) (S (depth c))) w1 c2 w2) as Hk.
      simpl in Hk. apply Hk.
      + intros o Ho. by rewrite Hperm in Ho.
      + split; [by repeat split|]. split; [done|]. split; [done|].
        exists (cell_at (board c) ((depth c / size c)%nat, (depth c mod size c)%nat)).
        by apply (board_set_same (size c)).
      + exact Hbt.
      + exact Hloop.
    - destruct (board_set _ _ _ CNull); done.
    - destruct (board_set _ _ _ CNull); done. }
  case_decide; [apply Hbody|].
  intros Hrun. apply (Hbody (depth_record c) (enter w c)). by destruct c.
Qed.

(** The property holds on every board [generate_board] returns, if it
    holds on the empty board. *)
Lemma generate_board_keeps (size : nat) (od : option Interval) (bd : Interval)
    (te : TypeExclusivity) (w : World) (b : Board) (w' : World) :
  P (initial_context size od bd te) →
  generate_board bingo_pool size od bd te w = Returned (IsBoard b, w') →
  ∃ c', board c' = b ∧ context_inv c' ∧ P c' ∧
        same_parameters (initial_context size od bd te) c' ∧
        depth c' = (size * size)%nat.
Proof.
  intros HP Hrun.
  destruct (generate_board_outcome bingo_pool size od bd te w)
    as (r & c' & w1 & Hhelper & Hgen & Hpar & _ & Hres).
  rewrite Hgen in Hrun. destruct r; [|done]. injection Hrun as <- <-.
  destruct Hres as [Hinv Hd]; [done|].
  exists c'. split; [done|]. split; [done|]. split; [|done].
  assert (Hentry : entry_ok (initial_context size od bd te)).
  { split; [apply initial_context_inv|]. simpl. unfold BACKTRACK_LIMIT. lia. }
  exact (generate_board_helper_keeps _ _ _ _ _ Hentry HP Hhelper).
Qed.

End Kept.


Lemma occupied_in_grid (n : nat) (b : Board) (rc : nat * nat) (o : Objective) :
  grid n b → cell_at b rc = CObj o → (rc.1 < n)%nat ∧ (rc.2 < n)%nat.
Proof.
  intros [Hlen Hall] Hcell. unfold cell_at, board_get in Hcell.
  destruct (b !! rc.1) as [line|] eqn:Hline; [|done]. simpl in Hcell.
  destruct (line !! rc.2) as [c|] eqn:Hc; [|done].
  rewrite Forall_forall in Hall.
  destruct (Hall line) as [Hl _]; [by eapply list_elem_of_lookup_2|].
  apply lookup_lt_Some in Hline, Hc. lia.
Qed.

Lemma shares_line_sym (n : nat) (p q : nat * nat) :
  shares_line n p q = shares_line n q p.
Proof.
  unfold shares_line. destruct p as [r1 c1], q as [r2 c2]; simpl.
  repeat case_bool_decide; simpl; try done; lia.
Qed.

Lemma from_catalog_kept (bingo_pool : list Objective) (size0 : nat) (od : option Interval)
    (bd : Interval) (te : TypeExclusivity) (w : World) (b : Board) (w' : World) :
  generate_board bingo_pool size0 od bd te w = Returned (IsBoard b, w') →
  ∃ c', board c' = b ∧ context_inv c' ∧ from_catalog bingo_pool c' ∧
        same_parameters (initial_context size0 od bd te) c' ∧
        depth c' = (size0 * size0)%nat.
Proof.
  apply (generate_board_keeps bingo_pool (from_catalog bingo_pool)).
  - intros c c' Hb _ _ HP rc o. rewrite Hb. apply HP.
  - intros c o b' Hinv HP Hlt Ho Hset rc o'. simpl.
    destruct (position_of_depth _ _ Hlt) as (Hr & Hc & _).
    rewrite (cell_at_set _ _ _ _ _ _ rc (inv_grid _ _ _ _ _ _ Hinv) Hr Hc Hset).
    case_decide; [|apply HP]. intros [= <-].
    apply elem_of_narrow_bingo_pool in Ho. tauto.
  - intros rc o. simpl. rewrite cell_at_new_board. by case_decide.
Qed.

Lemma tags_respected_kept (bingo_pool : list Objective) (size0 : nat) (od : option Interval)
    (bd : Interval) (te : TypeExclusivity) (w : World) (b : Board) (w' : World) :
  generate_board bingo_pool size0 od bd te w = Returned (IsBoard b, w') →
  ∃ c', board c' = b ∧ context_inv c' ∧ tags_respected c' ∧
        same_parameters (initial_context size0 od bd te) c' ∧
        depth c' = (size0 * size0)%nat.
Proof.
  apply (generate_board_keeps bingo_pool tags_respected).
  - intros c c' Hb Hn Hte HP p q op oq. rewrite Hb, Hn, Hte. apply HP.
  - intros c o b' Hinv HP Hlt Ho Hset p q op oq. simpl.
    destruct (position_of_depth _ _ Hlt) as (Hr & Hc & Hpos).
    pose proof (inv_grid _ _ _ _ _ _ Hinv) as Hg.
    rewrite !(cell_at_set _ _ _ _ _ _ _ Hg Hr Hc Hset).
    set (row := (depth c / size c)%nat) in *.
    destruct (decide (q = (row, depth c mod size c)%nat)) as [->|Hq].
    + (* the new objective against an earlier one *)
      destruct (decide (p = (row, depth c mod size c)%nat)) as [->|Hp];
        [unfold position; lia|].
      intros Hop [= <-] _ Hshare.
      apply elem_of_narrow_bingo_pool in Ho as (_ & _ & _ & Hpol).
      assert (Hin : types op ∈ pushed_types (board c) (size c) row (depth c mod size c)).
      { rewrite pushed_types_forbidden by done. unfold forbidden_tag_sets.
        apply elem_of_flat_map. exists p. rewrite Hop. split; [|by left].
        apply elem_of_List_filter. split.
        - apply elem_of_grid_cells. by apply (occupied_in_grid _ (board c) p op).
        - rewrite andb_true_iff, negb_true_iff, bool_decide_eq_false. done. }
      destruct (type_exclusivity c); simpl in *; [| |done];
        intros T HT; apply list_elem_of_singleton in HT as ->; by apply Hpol.
    + (* no objective lies past the new one *)
      destruct (decide (p = (row, depth c mod size c)%nat)) as [->|Hp]; [|by apply HP].
      intros _ Hoq Hpq _. exfalso.
      destruct (occupied_in_grid _ _ _ _ Hg Hoq) as [Hqr Hqc].
      destruct q as [qr qc]. unfold position in Hpq; simpl in *.
      rewrite (inv_null _ _ _ _ _ _ Hinv qr qc Hqr Hqc) in Hoq; [done | lia].
  - intros p q op oq. simpl. rewrite cell_at_new_board. by case_decide.
Qed.


(** X13.  Every objective on a board [generate_board] returns is an item
    of the catalog. *)
Theorem board_from_catalog (bingo_pool : list Objective) (size0 : nat)
    (od : option Interval) (bd : Interval) (te : TypeExclusivity) (w : World)
    (b : Board) (w' : World) :
  generate_board bingo_pool size0 od bd te w = Returned (IsBoard b, w') →
  ∀ rc o, cell_at b rc = CObj o → o ∈ bingo_pool.
Proof.
  intros Hrun. destruct (from_catalog_kept _ _ _ _ _ _ _ _ Hrun) as (c' & <- & _ & Hcat & _).
  exact Hcat.
Qed.

Lemma board_from_catalog_witness :
  ∃ b w' o,
    generate_board example_pool 2 None loose_sums none sample_world = Returned (IsBoard b, w') ∧
    cell_at b (1%nat, 0%nat) = CObj o ∧ o ∈ example_pool.
Proof.
  assert (Hrun : ∃ b w' o,
            generate_board example_pool 2 None loose_sums none sample_world
            = Returned (IsBoard b, w') ∧ cell_at b (1%nat, 0%nat) = CObj o).
  { eexists _, _, _. split; vm_compute; reflexivity. }
  destruct Hrun as (b & w' & o & Hrun & Hcell).
  exists b, w', o. split; [exact Hrun|]. split; [exact Hcell|].
  exact (board_from_catalog _ _ _ _ _ _ _ _ Hrun _ _ Hcell).
Defined.

(** X14.  On a board [generate_board] returns, two objectives on a common
    line share no tag under [strict]; under [partial] the tags of the one
    placed later (in row-major order) are not a superset of the tags of
    the one placed earlier (nothing is said the other way round). *)
Theorem board_tag_policy (bingo_pool : list Objective) (size0 : nat)
    (od : option Interval) (bd : Interval) (te : TypeExclusivity) (w : World)
    (b : Board) (w' : World) :
  generate_board bingo_pool size0 od bd te w = Returned (IsBoard b, w') →
  ∀ p q op oq,
    cell_at b p = CObj op → cell_at b q = CObj oq →
    p ≠ q → shares_line size0 p q = true →
    match te with
    | strict => ¬ ∃ t, t ∈ types op ∧ t ∈ types oq
    | partial => (position size0 p < position size0 q)%nat → ¬ superset_of oq (types op)
    | none => True
    end.
Proof.
  intros Hrun p q op oq Hp Hq Hne Hshare.
  destruct (tags_respected_kept _ _ _ _ _ _ _ _ Hrun)
    as (c' & <- & Hinv & Htags & (Hsize & _ & _ & Hte) & _).
  simpl in Hsize, Hte. unfold tags_respected in Htags. rewrite Hsize, Hte in Htags.
  pose proof (inv_grid _ _ _ _ _ _ Hinv) as Hg. rewrite Hsize in Hg.
  destruct te; [| |done].
  - intros (t & Htp & Htq).
    destruct (occupied_in_grid _ _ _ _ Hg Hp) as [_ Hpc].
    destruct (occupied_in_grid _ _ _ _ Hg Hq) as [_ Hqc].
    destruct (Nat.lt_trichotomy (position size0 p) (position size0 q)) as [Hlt|[Heq|Hlt]].
    + rewrite shares_line_sym in Hshare.
      apply (Htags p q op oq Hp Hq Hlt Hshare (types op)); [by left|]. by exists t.
    + unfold position in Heq. destruct p, q. simpl in *.
      apply position_unique in Heq as [-> ->]; done.
    + apply (Htags q p oq op Hq Hp Hlt Hshare (types oq)); [by left|]. by exists t.
  - intros Hlt. rewrite shares_line_sym in Hshare.
    apply (Htags p q op oq Hp Hq Hlt Hshare (types op)). by left.
Qed.

Lemma board_tag_policy_witness :
  ∃ b w' op oq,
    generate_board example_pool 2 None loose_sums strict sample_world
      = Returned (IsBoard b, w') ∧
    cell_at b (0%nat, 0%nat) = CObj op ∧ cell_at b (1%nat, 1%nat) = CObj oq ∧
    ¬ ∃ t, t ∈ types op ∧ t ∈ types oq.
Proof.
  assert (Hrun : ∃ b w' op oq,
            generate_board example_pool 2 None loose_sums strict sample_world
              = Returned (IsBoard b, w') ∧
            cell_at b (0%nat, 0%nat) = CObj op ∧ cell_at b (1%nat, 1%nat) = CObj oq).
  { eexists _, _, _, _. split; [vm_compute; reflexivity|]. split; vm_compute; reflexivity. }
  destruct Hrun as (b & w' & op & oq & Hrun & Hp & Hq).
  exists b, w', op, oq. split; [exact Hrun|]. split; [exact Hp|]. split; [exact Hq|].
  apply (board_tag_policy _ _ _ _ _ _ _ _ Hrun (0%nat, 0%nat) (1%nat, 1%nat) op oq Hp Hq).
  - discriminate.
  - reflexivity.
Defined.

Lemma length_product {A : Type} (g : nat → nat → A) (rows cols : list nat) :
  length (flat_map (fun r => map (g r) cols) rows) = (length rows * length cols)%nat.
Proof.
  induction rows as [|r rows IH]; simpl; [done|].
  by rewrite length_app, length_map, IH.
Qed.

(** X15.  A board has as many objectives as cells, all different and all
    from the catalog: [generate_board] returns a board only if the
    catalog has at least [size * size] items, and an [Error] otherwise. *)
Theorem catalog_too_small (bingo_pool : list Objective) (size0 : nat)
    (od : option Interval) (bd : Interval) (te : TypeExclusivity) (w : World) :
  (∀ b w', generate_board bingo_pool size0 od bd te w = Returned (IsBoard b, w') →
           (size0 * size0 ≤ length bingo_pool)%nat) ∧
  ((length bingo_pool < size0 * size0)%nat →
   ∃ msg w', generate_board bingo_pool size0 od bd te w = Returned (IsError msg, w')).
Proof.
  assert (Hboard : ∀ b w',
            generate_board bingo_pool size0 od bd te w = Returned (IsBoard b, w') →
            (size0 * size0 ≤ length bingo_pool)%nat).
  { intros b w' Hrun.
    destruct (from_catalog_kept _ _ _ _ _ _ _ _ Hrun)
      as (c' & <- & Hinv & Hcat & (Hsize & _) & Hd).
    simpl in Hsize. unfold context_inv in Hinv. rewrite Hsize, Hd in Hinv.
    assert (Hfilled : ∀ rc, rc ∈ grid_cells size0 →
              cell_at (board c') rc = CObj (objective_at (board c') rc)).
    { intros [r c] Hrc. apply elem_of_grid_cells in Hrc as [Hr Hc]. simpl in *.
      destruct (inv_filled _ _ _ _ _ _ Hinv r c Hr Hc) as [o Ho].
      - pose proof (Nat.mul_le_mono_r (S r) size0 size0 Hr). lia.
      - unfold objective_at. by rewrite Ho. }
    assert (Hlen : length (objective_at (board c') <$> grid_cells size0)
                   = (size0 * size0)%nat).
    { rewrite length_fmap. unfold grid_cells.
      by rewrite (length_product (fun r c => (r, c))), !length_seq. }
    rewrite <- Hlen. apply submseteq_length, NoDup_submseteq.
    - apply NoDup_fmap_2_strong; [|apply NoDup_grid_cells].
      intros rc1 rc2 H1 H2 Heq.
      apply (inv_distinct _ _ _ _ _ _ Hinv rc1 rc2 _ _ (Hfilled rc1 H1) (Hfilled rc2 H2)).
      by rewrite Heq.
    - intros o Ho. apply list_elem_of_fmap in Ho as (rc & -> & Hrc).
      apply (Hcat rc). by apply Hfilled. }
  split; [exact Hboard|]. intros Hsmall.
  destruct (generate_board_outcome bingo_pool size0 od bd te w)
    as (r & c' & w' & _ & Hgen & _).
  destruct r; [|by eexists _, _].
  specialize (Hboard _ _ Hgen). lia.
Qed.

Lemma catalog_too_small_witness :
  ∃ msg w',
    generate_board (pool_of nine_items) 4 None loose_sums none sample_world
    = Returned (IsError msg, w').
Proof.
  apply (catalog_too_small (pool_of nine_items) 4 None loose_sums none sample_world).
  vm_compute. lia.
Defined.

(** X16.  If no catalog item has its tier in the per-cell interval in
    force, [generate_board] (for a positive size) returns the [Error]
    after a single call of the engine, without a random draw and without
    logging. *)
Theorem no_admissible_tier (bingo_pool : list Objective) (size0 : nat)
    (od : option Interval) (bd : Interval) (te : TypeExclusivity) (w : World) :
  (0 < size0)%nat →
  (∀ o, o ∈ bingo_pool →
        Interval.contains (default Interval.safeIntegerRange od) (tier o) = false) →
  ∃ msg w',
    generate_board bingo_pool size0 od bd te w = Returned (IsError msg, w') ∧
    random w' = random w ∧ console w' = console w ∧
    invocations w' = initial_context size0 od bd te :: invocations w.
Proof.
  intros Hpos Hnone.
  set (c := initial_context size0 od bd te).
  assert (Hlt : (depth c < size c * size c)%nat) by (simpl; nia).
  destruct (position_of_depth _ _ Hlt) as (Hr & Hc & _).
  pose proof (count_bingo_constraints_grid c _ _ (grid_new_board size0) Hr Hc) as Hcs.
  assert (Hempty : narrow_bingo_pool bingo_pool te
            (admissible_interval (board c) (size c) (objective_difficulty c)
               (bingo_difficulty c) (depth c / size c) (depth c mod size c))
            (pushed_types (board c) (size c) (depth c / size c) (depth c mod size c))
            ∅ = []).
  { destruct (narrow_bingo_pool _ _ _ _ _) as [|o l] eqn:Hn; [done|].
    assert (Ho : o ∈ o :: l) by (by left). rewrite <- Hn in Ho.
    apply elem_of_narrow_bingo_pool in Ho as (Hin & Hitv & _).
    apply contains_admissible in Hitv as [Hod _]. simpl in Hod.
    by rewrite (Hnone o Hin) in Hod. }
  assert (Hhelper : generate_board_helper bingo_pool (S (size0 * size0)) c w
                    = Returned (false, c, enter w c)).
  { change (generate_board_helper bingo_pool (S (size0 * size0)) c w)
      with (helper_body bingo_pool (generate_board_helper bingo_pool (size0 * size0)) c
              (enter w c)).
    unfold helper_body. rewrite decide_False by lia. rewrite Hcs.
    change (objective_names c) with (∅ : gset string) in *.
    change (type_exclusivity c) with te in *.
    cbn [tier_interval exclude_types]. rewrite Hempty. done. }
  eexists _, (enter w c). unfold generate_board, generate_board_fuel. fold c.
  rewrite Hhelper. done.
Qed.

(** The program's own call: the example catalog has tiers 0 to 7, none in
    [[10, 14]]. *)
Lemma no_admissible_tier_witness :
  ∃ msg w',
    generate_board example_pool 5 (Some (mkInterval 10 14)) (mkInterval 50 70) strict
      sample_world = Returned (IsError msg, w') ∧
    random w' = random sample_world ∧ console w' = console sample_world ∧
    invocations w' =
      initial_context 5 (Some (mkInterval 10 14)) (mkInterval 50 70) strict
        :: invocations sample_world.
Proof.
  apply no_admissible_tier.
  - lia.
  - intros o Ho. apply list_elem_of_In in Ho. vm_compute in Ho.
    repeat (destruct Ho as [<-|Ho]; [reflexivity|]). destruct Ho.
Defined.


(** ** Writing the board *)

Lemma mapM_Some_map {A B : Type} (f : A → option B) (g : A → B) (l : list A) :
  (∀ x, x ∈ l → f x = Some (g x)) → mapM f l = Some (map g l).
Proof.
  induction l as [|x l IH]; intros Hall; simpl; [done|].
  rewrite (Hall x) by (by left). simpl. rewrite IH; [done|].
  intros y Hy. apply Hall. by right.
Qed.

Lemma mapM_None {A B : Type} (f : A → option B) (l : list A) (x : A) :
  x ∈ l → f x = None → mapM f l = None.
Proof.
  induction l as [|y l IH]; intros Hin Hx; [by apply elem_of_nil in Hin|].
  simpl. apply elem_of_cons in Hin as [<-|Hin].
  - by rewrite Hx.
  - destruct (f y); simpl; [|done]. by rewrite IH.
Qed.

Lemma save_board_json_full (n : nat) (b : Board) :
  grid n b → (0 < n)%nat →
  (∀ r c, (r < n)%nat → (c < n)%nat → ∃ o, cell_at b (r, c) = CObj o) →
  save_board_json b =
  Returned
    (String.concat EmptyString
       ["["; newline;
        String.concat (String.append "," newline) (map json_record (column_major_names b n));
        newline; "]"; newline]).
Proof.
  intros Hg Hpos Hfull. unfold save_board_json.
  destruct (grid_row n b 0 Hg Hpos) as (board0 & -> & Hlen0 & _).
  destruct Hg as [Hlen Hall]. rewrite Hlen, Hlen0. rewrite decide_True by done.
  rewrite (mapM_Some_map _ (fun row_idx => map (fun col_idx => cell_at b (col_idx, row_idx))
                                             (seq 0 n))).
  - rewrite (mapM_Some_map _ (fun cell => match cell with CObj o => name o | _ => EmptyString end)).
    + assert (Hnames :
        map (fun cell => match cell with CObj o => name o | _ => EmptyString end)
          (concat (map (fun row_idx => map (fun col_idx => cell_at b (col_idx, row_idx))
                                         (seq 0 n)) (seq 0 n)))
        = column_major_names b n).
      { unfold column_major_names.
        rewrite concat_map, flat_map_concat_map, map_map. f_equal.
        apply List.map_ext_in. intros c Hc. rewrite map_map.
        apply List.map_ext. intros r. unfold objective_at.
        by destruct (cell_at b (r, c)). }
      by rewrite Hnames.
    + intros cell Hcell. apply list_elem_of_In, in_concat in Hcell as (l & Hl & Hcell).
      apply list_elem_of_In in Hl, Hcell.
      change (l ∈ (fun row_idx => map (fun col_idx => cell_at b (col_idx, row_idx)) (seq 0 n))
                    <$> seq 0 n) in Hl.
      apply list_elem_of_fmap in Hl as (c & -> & Hc).
      change (cell ∈ (fun col_idx => cell_at b (col_idx, c)) <$> seq 0 n) in Hcell.
      apply list_elem_of_fmap in Hcell as (r & -> & Hr).
      apply elem_of_seq in Hc, Hr.
      destruct (Hfull r c) as [o ->]; [lia..|]. done.
  - intros c Hc. apply elem_of_seq in Hc.
    apply mapM_Some_map. intros r Hr. apply elem_of_seq in Hr.
    apply (cell_at_defined n b r c); [by split | lia..].
Qed.


(** X17.  On a full square board (every cell an objective),
    [save_board_json] writes an opening line, one record per cell
    separated by a comma and a line break, and a closing line; the records
    carry the names of the board column by column, [size * size] of
    them. *)
Theorem save_board_json_column_major (n : nat) (b : Board) :
  grid n b → (0 < n)%nat →
  (∀ r c, (r < n)%nat → (c < n)%nat → ∃ o, cell_at b (r, c) = CObj o) →
  save_board_json b =
    Returned
      (String.concat EmptyString
         ["["; newline;
          String.concat (String.append "," newline)
            (map json_record (column_major_names b n));
          newline; "]"; newline]) ∧
  length (column_major_names b n) = (n * n)%nat.
Proof.
  intros Hg Hpos Hfull. split; [by apply save_board_json_full|].
  unfold column_major_names.
  by rewrite (length_product (fun c r => name (objective_at b (r, c)))), !length_seq.
Qed.

Lemma save_board_json_column_major_witness :
  column_major_names sample_completion 3 = ["A"; "H"; "C"; "I"; "D"; "E"; "F"; "B"; "G"] ∧
  ∃ txt, save_board_json sample_completion = Returned txt.
Proof.
  split; [reflexivity|]. eexists.
  refine (proj1 (save_board_json_column_major 3 sample_completion _ _ _)).
  - split; [reflexivity|]. repeat constructor; done.
  - lia.
  - intros r c Hr Hc.
    destruct r as [|[|[|r]]]; [| | |lia]; (destruct c as [|[|[|c]]]; [| | |lia]);
      eexists; vm_compute; reflexivity.
Defined.

(** X18.  [save_board_json] throws on the empty board (which is what
    [generate_board] returns for size 0), on a board whose first row is
    not as long as the board is high, and on a square board with an empty
    cell. *)
Theorem save_board_json_throws (bingo_pool : list Objective) (od : option Interval)
    (bd : Interval) (te : TypeExclusivity) (w : World) :
  save_board_json [] = Threw ∧
  (∃ b w', generate_board bingo_pool 0 od bd te w = Returned (IsBoard b, w') ∧
           save_board_json b = Threw) ∧
  (∀ b board0, b !! 0%nat = Some board0 → length b ≠ length board0 →
               save_board_json b = Threw) ∧
  (∀ n b r c, grid n b → (r < n)%nat → (c < n)%nat → cell_at b (r, c) = CNull →
              save_board_json b = Threw).
Proof.
  split; [done|]. split; [by eexists _, _|]. split.
  - intros b board0 Hb Hne. unfold save_board_json. rewrite Hb. by rewrite decide_False.
  - intros n b r c Hg Hr Hc Hnull. unfold save_board_json.
    destruct (grid_row n b 0 Hg ltac:(lia)) as (board0 & -> & Hlen0 & _).
    pose proof Hg as [Hlen Hall]. rewrite Hlen, Hlen0. rewrite decide_True by done.
    rewrite (mapM_Some_map _ (fun row_idx => map (fun col_idx => cell_at b (col_idx, row_idx))
                                               (seq 0 n))).
    + rewrite (mapM_None cell_name _ CNull); [done| |done].
      apply list_elem_of_In, in_concat.
      exists (map (fun col_idx => cell_at b (col_idx, c)) (seq 0 n)). split.
      * apply in_map_iff. exists c. split; [done|]. apply in_seq. lia.
      * apply in_map_iff. exists r. split; [done|]. apply in_seq. lia.
    + intros c' Hc'. apply elem_of_seq in Hc'.
      apply mapM_Some_map. intros r' Hr'. apply elem_of_seq in Hr'.
      apply (cell_at_defined n b r' c'); [done | lia..].
Qed.

Lemma save_board_json_throws_witness :
  save_board_json sample_board = Threw.
Proof.
  refine (proj2 (proj2 (proj2
            (save_board_json_throws example_pool None loose_sums none sample_world)))
            3%nat sample_board 1%nat 2%nat _ _ _ _).
  - split; [reflexivity|]. repeat constructor; done.
  - lia.
  - lia.
  - reflexivity.
Defined.

Lemma NoDup_columns (rows cols : list nat) :
  NoDup rows → NoDup cols →
  NoDup (flat_map (fun c => map (fun r => (r, c)) rows) cols).
Proof.
  intros Hrows Hcols. induction Hcols as [|c cols Hc Hnd IH]; simpl; [constructor|].
  apply NoDup_app. split; [|split; [|done]].
  - change (NoDup ((fun r => (r, c)) <$> rows)).
    apply NoDup_fmap_2_strong; [|done]. intros x y _ _. congruence.
  - intros rc Hrc. change (rc ∈ (fun r => (r, c)) <$> rows) in Hrc.
    apply list_elem_of_fmap in Hrc as (r & -> & _).
    rewrite elem_of_flat_map. intros (c' & Hc' & Hin).
    change ((r, c) ∈ (fun r => (r, c')) <$> rows) in Hin.
    apply list_elem_of_fmap in Hin as (r' & Heq & _).
    injection Heq as -> ->. done.
Qed.

(** X19.  For every board [generate_board] returns for a positive size,
    [save_board_json] raises nothing of its own: it reaches
    [fs.writeFileSync] with the path [out/bingo.json] and the text that
    carries the names of the board column by column, no name twice, and
    it ends as the write ends. *)
Theorem generated_board_saved (Disk : Type)
    (writeFileSync : string → string → Disk → outcome Disk)
    (bingo_pool : list Objective) (size0 : nat)
    (od : option Interval) (bd : Interval) (te : TypeExclusivity) (w : World)
    (b : Board) (w' : World) (disk : Disk) :
  (0 < size0)%nat →
  generate_board bingo_pool size0 od bd te w = Returned (IsBoard b, w') →
  save_board_json_file Disk writeFileSync b disk =
    writeFileSync "out/bingo.json"
      (String.concat EmptyString
         ["["; newline;
          String.concat (String.append "," newline)
            (map json_record (column_major_names b size0));
          newline; "]"; newline])
      disk ∧
  NoDup (column_major_names b size0).
Proof.
  intros Hpos Hrun.
  destruct (generate_board_outcome bingo_pool size0 od bd te w)
    as (r & c' & w1 & _ & Hgen & (Hsize & _) & _ & Hres).
  rewrite Hgen in Hrun. destruct r; [|done]. injection Hrun as <- <-.
  destruct Hres as [Hinv Hd]; [done|]. simpl in Hsize.
  unfold context_inv in Hinv. rewrite Hsize, Hd in Hinv.
  assert (Hfull : ∀ r c, (r < size0)%nat → (c < size0)%nat →
            ∃ o, cell_at (board c') (r, c) = CObj o).
  { intros r c Hr Hc. apply (inv_filled _ _ _ _ _ _ Hinv); [done..|].
    pose proof (Nat.mul_le_mono_r (S r) size0 size0 Hr). lia. }
  split.
  { unfold save_board_json_file.
    by rewrite (save_board_json_full size0) by (done || apply (inv_grid _ _ _ _ _ _ Hinv)). }
  unfold column_major_names.
  replace (flat_map (fun c => map (fun r => name (objective_at (board c') (r, c)))
                                (seq 0 size0)) (seq 0 size0))
    with ((fun rc => name (objective_at (board c') rc)) <$>
          flat_map (fun c => map (fun r => (r, c)) (seq 0 size0)) (seq 0 size0)).
  - apply NoDup_fmap_2_strong; [|apply NoDup_columns; apply NoDup_seq].
    intros rc1 rc2 H1 H2 Heq.
    assert (Hocc : ∀ rc, rc ∈ flat_map (fun c => map (fun r => (r, c)) (seq 0 size0))
                           (seq 0 size0) →
              cell_at (board c') rc = CObj (objective_at (board c') rc)).
    { intros rc Hrc. apply elem_of_flat_map in Hrc as (c & Hc & Hrc).
      change (rc ∈ (fun r => (r, c)) <$> seq 0 size0) in Hrc.
      apply list_elem_of_fmap in Hrc as (r0 & -> & Hr0). apply elem_of_seq in Hc, Hr0.
      destruct (Hfull r0 c) as [o Ho]; [lia..|]. unfold objective_at. by rewrite Ho. }
    by apply (inv_distinct _ _ _ _ _ _ Hinv rc1 rc2 _ _ (Hocc rc1 H1) (Hocc rc2 H2)).
  - change (?f <$> ?l) with (map f l). rewrite flat_map_concat_map, concat_map, map_map.
    rewrite flat_map_concat_map. f_equal. apply List.map_ext. intros c. by rewrite map_map.
Qed.

(** The run on 2 x 2 written to a disk that has the directory, and to one
    that has not. *)
Lemma generated_board_saved_witness :
  ∃ b w' txt,
    generate_board example_pool 2 None loose_sums none sample_world = Returned (IsBoard b, w') ∧
    column_major_names b 2 = ["Z"; "C"; "B"; "D"] ∧
    save_board_json_file _ sample_write b (["out"], []) =
      Returned (["out"], [("out/bingo.json", txt)]) ∧
    save_board_json_file _ sample_write b ([], []) = Threw.
Proof.
  assert (Hrun : ∃ b w',
            generate_board example_pool 2 None loose_sums none sample_world
            = Returned (IsBoard b, w') ∧ column_major_names b 2 = ["Z"; "C"; "B"; "D"]).
  { eexists _, _. split; vm_compute; reflexivity. }
  destruct Hrun as (b & w' & Hrun & Hnames).
  exists b, w'. eexists. split; [exact Hrun|]. split; [exact Hnames|].
  split.
  - rewrite (proj1 (generated_board_saved _ sample_write _ _ _ _ _ _ _ _ (["out"], [])
                      (Nat.lt_0_succ 1) Hrun)).
    reflexivity.
  - rewrite (proj1 (generated_board_saved _ sample_write _ _ _ _ _ _ _ _ ([], [])
                      (Nat.lt_0_succ 1) Hrun)).
    reflexivity.
Defined.


(** ** The progress log *)

Lemma progress_lines_S (n k : nat) :
  progress_lines n (S k) = LogCell (S k) (n * n) :: progress_lines n k.
Proof. unfold progress_lines. by rewrite seq_S, rev_app_distr. Qed.

Section Progress.

Variable bingo_pool : list Objective.
Variable base : list LogLine.

Lemma try_candidates_log
    (recur : GeneratorContext → World → outcome (bool * GeneratorContext * World))
    (row col : nat) :
  (∀ c w c' w', recur c w = Returned (false, c', w') → depth c' = depth c) →
  (∀ c w r c' w', log_inv base c w → recur c w = Returned (r, c', w') →
                  log_post base c r c' w') →
  ∀ pool c w exit c' w',
    log_inv base c w →
    try_candidates recur row col pool c w = Returned (exit, c', w') →
    log_post base c (match exit with ExitReturnTrue => true | _ => false end) c' w'.
Proof.
  intros Hdepth Hrec. induction pool as [|o rest IH]; intros c w exit c' w' Hinv; simpl.
  - intros [= <- <- <-]. destruct Hinv. by repeat split.
  - destruct (board_set (board c) row col (CObj o)) as [b|]; [|done].
    set (c1 := with_objective_names (with_board c b) _).
    assert (Hinv1 : log_inv base c1 w) by (by destruct Hinv).
    destruct (recur c1 w) as [[[r c2] w2]| |] eqn:Hcall; [|done..].
    pose proof (Hrec _ _ _ _ _ Hinv1 Hcall) as (Hsize & Hle & Hmax & Hlog & Hfull).
    simpl in Hsize, Hle, Hmax.
    destruct r; [by intros [= <- <- <-]|].
    apply Hdepth in Hcall. simpl in Hcall.
    assert (Hinv3 : ∀ k names w3, console w3 = console w2 →
              log_inv base (with_objective_names (with_backtracks c2 k) names) w3).
    { intros k names w3 Hw3. destruct Hinv. split; simpl.
      - rewrite Hsize, Hcall. done.
      - rewrite Hcall. lia.
      - by rewrite Hsize.
      - destruct Hlog as (new & Hnew & Hf). exists new. by rewrite Hw3. }
    assert (Hback : ∀ c3 exit, size c3 = size c2 → depth_record c3 = depth_record c2 →
              log_post base c3 exit c' w' → log_post base c exit c' w').
    { intros c3 e Hs Hr (H1 & H2 & H3 & H4 & H5).
      rewrite Hs, Hsize in *. rewrite Hr in H2. split; [done|]. split; [lia|]. done. }
    destruct (decide (5 < depth c2)%nat).
    + destruct (decide (BACKTRACK_LIMIT ≤ S (backtracks c2))%nat).
      * intros [= <- <- <-]. split; [done|]. split; [done|]. split; [done|]. split; [|done].
        destruct Hlog as (new & Hnew & Hf). simpl.
        case_decide.
        -- exists (LogTooMuchBacktracking :: new). simpl. by rewrite Hnew.
        -- by exists new.
      * intros Hloop. eapply (Hback _ _ eq_refl eq_refl).
        apply (IH _ _ _ _ _ (Hinv3 _ _ w2 eq_refl) Hloop).
    + intros Hloop.
      pose proof (Hinv3 (S (backtracks c2)) (objective_names c2 ∖ {[name o]}) w2 eq_refl)
        as Hi.
      assert (Hi0 : log_inv base
                (with_backtracks
                   (with_objective_names (with_backtracks c2 (S (backtracks c2)))
                      (objective_names c2 ∖ {[name o]})) 0) w2) by (by destruct Hi).
      eapply (Hback _ _ eq_refl eq_refl). apply (IH _ _ _ _ _ Hi0 Hloop).
Qed.

Lemma generate_board_helper_log (fuel : nat) (c : GeneratorContext) (w : World)
    (r : bool) (c' : GeneratorContext) (w' : World) :
  log_inv base c w →
  generate_board_helper bingo_pool fuel c w = Returned (r, c', w') →
  log_post base c r c' w'.
Proof.
  revert c w r c' w'. induction fuel as [|fuel IH]; intros c w r c' w' Hinv; [done|].
  simpl.
  assert (Hbody : ∀ c0 w0,
            log_inv base c0 w0 → (depth c0 ≤ depth_record c0)%nat →
            helper_body bingo_pool (generate_board_helper bingo_pool fuel) c0 w0
              = Returned (r, c', w') →
            log_post base c0 r c' w').
  { intros c0 w0 Hinv0 Hrec. unfold helper_body.
    pose proof Hinv0 as [Hd Hn Hr Hl].
    case_decide as Hfull.
    { intros [= <- <- <-]. repeat split; try done. lia. }
    destruct (count_bingo_constraints _ _ _) as [cs|]; [|done].
    case_decide; [intros [= <- <- <-]; by repeat split|].
    destruct (shuffle_array _ w0) as [pool w1] eqn:Hsh.
    apply shuffle_array_spec in Hsh as (_ & Hcons & _).
    destruct (try_candidates _ _ _ pool _ w1) as [[[exit c2] w2]| |] eqn:Hloop; [|done..].
    assert (Hinv1 : log_inv base (with_depth c0 (S (depth c0))) w1).
    { split; simpl; [lia | lia | done |].
      destruct Hl as (new & Hnew & Hf). exists new. by rewrite Hcons. }
    pose proof (try_candidates_log _ _ _
                  (generate_board_helper_depth bingo_pool fuel) IH _ _ _ _ _ _ Hinv1 Hloop)
      as (H1 & H2 & H3 & H4 & H5).
    simpl in H1, H2, H3.
    destruct exit; simpl.
    - by intros [= <- <- <-].
    - destruct (board_set (board c2) _ _ CNull); [|done]. by intros [= <- <- <-].
    - destruct (board_set (board c2) _ _ CNull); [|done]. by intros [= <- <- <-]. }
  pose proof Hinv as [Hd Hn Hr Hl].
  case_decide as Hnew.
  - intros Hrun. apply Hbody in Hrun.
    + destruct Hrun as (H1 & H2 & H3 & H4 & H5). simpl in *.
      split; [done|]. split; [lia|]. done.
    + split; simpl; [done | lia | done |].
      destruct Hl as (new & Hw & Hf).
      exists (LogCell (depth c) (size c * size c) :: new). simpl.
      rewrite Hw, Hf. split; [done|].
      replace (depth c) with (S (depth_record c)) by lia. by rewrite progress_lines_S.
    + done.
  - intros Hrun. apply Hbody in Hrun; [done| |lia]. by split.
Qed.

End Progress.

(** X20.  The progress log of a run of [generate_board]: the lines
    [Cell d / size*size] written count d = 1, 2, ..., k without gap or
    repetition, in this order, whatever backtracking happens in between;
    k is at most [size * size], and it is [size * size] when a board is
    returned. *)
Theorem progress_log_counts (bingo_pool : list Objective) (size0 : nat)
    (od : option Interval) (bd : Interval) (te : TypeExclusivity) (w : World) :
  ∃ res w' new k,
    generate_board bingo_pool size0 od bd te w = Returned (res, w') ∧
    console w' = new ++ console w ∧
    rev (List.filter is_progress new) = map (fun d => LogCell d (size0 * size0)) (seq 1 k) ∧
    (k ≤ size0 * size0)%nat ∧
    (∀ b, res = IsBoard b → k = (size0 * size0)%nat).
Proof.
  destruct (generate_board_outcome bingo_pool size0 od bd te w)
    as (r & c' & w' & Hhelper & Hgen & _).
  assert (Hinv : log_inv (console w) (initial_context size0 od bd te) w).
  { split; simpl; [lia..|]. by exists []. }
  destruct (generate_board_helper_log bingo_pool (console w) _ _ _ _ _ _ Hinv Hhelper)
    as (Hsize & _ & Hmax & (new & Hnew & Hf) & Hfull).
  simpl in Hsize, Hmax, Hfull.
  eexists _, w', new, (depth_record c'). split; [exact Hgen|]. split; [done|].
  split; [|split; [done|]].
  - rewrite Hf, Hsize. unfold progress_lines. by rewrite <- map_rev, rev_involutive.
  - intros b Hb. apply Hfull. by destruct r.
Qed.
